(** * Open Skills Manager: a shallow embedding of the indexing and
    reconciliation engine, and the properties its specification states.

    The TypeScript sources are embedded function by function.  Node's
    synchronous file-system calls, the module-level hash cache and thrown
    exceptions are threaded through a small state-and-exception monad; the
    asynchronous parts (the single-flight rebuild, the worker pool) are
    embedded as event-driven state machines whose events are the points at
    which the JavaScript event loop hands control back to the program. *)

From Stdlib Require Import ZArith Ascii String List Lia.
From stdpp Require Import gmap strings list fin_maps.
From Equations Require Import Equations.
From Equations.Prop Require Import Logic.

Open Scope string_scope.
Open Scope list_scope.

(* ===================================================================== *)
(** * Part I: the model                                                   *)
(* ===================================================================== *)

(** ** types.ts (the head of src/src/types.ts) *)

Inductive SkillMatchStatus :=
| NotInstalled   (* Skill not installed in workspace *)
| Matched        (* Installed skill matches this repo version *)
| Conflict.      (* Installed skill differs from this repo version *)

#[global] Instance SkillMatchStatus_eq_dec : EqDecision SkillMatchStatus.
Proof. solve_decision. Defined.

(** Optional fields ([localPath?], [installed?], [matchStatus?]) are
    options; [None] is [undefined]. *)
Module Skill.
Record t := mk {
  name : string;
  description : string;
  path : string;
  repoUrl : string;
  localPath : option string;
  installed : option bool;
  matchStatus : option SkillMatchStatus;
}.
End Skill.

Module SkillRepo.
Record t := mk {
  url : string;
  name : string;
  branch : option string;
  isPreset : option bool;
}.
End SkillRepo.

(** The constant discriminant [type: 'local-group'] is left out. *)
Module LocalSkillsGroup.
Record t := mk {
  name : string;
  path : string;
  icon : string;
  exists_ : bool;
  isActive : bool;
}.
End LocalSkillsGroup.

(** ** utils/ide.ts: the enumeration of target environments *)

Inductive IdeType :=
| VSCODE | CURSOR | TRAE | ANTIGRAVITY | QODER | WINDSURF | CODEBUDDY | SKILLS.

#[global] Instance IdeType_eq_dec : EqDecision IdeType.
Proof. solve_decision. Defined.

(** ** The host platform: [fs], [path], [crypto], [os], [process.env] *)

(** A [fs.Dirent] as returned by [readdirSync(dir, { withFileTypes: true })]. *)
Module Dirent.
Record t := mk { name : string; isDirectory : bool }.
End Dirent.

(** The environment variables [detectIde] reads. *)
Module Env.
Record t := mk {
  AGENTSKILLS_IDE : option string;
  VSCODE_BRAND : option string;
  VSCODE_ENV_APPNAME : option string;
  PROG_IDE_NAME : option string;
}.
End Env.

(** What the program can observe of the machine it runs on.  A synchronous
    call that throws is [None].  [fs_mtimeMs] is the [mtimeMs] field of
    [fs.statSync]; the program only compares it with [===], so an integer
    stands for the JavaScript number.  File contents are byte strings.
    [md5hex] is [crypto.createHash('md5').update(content).digest('hex')].
    [workspaceRoot] is [vscode.workspace.workspaceFolders?.[0]?.uri.fsPath].
    A platform is a snapshot: the disk does not change while one synchronous
    call runs, but the four file-system observations are independent of each
    other (a path may exist and still fail to be read). *)
Record Platform := {
  fs_exists : string → bool;
  fs_mtimeMs : string → option Z;
  fs_read : string → option string;
  fs_readdir : string → option (list Dirent.t);
  md5hex : string → string;
  homedir : string;
  tmpdir : string;
  env : Env.t;
  appName : string;
  workspaceRoot : option string;
}.

(** [path.join] on two segments.  Empty segments are dropped as Node does;
    the normalisation of [.] and [..] segments is not modelled (the program
    only joins directory names read from the disk and fixed file names). *)
Definition join (a b : string) : string :=
  match a, b with
  | "", _ => b
  | _, "" => a
  | _, _ => a +:+ "/" +:+ b
  end.
Arguments join : simpl never.

(** The file-system calls a run performs, in program order. *)
Inductive FsCall :=
| ExistsSync (p : string)
| StatSync (p : string)
| ReadFileSync (p : string)
| ReaddirSync (p : string).

#[global] Instance FsCall_eq_dec : EqDecision FsCall.
Proof. solve_decision. Defined.

(** An entry of [hashCache] in utils/skillCompare.ts. *)
Module CacheEntry.
Record t := mk { hash : string; mtime : Z }.
End CacheEntry.

(** The mutable world of a synchronous run: the platform, the module-level
    [hashCache] of utils/skillCompare.ts, the fields of the (single)
    [SkillsProvider] instance that the embedded methods touch, the number of
    [_onDidChangeTreeData.fire()] calls, and the log of file-system calls.
    [repoSkillsIndex] is a JavaScript [Map] kept in insertion order. *)
Record World := {
  host : Platform;
  hashCache : gmap string CacheEntry.t;
  fsLog : list FsCall;
  checkedSkills : gset string;
  skillCache : gmap string Skill.t;
  installedSkillHashes : gmap string string;
  repoSkillsIndex : list (string * list Skill.t);
  searchQuery : string;
  fired : nat;
}.

Definition with_hashCache (c : gmap string CacheEntry.t) (w : World) : World :=
  {| host := host w; hashCache := c; fsLog := fsLog w;
     checkedSkills := checkedSkills w; skillCache := skillCache w;
     installedSkillHashes := installedSkillHashes w;
     repoSkillsIndex := repoSkillsIndex w; searchQuery := searchQuery w;
     fired := fired w |}.

Definition with_fsLog (l : list FsCall) (w : World) : World :=
  {| host := host w; hashCache := hashCache w; fsLog := l;
     checkedSkills := checkedSkills w; skillCache := skillCache w;
     installedSkillHashes := installedSkillHashes w;
     repoSkillsIndex := repoSkillsIndex w; searchQuery := searchQuery w;
     fired := fired w |}.

Definition with_checkedSkills (c : gset string) (w : World) : World :=
  {| host := host w; hashCache := hashCache w; fsLog := fsLog w;
     checkedSkills := c; skillCache := skillCache w;
     installedSkillHashes := installedSkillHashes w;
     repoSkillsIndex := repoSkillsIndex w; searchQuery := searchQuery w;
     fired := fired w |}.

Definition with_skillCache (c : gmap string Skill.t) (w : World) : World :=
  {| host := host w; hashCache := hashCache w; fsLog := fsLog w;
     checkedSkills := checkedSkills w; skillCache := c;
     installedSkillHashes := installedSkillHashes w;
     repoSkillsIndex := repoSkillsIndex w; searchQuery := searchQuery w;
     fired := fired w |}.

Definition with_installedSkillHashes (t : gmap string string) (w : World) : World :=
  {| host := host w; hashCache := hashCache w; fsLog := fsLog w;
     checkedSkills := checkedSkills w; skillCache := skillCache w;
     installedSkillHashes := t;
     repoSkillsIndex := repoSkillsIndex w; searchQuery := searchQuery w;
     fired := fired w |}.

Definition with_fired (n : nat) (w : World) : World :=
  {| host := host w; hashCache := hashCache w; fsLog := fsLog w;
     checkedSkills := checkedSkills w; skillCache := skillCache w;
     installedSkillHashes := installedSkillHashes w;
     repoSkillsIndex := repoSkillsIndex w; searchQuery := searchQuery w;
     fired := n |}.

(** ** Synchronous code: state and exceptions *)

Inductive Completion (A : Type) :=
| Normal (a : A)
| Throw.
Arguments Normal {A} a.
Arguments Throw {A}.

Definition M (A : Type) : Type := World → Completion A * World.

Definition ret {A} (a : A) : M A := λ w, (Normal a, w).

Definition bind {A B} (m : M A) (k : A → M B) : M B :=
  λ w, match m w with
       | (Normal a, w') => k a w'
       | (Throw, w') => (Throw, w')
       end.

(** [try { body } catch { handler }]: the effects of [body] up to the throw
    are kept. *)
Definition try_catch {A} (body handler : M A) : M A :=
  λ w, match body w with
       | (Normal a, w') => (Normal a, w')
       | (Throw, w') => handler w'
       end.

Notation "'do' x <- m ; k" := (bind m (λ x, k))
  (at level 10, x name, m at level 100, k at level 200,
   format "'[v' 'do'  x  <-  m ; '/' k ']'").
Notation "m ;;; k" := (bind m (λ _, k))
  (at level 100, k at level 200, right associativity).

(** [for (const x of l) body(x)] *)
Fixpoint forEach {A} (l : list A) (body : A → M unit) : M unit :=
  match l with
  | [] => ret tt
  | x :: l' => body x ;;; forEach l' body
  end.

(** [l.some(p)]: stops at the first element that satisfies [p]. *)
Fixpoint someM {A} (p : A → M bool) (l : list A) : M bool :=
  match l with
  | [] => ret false
  | x :: l' => do b <- p x; if b then ret true else someM p l'
  end.

(** [l.map(f)] *)
Fixpoint mapM {A B} (f : A → M B) (l : list A) : M (list B) :=
  match l with
  | [] => ret []
  | x :: l' => do y <- f x; do ys <- mapM f l'; ret (y :: ys)
  end.

(** [l.filter(p)] *)
Fixpoint filterM {A} (p : A → M bool) (l : list A) : M (list A) :=
  match l with
  | [] => ret []
  | x :: l' =>
      do b <- p x; do ys <- filterM p l'; ret (if b then x :: ys else ys)
  end.

Definition get {A} (proj : World → A) : M A := λ w, (Normal (proj w), w).

Definition modify (f : World → World) : M unit := λ w, (Normal tt, f w).

Definition logged (c : FsCall) (w : World) : World :=
  with_fsLog (fsLog w ++ [c]) w.

Definition of_option {A} (o : option A) (w : World) : Completion A * World :=
  match o with
  | Some a => (Normal a, w)
  | None => (Throw, w)
  end.

(** [fs.existsSync] never throws. *)
Definition existsSync (p : string) : M bool :=
  λ w, (Normal (fs_exists (host w) p), logged (ExistsSync p) w).

(** [fs.statSync(p).mtimeMs] *)
Definition statSync_mtimeMs (p : string) : M Z :=
  λ w, of_option (fs_mtimeMs (host w) p) (logged (StatSync p) w).

Definition readFileSync (p : string) : M string :=
  λ w, of_option (fs_read (host w) p) (logged (ReadFileSync p) w).

Definition readdirSync (p : string) : M (list Dirent.t) :=
  λ w, of_option (fs_readdir (host w) p) (logged (ReaddirSync p) w).

Definition digest (content : string) : M string :=
  λ w, (Normal (md5hex (host w) content), w).

(** ** utils/skillCompare.ts (src/src/utils/skillCompare.ts) *)

Definition computeFileHash (filePath : string) : M string :=
  do content <- readFileSync filePath;
  digest content.

Definition computeSkillHash (dirPath : string) : M string :=
  let skillMdPath := join dirPath "SKILL.md" in
  do present <- existsSync skillMdPath;
  if negb present then ret ""
  else computeFileHash skillMdPath.

Definition getCachedSkillHash (dirPath : string) : M string :=
  let skillMdPath := join dirPath "SKILL.md" in
  do present <- existsSync skillMdPath;
  if negb present then ret ""
  else
    try_catch
      (do mtime <- statSync_mtimeMs skillMdPath;
       do cached <- get (λ w, hashCache w !! dirPath);
       match cached with
       | Some c =>
           if decide (CacheEntry.mtime c = mtime) then ret (CacheEntry.hash c)
           else
             do hash <- computeSkillHash dirPath;
             modify (λ w, with_hashCache
                            (<[dirPath := CacheEntry.mk hash mtime]> (hashCache w)) w);;;
             ret hash
       | None =>
           do hash <- computeSkillHash dirPath;
           modify (λ w, with_hashCache
                          (<[dirPath := CacheEntry.mk hash mtime]> (hashCache w)) w);;;
           ret hash
       end)
      (ret "").

Definition clearHashCache : M unit := modify (with_hashCache ∅).

(** ** JavaScript strings *)

Definition is_empty (s : string) : bool :=
  match s with "" => true | _ => false end.

(** Truthiness of a [string | undefined]: [undefined] and [''] are falsy. *)
Definition truthy (o : option string) : bool :=
  match o with
  | Some s => negb (is_empty s)
  | None => false
  end.

(** [a || b] on strings. *)
Definition or_else (a : option string) (b : string) : string :=
  match a with
  | Some s => if is_empty s then b else s
  | None => b
  end.

Definition startsWith (s p : string) : bool := String.prefix p s.

(** [s.includes(q)] *)
Fixpoint includes (s q : string) : bool :=
  if String.prefix q s then true
  else match s with
       | "" => false
       | String _ s' => includes s' q
       end.

(** [toLowerCase] on the ASCII range; other bytes are left as they are
    (the case mapping of non-ASCII letters is not modelled). *)
Definition lower_ascii (c : ascii) : ascii :=
  let n := N_of_ascii c in
  if ((65 <=? n) && (n <=? 90))%N then ascii_of_N (n + 32) else c.

Fixpoint toLowerCase (s : string) : string :=
  match s with
  | "" => ""
  | String c s' => String (lower_ascii c) (toLowerCase s')
  end.

(** [a.indexOf(x)]; [None] is [-1]. *)
Fixpoint indexOf (x : string) (l : list string) : option nat :=
  match l with
  | [] => None
  | y :: l' => if decide (y = x) then Some 0 else S <$> indexOf x l'
  end.

(** [Array.from(new Set(l))]: first occurrences, in order. *)
Fixpoint dedupe_from (seen : list string) (l : list string) : list string :=
  match l with
  | [] => []
  | x :: l' =>
      if decide (x ∈ seen) then dedupe_from seen l'
      else x :: dedupe_from (x :: seen) l'
  end.

Definition dedupe (l : list string) : list string := dedupe_from [] l.

(** ** utils/ide.ts (src/unnamed/part_002) *)

Module IdeConfig.
Record t := mk { type : IdeType; skillsDir : string }.
End IdeConfig.

(** The object literal, in the order its keys are written: this is the order
    in which [Object.values] enumerates it. *)
Definition IDE_CONFIGS : list (IdeType * IdeConfig.t) :=
  [ (SKILLS, IdeConfig.mk SKILLS (join ".agents" "skills"));
    (ANTIGRAVITY, IdeConfig.mk ANTIGRAVITY (join ".agent" "skills"));
    (CODEBUDDY, IdeConfig.mk CODEBUDDY (join ".codebuddy" "skills"));
    (CURSOR, IdeConfig.mk CURSOR (join ".cursor" "skills"));
    (QODER, IdeConfig.mk QODER (join ".qoder" "skills"));
    (TRAE, IdeConfig.mk TRAE (join ".trae" "skills"));
    (VSCODE, IdeConfig.mk VSCODE (join ".github" "skills"));
    (WINDSURF, IdeConfig.mk WINDSURF (join ".windsurf" "skills")) ].

(** The string values of the [IdeType] enum. *)
Definition IdeType_value (i : IdeType) : string :=
  match i with
  | VSCODE => "vscode" | CURSOR => "cursor" | TRAE => "trae"
  | ANTIGRAVITY => "antigravity" | QODER => "qoder" | WINDSURF => "windsurf"
  | CODEBUDDY => "codebuddy" | SKILLS => "skills"
  end.

Definition IdeType_values : list IdeType :=
  [VSCODE; CURSOR; TRAE; ANTIGRAVITY; QODER; WINDSURF; CODEBUDDY; SKILLS].

(** [Object.values(IdeType).includes(s)], with the member found. *)
Definition IdeType_of_value (s : string) : option IdeType :=
  List.find (λ i, bool_decide (IdeType_value i = s)) IdeType_values.

Definition resolveIdeType (appName : string) : IdeType :=
  let lowerAppName := toLowerCase appName in
  if includes lowerAppName "codebuddy" then CODEBUDDY
  else if includes lowerAppName "cursor" then CURSOR
  else if includes lowerAppName "qoder" then QODER
  else if includes lowerAppName "trae" then TRAE
  else if includes lowerAppName "antigravity" then ANTIGRAVITY
  else if includes lowerAppName "windsurf" then WINDSURF
  else VSCODE.

Definition detectIde (env : Env.t) (appNameHint : option string) : IdeType :=
  let override :=
    if truthy (Env.AGENTSKILLS_IDE env)
    then IdeType_of_value (toLowerCase (or_else (Env.AGENTSKILLS_IDE env) ""))
    else None in
  match override with
  | Some ide => ide
  | None =>
      let brand := or_else (Env.VSCODE_BRAND env) "" in
      if negb (is_empty brand) then resolveIdeType brand
      else
        let appName :=
          or_else (Env.VSCODE_ENV_APPNAME env)
                  (or_else (Env.PROG_IDE_NAME env) "") in
        if negb (is_empty appName) then resolveIdeType appName
        else if truthy appNameHint then resolveIdeType (or_else appNameHint "")
        else VSCODE
  end.

(** [getIdeConfig] on a member of the enum (the only way the provider calls
    it): the entry of [IDE_CONFIGS] under that key. *)
Definition getIdeConfig (ide : IdeType) : IdeConfig.t :=
  match List.find (λ kv, bool_decide (fst kv = ide)) IDE_CONFIGS with
  | Some kv => snd kv
  | None => IdeConfig.mk ide ""
  end.

Definition getProjectSkillsDir (workspaceRoot : string) (ide : IdeType) : string :=
  let config := getIdeConfig ide in
  join workspaceRoot (IdeConfig.skillsDir config).

(** ** utils/skills.ts (src/unnamed/part_001) *)

Module SkillDirectory.
Record t := mk {
  path : string;
  displayName : string;
  isProject : bool;
  icon : string;
}.
End SkillDirectory.

(** [relPath.replace(/\\/g, '/')]: the identity on POSIX paths, which contain
    no backslash separators. *)
Definition toDisplayPath (relPath : string) : string := relPath.

Definition getSkillDirectories (pf : Platform) (workspaceRoot : string)
  : list SkillDirectory.t :=
  let uniqueProjectSkillDirs :=
    dedupe (map (λ kv, IdeConfig.skillsDir (snd kv)) IDE_CONFIGS) in
  let projectDirs :=
    map (λ relDir,
           let displayName := toDisplayPath relDir in
           let icon := if startsWith displayName ".claude/"
                       then "folder" else "folder-library" in
           SkillDirectory.mk (join workspaceRoot relDir) displayName true icon)
        uniqueProjectSkillDirs in
  let globalDirs :=
    [ SkillDirectory.mk (join (join (homedir pf) ".claude") "skills")
                        "~/.claude/skills" false "home";
      SkillDirectory.mk (join (join (homedir pf) ".codex") "skills")
                        "~/.codex/skills" false "home" ] in
  projectDirs ++ globalDirs.

(** ** skillsProvider.ts (the [SkillsProvider] class, in src/src/types.ts
    after the type declarations): the synchronous methods *)

(** [this._onDidChangeTreeData.fire()] *)
Definition fire : M unit := modify (λ w, with_fired (S (fired w)) w).

Definition getSkillKey (skill : Skill.t) : string :=
  Skill.repoUrl skill +:+ "::" +:+ Skill.name skill.

Definition getWorkspaceRoot : M (option string) :=
  get (λ w, workspaceRoot (host w)).

Definition getInstalledSkillsDir : M (option string) :=
  do root <- getWorkspaceRoot;
  do pf <- get host;
  match root with
  | Some r =>
      if is_empty r then ret None
      else ret (Some (getProjectSkillsDir r
                        (detectIde (env pf) (Some (appName pf)))))
  | None => ret None
  end.

Definition setChecked (skill : Skill.t) (checked : bool) : M unit :=
  let key := getSkillKey skill in
  if checked then
    modify (λ w, with_checkedSkills ({[key]} ∪ checkedSkills w) w);;;
    modify (λ w, with_skillCache (<[key := skill]> (skillCache w)) w)
  else
    modify (λ w, with_checkedSkills (checkedSkills w ∖ {[key]}) w).

Definition updateInstalledSkillHashes : M unit :=
  modify (with_installedSkillHashes ∅);;;
  do dir <- getInstalledSkillsDir;
  match dir with
  | None => ret tt
  | Some dir =>
      if is_empty dir then ret tt
      else
        do present <- existsSync dir;
        if negb present then ret tt
        else
          try_catch
            (do entries <- readdirSync dir;
             forEach entries (λ entry,
               if Dirent.isDirectory entry
                  && negb (startsWith (Dirent.name entry) ".")
               then
                 let skillDir := join dir (Dirent.name entry) in
                 do marker <- existsSync (join skillDir "SKILL.md");
                 if marker then
                   do hash <- getCachedSkillHash skillDir;
                   modify (λ w, with_installedSkillHashes
                                  (<[Dirent.name entry := hash]>
                                     (installedSkillHashes w)) w)
                 else ret tt
               else ret tt))
            (ret tt)
  end.

Definition getSkillMatchStatus (skill : Skill.t) : M SkillMatchStatus :=
  do installedHash <- get (λ w, installedSkillHashes w !! Skill.name skill);
  if negb (truthy installedHash) then ret NotInstalled
  else
    (* Compare with repo skill hash *)
    match Skill.localPath skill with
    | Some localPath =>
        if is_empty localPath then ret NotInstalled
        else
          do present <- existsSync localPath;
          if present then
            do repoHash <- getCachedSkillHash localPath;
            ret (if decide (installedHash = Some repoHash)
                 then Matched else Conflict)
          else ret NotInstalled
    | None => ret NotInstalled
    end.

(** [filterSkills] on repository skills. *)
Definition filterSkills (query : string) (skills : list Skill.t) : list Skill.t :=
  if is_empty query then skills
  else
    let q := toLowerCase query in
    List.filter (λ s,
                   let name := toLowerCase (Skill.name s) in
                   let desc := toLowerCase (Skill.description s) in
                   includes name q || includes desc q)
                skills.

Definition getAllMatchingRepoSkills : M (list Skill.t) :=
  do index <- get repoSkillsIndex;
  do query <- get searchQuery;
  ret (concat (map (λ kv, filterSkills query (snd kv)) index)).

(** [Map.prototype.get] on the insertion-ordered index. *)
Definition index_get (url : string) (index : list (string * list Skill.t))
  : option (list Skill.t) :=
  snd <$> List.find (λ kv, bool_decide (fst kv = url)) index.

Definition checkAllMatchingRepoSkills : M unit :=
  do skills <- getAllMatchingRepoSkills;
  forEach skills (λ skill,
    if decide (Skill.matchStatus skill = Some Conflict) then ret tt
    else setChecked skill true);;;
  fire.

Definition checkAllSkillsInRepo (repo : SkillRepo.t) : M unit :=
  do index <- get repoSkillsIndex;
  do query <- get searchQuery;
  let skills := default [] (index_get (SkillRepo.url repo) index) in
  let candidates :=
    if negb (is_empty query) then filterSkills query skills else skills in
  forEach candidates (λ skill,
    do status <- match Skill.matchStatus skill with
                 | Some st => ret st
                 | None => getSkillMatchStatus skill
                 end;
    if decide (status = Conflict) then ret tt
    else setChecked skill true);;;
  fire.

Definition getLocalSkillsGroups : M (list LocalSkillsGroup.t) :=
  do root <- getWorkspaceRoot;
  match root with
  | None => ret []
  | Some root =>
      if is_empty root then ret []
      else
        do pf <- get host;
        let activeProjectSkillsPath :=
          getProjectSkillsDir root (detectIde (env pf) (Some (appName pf))) in
        do groups <-
          mapM (λ dir,
                  do present <- existsSync (SkillDirectory.path dir);
                  ret (LocalSkillsGroup.mk
                         (SkillDirectory.displayName dir)
                         (SkillDirectory.path dir)
                         (SkillDirectory.icon dir)
                         present
                         (bool_decide (SkillDirectory.path dir
                                       = activeProjectSkillsPath))))
               (getSkillDirectories pf root);
        filterM (λ group,
                   if LocalSkillsGroup.isActive group then ret true
                   else if negb (LocalSkillsGroup.exists_ group) then ret false
                   else
                     try_catch
                       (do entries <- readdirSync (LocalSkillsGroup.path group);
                        someM (λ entry,
                                 if Dirent.isDirectory entry
                                    && negb (startsWith (Dirent.name entry) ".")
                                 then existsSync
                                        (join (join (LocalSkillsGroup.path group)
                                                    (Dirent.name entry))
                                              "SKILL.md")
                                 else ret false)
                              entries)
                       (ret false))
                groups
  end.

(** ** skillsProvider.ts: the explicit order lists *)

(** [l.splice(i, 1)] and [l.splice(i, 0, x)] *)
Definition splice_remove {A} (i : nat) (l : list A) : list A :=
  take i l ++ drop (S i) l.

Definition splice_insert {A} (i : nat) (x : A) (l : list A) : list A :=
  take i l ++ x :: drop i l.

Definition reorderKey (order : list string) (draggedKey : string)
    (targetKey : option string) : list string :=
  if decide (Some draggedKey = targetKey) then order
  else
    let next := List.filter (λ k, negb (bool_decide (k = draggedKey))) order in
    match targetKey with
    | None => next ++ [draggedKey]
    | Some target =>
        if is_empty target then next ++ [draggedKey]
        else
          match indexOf target next with
          | None => next ++ [draggedKey]
          | Some index => splice_insert index draggedKey next
          end
    end.

Definition ensureOrder (existing keys : list string) : list string :=
  let normalized := List.filter (λ k, bool_decide (k ∈ keys)) existing in
  normalized ++ List.filter (λ k, negb (bool_decide (k ∈ normalized))) keys.

(** The parameter type [-1 | 1] of [moveKey] and [moveNode]. *)
Inductive Delta := MinusOne | PlusOne.

Definition Delta_value (d : Delta) : Z :=
  match d with MinusOne => -1 | PlusOne => 1 end.

Lemma indexOf_None x l : indexOf x l = None → x ∉ l.
Proof.
  induction l as [|y l IH]; simpl; intros H.
  - apply not_elem_of_nil.
  - destruct (decide (y = x)) as [->|Hne]; [discriminate|].
    destruct (indexOf x l); [discriminate|].
    apply not_elem_of_cons; split; [congruence | by apply IH].
Qed.

(** [moveKey] calls itself once when the key is missing, after appending it. *)
Equations? moveKey (order : list string) (key : string) (delta : Delta)
  : list string
  by wf (if decide (key ∈ order) then 0 else 1)%nat lt :=
moveKey order key delta with inspect (indexOf key order) := {
  | exist _ None Hidx => moveKey (order ++ [key]) key delta
  | exist _ (Some currentIndex) Hidx =>
      let next := order in
      let targetIndex := (Z.of_nat currentIndex + Delta_value delta)%Z in
      if ((targetIndex <? 0) || (targetIndex >=? Z.of_nat (length next)))%Z
      then next
      else splice_insert (Z.to_nat targetIndex) key
             (splice_remove currentIndex next)
}.
Proof.
  apply indexOf_None in Hidx.
  destruct (decide (key ∈ order)); [done|].
  destruct (decide (key ∈ order ++ [key])) as [|Hn]; [lia|].
  exfalso. apply Hn, elem_of_app. right. by apply list_elem_of_singleton.
Qed.

(** ** configManager.ts (src/unnamed/part_000) *)

(** Preset repositories that are always included *)
Definition PRESET_REPOS : list SkillRepo.t :=
  [ SkillRepo.mk "https://github.com/anthropics/skills.git"
                 "anthropics/skills" None (Some true);
    SkillRepo.mk "https://github.com/openai/skills.git"
                 "openai/skills" None (Some true);
    SkillRepo.mk "https://github.com/ComposioHQ/awesome-claude-skills.git"
                 "claude/skills" None (Some true);
    SkillRepo.mk "https://github.com/vercel-labs/agent-skills.git"
                 "vercel/skills" None (Some true);
    SkillRepo.mk "https://github.com/skillcreatorai/Ai-Agent-Skills.git"
                 "creatorai/skills" None (Some true);
    SkillRepo.mk "https://github.com/obra/superpowers.git"
                 "superpowers/skills" None (Some true);
    SkillRepo.mk "https://github.com/zxkane/aws-skills.git"
                 "aws/skills" None (Some true);
    SkillRepo.mk "https://github.com/huggingface/skills.git"
                 "huggingface/skills" None (Some true);
    SkillRepo.mk "https://github.com/ameyalambat128/swiftui-skills.git"
                 "swiftui/skills" None (Some true) ].

(** The stored setting [agentskills.repositories] is the explicit state:
    [None] when the user never set it. *)
Definition Config := option (list SkillRepo.t).

Definition is_preset_url (u : string) : bool :=
  existsb (λ p, bool_decide (SkillRepo.url p = u)) PRESET_REPOS.

Definition getRepos (config : Config) : list SkillRepo.t :=
  let userRepos := default [] config in
  (* Merge preset repos with user repos, preset first, avoiding duplicates *)
  PRESET_REPOS
    ++ List.filter (λ r, negb (is_preset_url (SkillRepo.url r))) userRepos.

(** [removeRepo] returns the setting it stores. *)
Definition removeRepo (url : string) (config : Config) : Config :=
  let repos := getRepos config in
  let repos := List.filter (λ r, negb (bool_decide (SkillRepo.url r = url))) repos in
  Some repos.

(** ** services/skillScanner.ts (src/unnamed/part_003): the cache path of a
    repository *)

Definition b64_alphabet : string :=
  "ABCDEFGHIJKLMNOPQRSTUVWXYZabcdefghijklmnopqrstuvwxyz0123456789+/".

Definition b64_char (n : N) : ascii :=
  default "="%char (String.get (N.to_nat n) b64_alphabet).

(** [Buffer.from(s).toString('base64')], on the bytes of [s] (a JavaScript
    string is given by its UTF-8 bytes, which is what [Buffer.from] encodes). *)
Fixpoint base64 (s : string) : string :=
  match s with
  | "" => ""
  | String a "" =>
      let a := N_of_ascii a in
      String (b64_char (N.shiftr a 2))
        (String (b64_char (N.shiftl (N.land a 3) 4)) "==")
  | String a (String b "") =>
      let a := N_of_ascii a in
      let b := N_of_ascii b in
      String (b64_char (N.shiftr a 2))
        (String (b64_char (N.lor (N.shiftl (N.land a 3) 4) (N.shiftr b 4)))
           (String (b64_char (N.shiftl (N.land b 15) 2)) "="))
  | String a (String b (String c rest)) =>
      let a := N_of_ascii a in
      let b := N_of_ascii b in
      let c := N_of_ascii c in
      String (b64_char (N.shiftr a 2))
        (String (b64_char (N.lor (N.shiftl (N.land a 3) 4) (N.shiftr b 4)))
           (String (b64_char (N.lor (N.shiftl (N.land b 15) 2) (N.shiftr c 6)))
              (String (b64_char (N.land c 63)) (base64 rest))))
  end.

(** The character class [a-zA-Z0-9]. *)
Definition is_alnum (c : ascii) : bool :=
  let n := N_of_ascii c in
  ((97 <=? n) && (n <=? 122) || (65 <=? n) && (n <=? 90)
   || (48 <=? n) && (n <=? 57))%N.

(** [s.replace(/[^a-zA-Z0-9]/g, '')] *)
Fixpoint strip_non_alnum (s : string) : string :=
  match s with
  | "" => ""
  | String c s' =>
      if is_alnum c then String c (strip_non_alnum s') else strip_non_alnum s'
  end.

Definition CACHE_DIR (pf : Platform) : string :=
  join (tmpdir pf) "agentskills-git-cache".

Definition getRepoCachePath (pf : Platform) (url : string) : string :=
  let dirName := strip_non_alnum (base64 url) in
  join (CACHE_DIR pf) dirName.

(** ** skillsProvider.ts: the single-flight rebuild

    JavaScript runs each synchronous stretch of code to completion, so the
    asynchronous part of the provider is a state machine whose transitions
    are those stretches.  A promise is named by the number of the
    [doBuildIndex()] call that created it.  [executing] lists the rebuilds
    whose body has started and not yet settled; [settled] lists the settled
    ones whose [.finally] callback has not run yet (it runs in a later
    microtask); [started] counts the [doBuildIndex()] calls so far. *)
Module Indexing.

Record State := {
  indexingPromise : option nat;
  executing : list nat;
  settled : list nat;
  started : nat;
}.

Definition initial : State :=
  {| indexingPromise := None; executing := []; settled := []; started := 0 |}.

(** Calling [this.doBuildIndex()] starts a rebuild and returns its promise. *)
Definition doBuildIndex (s : State) : nat * State :=
  (started s,
   {| indexingPromise := indexingPromise s;
      executing := started s :: executing s;
      settled := settled s;
      started := S (started s) |}).

(** [buildIndex()]: the promise the caller awaits, and the new state. *)
Definition buildIndex (s : State) : nat * State :=
  match indexingPromise s with
  | Some p => (p, s)
  | None =>
      let '(p, s') := doBuildIndex s in
      (p, {| indexingPromise := Some p; executing := executing s';
             settled := settled s'; started := started s' |})
  end.

(** [refresh()], on the synchronous world and the asynchronous state. *)
Definition refresh (ws : World * State) : World * State :=
  match (clearHashCache;;; updateInstalledSkillHashes;;; fire) (fst ws) with
  | (Normal _, w') => (w', snd (buildIndex (snd ws)))
  | (Throw, w') => (w', snd ws)
  end.

(** The rebuild [p] settles: its promise is fulfilled or rejected. *)
Definition settle (p : nat) (s : State) : State :=
  if decide (p ∈ executing s) then
    {| indexingPromise := indexingPromise s;
       executing := List.filter (λ q, negb (bool_decide (q = p))) (executing s);
       settled := p :: settled s;
       started := started s |}
  else s.

(** The callback given to [.finally] on the promise of rebuild [p] runs. *)
Definition finally (p : nat) (s : State) : State :=
  if decide (p ∈ settled s) then
    {| indexingPromise := None;
       executing := executing s;
       settled := List.filter (λ q, negb (bool_decide (q = p))) (settled s);
       started := started s |}
  else s.

(** What can happen between two stretches of provider code: a call of
    [refresh()], the settling of a rebuild, its [.finally] callback, or any
    other code changing the synchronous world (the rebuild's own writes to
    the index included). *)
Inductive Event :=
| Refresh
| Settle (p : nat)
| Finally (p : nat)
| Background (f : World → World).

Definition step (e : Event) (ws : World * State) : World * State :=
  match e with
  | Refresh => refresh ws
  | Settle p => (fst ws, settle p (snd ws))
  | Finally p => (fst ws, finally p (snd ws))
  | Background f => (f (fst ws), snd ws)
  end.

Definition run (events : list Event) (ws : World * State) : World * State :=
  fold_left (λ ws e, step e ws) events ws.

End Indexing.

(** ** JavaScript numbers, for [Math.min] and [new Array]

    The bound of [mapWithConcurrency] is a JavaScript number.  [Math.min]
    with an array length and [new Array] tell numbers apart only as far as
    this: an integer; a finite number that is not an integer, given by the
    integer just below it; an infinity; [NaN]. *)
Inductive JsNumber :=
| Integer (z : Z)
| Fraction (floor : Z)     (* a number strictly between [floor] and [floor + 1] *)
| PlusInfinity
| MinusInfinity
| NaN.

(** [Math.min(x, n)] for an array length [n]. *)
Definition Math_min (x : JsNumber) (n : nat) : JsNumber :=
  match x with
  | Integer z => Integer (Z.min z (Z.of_nat n))
  | Fraction floor =>
      if (floor <? Z.of_nat n)%Z then Fraction floor else Integer (Z.of_nat n)
  | PlusInfinity => Integer (Z.of_nat n)
  | MinusInfinity => MinusInfinity
  | NaN => NaN
  end.

(** [new Array(len)]: the length of the new array; [None] is the RangeError
    thrown when [len] is not a non-negative integer.  (The upper limit
    [2^32 - 1] is the limit of every array length, and is not exceeded by
    [Math.min(_, items.length)].) *)
Definition new_Array (len : JsNumber) : option nat :=
  match len with
  | Integer z => if (z <? 0)%Z then None else Some (Z.to_nat z)
  | _ => None
  end.

(** ** skillsProvider.ts: [mapWithConcurrency]

    Each worker is an async function: it runs from the head of its loop to
    the [await], and is resumed when the promise of its [mapper] call is
    fulfilled.  The order in which those promises are fulfilled is the
    schedule, chosen by the environment.  [mapper] is given by the value its
    promise is fulfilled with.  [results] is the array created by
    [new Array(items.length)]: [None] is a hole. *)
Module Pool.
Section Pool.
Context {T R : Type}.

Inductive Worker :=
| Awaiting (current : nat)
| Returned.

Record State := {
  results : list (option R);
  nextIndex : nat;
  workers : list Worker;
}.

Definition initial (items : list T) : State :=
  {| results := replicate (length items) None; nextIndex := 0; workers := [] |}.

(** A worker at the head of its loop: [const current = nextIndex++], then
    either [return] or the call of [mapper(items[current])] and the [await]. *)
Definition enter (items : list T) (s : State) : Worker * State :=
  let current := nextIndex s in
  let s' := {| results := results s; nextIndex := S (nextIndex s);
               workers := workers s |} in
  if decide (length items ≤ current)%nat then (Returned, s')
  else (Awaiting current, s').

(** [new Array(k).fill(0).map(() => worker())] *)
Fixpoint spawn (k : nat) (items : list T) (s : State) : State :=
  match k with
  | 0 => s
  | S k' =>
      let '(wk, s') := enter items s in
      spawn k' items
        {| results := results s'; nextIndex := nextIndex s';
           workers := workers s' ++ [wk] |}
  end.

(** Worker [i] is resumed with the value of its [mapper] call:
    [results[current] = ...], then back to the head of the loop.  [None]
    when worker [i] is not waiting. *)
Definition resume (items : list T) (mapper : T → R) (i : nat) (s : State)
  : option State :=
  match workers s !! i with
  | Some (Awaiting current) =>
      let s1 := {| results := <[current := mapper <$> items !! current]> (results s);
                   nextIndex := nextIndex s; workers := workers s |} in
      let '(wk, s2) := enter items s1 in
      Some {| results := results s2; nextIndex := nextIndex s2;
              workers := <[i := wk]> (workers s2) |}
  | _ => None
  end.

(** A schedule names, event after event, the worker whose promise is
    fulfilled next; an entry naming a worker that is not waiting is no event. *)
Fixpoint run (items : list T) (mapper : T → R) (schedule : list nat) (s : State)
  : State :=
  match schedule with
  | [] => s
  | i :: schedule' =>
      match resume items mapper i s with
      | Some s' => run items mapper schedule' s'
      | None => run items mapper schedule' s
      end
  end.

Definition is_returned (wk : Worker) : bool :=
  match wk with Returned => true | Awaiting _ => false end.

Inductive Outcome :=
| RangeError                              (* [new Array(len)] throws *)
| Pending (s : State)                     (* [Promise.all] not yet settled *)
| Fulfilled (results : list (option R)).  (* [return results] *)

Definition mapWithConcurrency (items : list T) (concurrency : JsNumber)
    (mapper : T → R) (schedule : list nat) : Outcome :=
  match new_Array (Math_min concurrency (length items)) with
  | None => RangeError
  | Some n =>
      let s := run items mapper schedule (spawn n items (initial items)) in
      if forallb is_returned (workers s) then Fulfilled (results s)
      else Pending s
  end.

End Pool.
End Pool.


(** ** Notions used in the statements *)

(** The cached digest that a lookup at modification time [m] may reuse. *)
Definition cache_hit (w : World) (dirPath : string) (m : Z) : option string :=
  match hashCache w !! dirPath with
  | Some e => if decide (CacheEntry.mtime e = m) then Some (CacheEntry.hash e) else None
  | None => None
  end.

(** The fingerprint of a skill directory in a given world. *)
Definition fingerprint (dirPath : string) (w : World) : string :=
  match fst (getCachedSkillHash dirPath w) with
  | Normal h => h
  | Throw => ""
  end.

(** The installed-hash table holds a non-empty fingerprint [h] under the
    skill's name. *)
Definition has_entry (skill : Skill.t) (w : World) (h : string) : Prop :=
  installedSkillHashes w !! Skill.name skill = Some h ∧ h ≠ "".

(** The skill has a local clone at [localPath], and it exists. *)
Definition has_clone (skill : Skill.t) (w : World) (localPath : string) : Prop :=
  Skill.localPath skill = Some localPath ∧ localPath ≠ ""
  ∧ fs_exists (host w) localPath = true.

(** The entry [e] of directory [dir] is a skill the provider's scans count:
    a directory whose name does not start with a dot and that holds the
    marker file. *)
Definition counted_skill (pf : Platform) (dir : string) (e : Dirent.t) : bool :=
  Dirent.isDirectory e
  && negb (startsWith (Dirent.name e) ".")
  && fs_exists pf (join (join dir (Dirent.name e)) "SKILL.md").

(** The skill [s] is in the per-repository index. *)
Definition indexed (w : World) (s : Skill.t) : Prop :=
  ∃ url skills, (url, skills) ∈ repoSkillsIndex w ∧ s ∈ skills.

(** The data-model invariant of remote skills: a remote skill is identified
    by its repository and its name, so no two different indexed skills have
    the same identifier. *)
Definition identifiers_unique (w : World) : Prop :=
  ∀ s1 s2, indexed w s1 → indexed w s2 →
           getSkillKey s1 = getSkillKey s2 → s1 = s2.

(** What a bulk selection may add: the identifiers of the visited skills
    whose stored status is not Conflict. *)
Definition added_by (w : World) (visited : list Skill.t) (w' : World) : Prop :=
  ∀ k, k ∈ checkedSkills w' →
       k ∈ checkedSkills w
       ∨ ∃ x, x ∈ visited ∧ getSkillKey x = k
              ∧ Skill.matchStatus x ≠ Some Conflict.

(** The group built for a candidate directory, given the active path. *)
Definition group_of (pf : Platform) (active : string) (dir : SkillDirectory.t)
  : LocalSkillsGroup.t :=
  LocalSkillsGroup.mk
    (SkillDirectory.displayName dir) (SkillDirectory.path dir)
    (SkillDirectory.icon dir)
    (fs_exists pf (SkillDirectory.path dir))
    (bool_decide (SkillDirectory.path dir = active)).

(** The directory can be listed and holds a counted skill. *)
Definition has_counted_skill (pf : Platform) (dir : string) : bool :=
  match fs_readdir pf dir with
  | Some entries => existsb (counted_skill pf dir) entries
  | None => false
  end.

Definition surfaced (pf : Platform) (g : LocalSkillsGroup.t) : bool :=
  LocalSkillsGroup.isActive g
  || LocalSkillsGroup.exists_ g
     && has_counted_skill pf (LocalSkillsGroup.path g).

(** [m] returns [v] from every world on platform [pf], and leaves the
    platform as it is. *)
Definition returns {A} (pf : Platform) (m : M A) (v : A) : Prop :=
  ∀ w, host w = pf → ∃ w', m w = (Normal v, w') ∧ host w' = pf.

(** The characters [+] and [/] do not occur in [s]. *)
Definition clean_char (c : ascii) : bool :=
  negb (Ascii.eqb c "+") && negb (Ascii.eqb c "/").

Fixpoint no_plus_slash (s : string) : bool :=
  match s with
  | "" => true
  | String c s' => clean_char c && no_plus_slash s'
  end.

(** The bytes of a base64 group, read back from its sextets. *)
Definition dec_a (s0 s1 : N) : N := N.lor (N.shiftl s0 2) (N.shiftr s1 4).
Definition dec_b (s1 s2 : N) : N := N.lor (N.shiftl (N.land s1 15) 4) (N.shiftr s2 2).
Definition dec_c (s2 s3 : N) : N := N.lor (N.shiftl (N.land s2 3) 6) s3.

Definition below (k : nat) : list N := map N.of_nat (seq 0 k).

(** Every character of [s] is in [a-zA-Z0-9]. *)
Fixpoint all_alnum (s : string) : bool :=
  match s with
  | "" => true
  | String c s' => is_alnum c && all_alnum s'
  end.

(** The states of the single-flight guard, [n] calls of [doBuildIndex()]
    having been made: no rebuild and the slot [indexingPromise] empty; the
    rebuild [p] executing and in the slot; the rebuild [p] settled, its
    [.finally] callback not yet run, and still in the slot. *)
Definition idle (n : nat) : Indexing.State :=
  {| Indexing.indexingPromise := None; Indexing.executing := [];
     Indexing.settled := []; Indexing.started := n |}.

Definition rebuilding (p n : nat) : Indexing.State :=
  {| Indexing.indexingPromise := Some p; Indexing.executing := [p];
     Indexing.settled := []; Indexing.started := n |}.

Definition finished (p n : nat) : Indexing.State :=
  {| Indexing.indexingPromise := Some p; Indexing.executing := [];
     Indexing.settled := [p]; Indexing.started := n |}.

(** The invariant of the single-flight guard: the state is one of the three,
    and the rebuild in the slot is one that was started. *)
Definition single_flight (s : Indexing.State) : Prop :=
  ∃ n, s = idle n
       ∨ ∃ p, (p < n)%nat ∧ (s = rebuilding p n ∨ s = finished p n).

(** ** Notions about the worker pool *)



(** Every byte of [s] is an ASCII character. *)
Fixpoint ascii_only (s : string) : bool :=
  match s with
  | "" => true
  | String c s' => (N_of_ascii c <? 128)%N && ascii_only s'
  end.

Section PoolNotions.
Context {T R : Type}.





End PoolNotions.

(** Unfolds the monad and the file-system calls. *)
Ltac unfold_m :=
  unfold bind, ret, try_catch, get, modify, existsSync, statSync_mtimeMs,
    readFileSync, readdirSync, digest, of_option in *.



(** ** Concrete worlds for the examples *)

(** A stand-in for the digest on the example platforms: any function of the
    content will do, the properties below never look inside [md5hex]. *)
Definition example_digest (content : string) : string := "md5:" +:+ content.

Definition lookup_path {A} (table : list (string * A)) (p : string) : option A :=
  snd <$> List.find (λ kv, bool_decide (fst kv = p)) table.

(** A workspace [/ws] opened in VS Code.  The active skills directory holds
    the skills [pdf] and [csv], [broken] (a skill whose marker cannot be
    read), [.hidden] (a skill in a dot directory) and a plain file.  The git
    cache holds a clone with the skills [pdf], [csv] (another version), [img]
    and a second directory whose marker also declares the name [pdf]. *)
Definition example_files : list (string * option string) :=
  [ ("/ws", None);
    ("/ws/.github/skills", None);
    ("/ws/.github/skills/pdf", None);
    ("/ws/.github/skills/pdf/SKILL.md", Some "pdf v1");
    ("/ws/.github/skills/csv", None);
    ("/ws/.github/skills/csv/SKILL.md", Some "csv v1");
    ("/ws/.github/skills/broken", None);
    ("/ws/.github/skills/broken/SKILL.md", None);
    ("/ws/.github/skills/.hidden", None);
    ("/ws/.github/skills/.hidden/SKILL.md", Some "hidden");
    ("/ws/.github/skills/notes.txt", Some "notes");
    ("/ws/.cursor/skills", None);
    ("/ws/.cursor/skills/.curated", None);
    ("/ws/.cursor/skills/.curated/SKILL.md", Some "curated");
    ("/ws/.trae/skills", None);
    ("/ws/.trae/skills/lint", None);
    ("/ws/.trae/skills/lint/SKILL.md", Some "lint");
    ("/cache/repo/pdf", None);
    ("/cache/repo/pdf/SKILL.md", Some "pdf v1");
    ("/cache/repo/csv", None);
    ("/cache/repo/csv/SKILL.md", Some "csv v2");
    ("/cache/repo/img", None);
    ("/cache/repo/img/SKILL.md", Some "img v1");
    ("/cache/repo/copy/pdf", None);
    ("/cache/repo/copy/pdf/SKILL.md", Some "pdf v2") ].

Definition example_dirs : list (string * list Dirent.t) :=
  [ ("/ws/.github/skills",
     [ Dirent.mk "pdf" true; Dirent.mk "csv" true; Dirent.mk "broken" true;
       Dirent.mk ".hidden" true; Dirent.mk "notes.txt" false ]);
    ("/ws/.cursor/skills", [ Dirent.mk ".curated" true ]);
    ("/ws/.trae/skills", [ Dirent.mk "lint" true ]) ].

Definition example_platform : Platform :=
  {| fs_exists := λ p, bool_decide (is_Some (lookup_path example_files p));
     fs_mtimeMs := λ p, if lookup_path example_files p is Some _ then Some 1000%Z else None;
     fs_read := λ p, mjoin (lookup_path example_files p);
     fs_readdir := lookup_path example_dirs;
     md5hex := example_digest;
     homedir := "/home/u";
     tmpdir := "/tmp";
     env := Env.mk None None None None;
     appName := "Visual Studio Code";
     workspaceRoot := Some "/ws" |}.

Definition example_world : World :=
  {| host := example_platform;
     hashCache := ∅;
     fsLog := [];
     checkedSkills := ∅;
     skillCache := ∅;
     installedSkillHashes := ∅;
     repoSkillsIndex := [];
     searchQuery := "";
     fired := 0 |}.

(** The example world after the installed skills have been fingerprinted. *)
Definition example_installed : World :=
  snd (updateInstalledSkillHashes example_world).

Definition example_repo : SkillRepo.t :=
  SkillRepo.mk "https://example.org/r.git" "example/r" None None.

Definition example_skill (name path localPath : string)
    (status : option SkillMatchStatus) : Skill.t :=
  Skill.mk name "" path "https://example.org/r.git" (Some localPath)
           (option_map (λ st, bool_decide (st = Matched)) status) status.

Definition example_pdf : Skill.t :=
  example_skill "pdf" "pdf" "/cache/repo/pdf" (Some Matched).
Definition example_csv : Skill.t :=
  example_skill "csv" "csv" "/cache/repo/csv" (Some Conflict).
Definition example_img : Skill.t :=
  example_skill "img" "img" "/cache/repo/img" (Some NotInstalled).
(** A second skill directory of the same repository whose marker declares
    the name [pdf] as well. *)
Definition example_pdf_copy : Skill.t :=
  example_skill "pdf" "copy/pdf" "/cache/repo/copy/pdf" (Some Conflict).
(** The skill [pdf] of a clone that is no longer on the disk. *)
Definition example_pdf_gone : Skill.t :=
  example_skill "pdf" "pdf" "/cache/gone/pdf" None.
Definition example_broken : Skill.t :=
  example_skill "broken" "broken" "/cache/repo/pdf" None.

Definition with_repoSkillsIndex (index : list (string * list Skill.t))
    (w : World) : World :=
  {| host := host w; hashCache := hashCache w; fsLog := fsLog w;
     checkedSkills := checkedSkills w; skillCache := skillCache w;
     installedSkillHashes := installedSkillHashes w;
     repoSkillsIndex := index; searchQuery := searchQuery w;
     fired := fired w |}.

(** An index in which identifiers are unique. *)
Definition example_indexed : World :=
  with_repoSkillsIndex
    [ ("https://example.org/r.git", [example_pdf; example_csv; example_img]) ]
    example_installed.

(** An index in which two skills of one repository declare the same name. *)
Definition example_shared_name : World :=
  with_repoSkillsIndex
    [ ("https://example.org/r.git", [example_pdf; example_pdf_copy]) ]
    example_installed.

(** ** Further code of the repository

    The remaining synchronous functions of utils/skillCompare.ts and of the
    provider, embedded as above. *)

(** utils/skillCompare.ts: [compareSkillDirectories].  The second
    [existsSync] is only evaluated when the first directory exists. *)
Definition compareSkillDirectories (dir1 dir2 : string) : M bool :=
  do present1 <- existsSync dir1;
  do missing <- (if negb present1 then ret true
                 else do present2 <- existsSync dir2; ret (negb present2));
  if missing then ret false
  else
    do hash1 <- computeSkillHash dir1;
    do hash2 <- computeSkillHash dir2;
    ret (bool_decide (hash1 = hash2)).

(** The digest of the marker file of [dirPath] as the disk has it: the empty
    string when there is no marker file, or when it cannot be examined or
    read. *)
Definition disk_fingerprint (pf : Platform) (dirPath : string) : string :=
  let p := join dirPath "SKILL.md" in
  if fs_exists pf p then
    match fs_mtimeMs pf p, fs_read pf p with
    | Some _, Some content => md5hex pf content
    | _, _ => ""
    end
  else "".

(** Every cache entry that a lookup on platform [pf] would reuse holds the
    digest the disk has. *)
Definition cache_coherent (pf : Platform) (cache : gmap string CacheEntry.t)
  : Prop :=
  ∀ d e, cache !! d = Some e →
         fs_exists pf (join d "SKILL.md") = true →
         fs_mtimeMs pf (join d "SKILL.md") = Some (CacheEntry.mtime e) →
         CacheEntry.hash e = disk_fingerprint pf d.

(** The directory the skills of the workspace are installed into: the value
    of [getInstalledSkillsDir()] on platform [pf]. *)
Definition active_dir (pf : Platform) : option string :=
  match workspaceRoot pf with
  | Some r =>
      if is_empty r then None
      else Some (getProjectSkillsDir r (detectIde (env pf) (Some (appName pf))))
  | None => None
  end.

(** What the disk holds under the name [name] in the active skills
    directory: the digest of the marker file of the counted skill of that
    name, if the directory can be listed and has one. *)
Definition installed_on_disk (pf : Platform) (name : string) : option string :=
  match active_dir pf with
  | Some dir =>
      if fs_exists pf dir then
        match fs_readdir pf dir with
        | Some entries =>
            if existsb (λ e, bool_decide (Dirent.name e = name)
                             && counted_skill pf dir e) entries
            then Some (disk_fingerprint pf (join dir name))
            else None
        | None => None
        end
      else None
  | None => None
  end.

(** The match status decided by an entry of the installed table and by the
    disk. *)
Definition status_of (entry : option string) (pf : Platform) (skill : Skill.t)
  : SkillMatchStatus :=
  match entry, Skill.localPath skill with
  | Some h, Some lp =>
      if is_empty h || is_empty lp || negb (fs_exists pf lp) then NotInstalled
      else if decide (h = disk_fingerprint pf lp) then Matched else Conflict
  | _, _ => NotInstalled
  end.

(** The match status of a skill as the disk has it. *)
Definition disk_status (pf : Platform) (skill : Skill.t) : SkillMatchStatus :=
  status_of (installed_on_disk pf (Skill.name skill)) pf skill.

(** A world that differs from [w] in the call log, the hash cache, the
    installed table and the skill records only. *)
Definition touched (l : list FsCall) (c : gmap string CacheEntry.t)
    (t : gmap string string) (k : gmap string Skill.t) (w : World) : World :=
  with_fsLog l (with_hashCache c (with_installedSkillHashes t (with_skillCache k w))).

(** ** skillsProvider.ts: the remaining synchronous methods *)

Definition isSkillInstalled (skillName : string) : M bool :=
  do dir <- getInstalledSkillsDir;
  match dir with
  | Some dir =>
      if is_empty dir then ret false
      else existsSync (join (join dir skillName) "SKILL.md")
  | None => ret false
  end.

(** [getCheckedSkills] visits the keys of [checkedSkills]; the world keeps
    them as a finite set, so the skills are returned in the order of the
    set's enumeration and not in the order in which they were checked. *)
Definition getCheckedSkills : M (list Skill.t) :=
  do checked <- get checkedSkills;
  do cache <- get skillCache;
  ret (omap (λ key, cache !! key) (elements checked)).

Definition clearSelection : M unit :=
  modify (with_checkedSkills ∅);;;
  fire.

Definition clearCheckedSkillsInRepo (repo : SkillRepo.t) : M unit :=
  do index <- get repoSkillsIndex;
  let skills := default [] (index_get (SkillRepo.url repo) index) in
  forEach skills (λ skill,
    let key := getSkillKey skill in
    modify (λ w, with_checkedSkills (checkedSkills w ∖ {[key]}) w));;;
  fire.

Definition uncheckAllSkills : M unit :=
  modify (with_checkedSkills ∅);;;
  fire.

(** The object [s] after [s.matchStatus = st] and
    [s.installed = s.matchStatus === SkillMatchStatus.Matched]. *)
Definition with_matchStatus (st : SkillMatchStatus) (s : Skill.t) : Skill.t :=
  Skill.mk (Skill.name s) (Skill.description s) (Skill.path s)
           (Skill.repoUrl s) (Skill.localPath s)
           (Some (bool_decide (st = Matched))) (Some st).

(** [normalizeRepoSkills] writes the two fields into the objects of the
    array it is given and returns that array: here it returns the updated
    records. *)
Definition normalizeRepoSkills (skills : list Skill.t) : M (list Skill.t) :=
  mapM (λ s,
          do status <- getSkillMatchStatus s;
          let s := with_matchStatus status s in
          modify (λ w, with_skillCache (<[getSkillKey s := s]> (skillCache w)) w);;;
          ret s)
       skills.

(** [recomputeRepoSkillStates] writes into the objects held by the index.
    Nothing in the loop reads the index and [getSkillMatchStatus] never
    throws, so the updated index is stored once, after the loop. *)
Definition recomputeRepoSkillStates : M unit :=
  do index <- get repoSkillsIndex;
  do index' <-
    mapM (λ kv,
            do skills <-
              mapM (λ s,
                      do status <- getSkillMatchStatus s;
                      let s := with_matchStatus status s in
                      modify (λ w, with_skillCache
                                     (<[getSkillKey s := s]> (skillCache w)) w);;;
                      ret s)
                   (snd kv);
            ret (fst kv, skills))
         index;
  modify (with_repoSkillsIndex index').

(** The body of the loops of [normalizeRepoSkills] and
    [recomputeRepoSkillStates]. *)
Definition annotate (s : Skill.t) : M Skill.t :=
  do status <- getSkillMatchStatus s;
  let s := with_matchStatus status s in
  modify (λ w, with_skillCache (<[getSkillKey s := s]> (skillCache w)) w);;;
  ret s.

(** The index after every skill has been given the status the disk shows. *)
Definition index_on_disk (pf : Platform) (index : list (string * list Skill.t))
  : list (string * list Skill.t) :=
  map (λ kv, (fst kv,
              map (λ s, with_matchStatus (disk_status pf s) s) (snd kv)))
      index.

(** ** The selection under the provider's methods *)

(** [Map.prototype.set] on the insertion-ordered index: an existing key
    keeps its place. *)
Fixpoint index_set (url : string) (skills : list Skill.t)
    (index : list (string * list Skill.t)) : list (string * list Skill.t) :=
  match index with
  | [] => [(url, skills)]
  | kv :: index' =>
      if decide (fst kv = url) then (url, skills) :: index'
      else kv :: index_set url skills index'
  end.

Definition with_host (pf : Platform) (w : World) : World :=
  {| host := pf; hashCache := hashCache w; fsLog := fsLog w;
     checkedSkills := checkedSkills w; skillCache := skillCache w;
     installedSkillHashes := installedSkillHashes w;
     repoSkillsIndex := repoSkillsIndex w; searchQuery := searchQuery w;
     fired := fired w |}.

Definition with_searchQuery (q : string) (w : World) : World :=
  {| host := host w; hashCache := hashCache w; fsLog := fsLog w;
     checkedSkills := checkedSkills w; skillCache := skillCache w;
     installedSkillHashes := installedSkillHashes w;
     repoSkillsIndex := repoSkillsIndex w; searchQuery := q;
     fired := fired w |}.

(** What happens to a provider between two stretches of its code: one of
    its synchronous methods is called; the rebuild stores the skills found
    in a repository
    ([this.repoSkillsIndex.set(url, this.normalizeRepoSkills(skills))]);
    the search query is replaced; or the disk and the environment change. *)
Inductive Call :=
| CallSetChecked (skill : Skill.t) (checked : bool)
| CallClearSelection
| CallCheckAllMatchingRepoSkills
| CallCheckAllSkillsInRepo (repo : SkillRepo.t)
| CallClearCheckedSkillsInRepo (repo : SkillRepo.t)
| CallUncheckAllSkills
| CallUpdateInstalledSkillHashes
| CallClearHashCache
| CallRecomputeRepoSkillStates
| StoreRepoSkills (url : string) (skills : list Skill.t)
| SearchQueryChanged (query : string)
| PlatformChanged (pf : Platform).

Definition exec (c : Call) : M unit :=
  match c with
  | CallSetChecked skill checked => setChecked skill checked
  | CallClearSelection => clearSelection
  | CallCheckAllMatchingRepoSkills => checkAllMatchingRepoSkills
  | CallCheckAllSkillsInRepo repo => checkAllSkillsInRepo repo
  | CallClearCheckedSkillsInRepo repo => clearCheckedSkillsInRepo repo
  | CallUncheckAllSkills => uncheckAllSkills
  | CallUpdateInstalledSkillHashes => updateInstalledSkillHashes
  | CallClearHashCache => clearHashCache
  | CallRecomputeRepoSkillStates => recomputeRepoSkillStates
  | StoreRepoSkills url skills =>
      do normalized <- normalizeRepoSkills skills;
      modify (λ w, with_repoSkillsIndex
                     (index_set url normalized (repoSkillsIndex w)) w)
  | SearchQueryChanged query => modify (with_searchQuery query)
  | PlatformChanged pf => modify (with_host pf)
  end.

(** The state of a provider as its constructor leaves it, on platform
    [pf]. *)
Definition new_provider (pf : Platform) : World :=
  {| host := pf; hashCache := ∅; fsLog := []; checkedSkills := ∅;
     skillCache := ∅; installedSkillHashes := ∅; repoSkillsIndex := [];
     searchQuery := ""; fired := 0 |}.

(** Every checked identifier has a skill record, and every record is stored
    under its own identifier. *)
Definition selection_ok (checked : gset string) (cache : gmap string Skill.t)
  : Prop :=
  (∀ k, k ∈ checked → is_Some (cache !! k))
  ∧ (∀ k s, cache !! k = Some s → getSkillKey s = k).

(** ** configManager.ts, continued *)

Fixpoint drop_chars (n : nat) (s : string) : string :=
  match n, s with
  | 0, _ => s
  | S n', String _ s' => drop_chars n' s'
  | S _, "" => ""
  end.

(** [s.replace(p, '')] with a string pattern [p]: the first occurrence of
    [p] is removed. *)
Fixpoint remove_first (p s : string) : string :=
  if String.prefix p s then drop_chars (String.length p) s
  else match s with
       | "" => ""
       | String c s' => String c (remove_first p s')
       end.

(** [s.split(sep)] with a one-character separator. *)
Fixpoint split (sep : ascii) (s : string) : list string :=
  match s with
  | "" => [""]
  | String c s' =>
      if Ascii.eqb c sep then "" :: split sep s'
      else match split sep s' with
           | segment :: rest => String c segment :: rest
           | [] => [String c ""]
           end
  end.

(** [l.pop()]: the last element ([undefined] when there is none) and the
    array it leaves. *)
Definition pop (l : list string) : option string * list string :=
  (last l, removelast l).

(** [l.findIndex(p)]; [None] is [-1]. *)
Fixpoint findIndex {A} (p : A → bool) (l : list A) : option nat :=
  match l with
  | [] => None
  | x :: l' => if p x then Some 0 else S <$> findIndex p l'
  end.

(** [addRepo] returns the setting it leaves: the setting is not written
    when the URL is already configured. *)
Definition addRepo (url : string) (config : Config) : Config :=
  let repos := getRepos config in
  if existsb (λ r, bool_decide (SkillRepo.url r = url)) repos then config
  else
    (* Extract "owner/repo" format for better identification *)
    let urlParts := split "/" (remove_first ".git" url) in
    let '(popped, urlParts) := pop urlParts in
    let repo := or_else popped "" in
    let '(popped, urlParts) := pop urlParts in
    let owner := or_else popped "" in
    let name :=
      if negb (is_empty owner) && negb (is_empty repo)
      then owner +:+ "/" +:+ repo
      else if negb (is_empty repo) then repo else url in
    Some (repos ++ [SkillRepo.mk url name None None]).

(** A [Partial<SkillRepo>]: [None] is a key that is not given.  For the
    optional fields a key can be given with the value [undefined]. *)
Module RepoUpdates.
Record t := mk {
  url : option string;
  name : option string;
  branch : option (option string);
  isPreset : option (option bool);
}.
End RepoUpdates.

(** [{ ...repo, ...updates }] *)
Definition spread (repo : SkillRepo.t) (updates : RepoUpdates.t) : SkillRepo.t :=
  SkillRepo.mk
    (default (SkillRepo.url repo) (RepoUpdates.url updates))
    (default (SkillRepo.name repo) (RepoUpdates.name updates))
    (default (SkillRepo.branch repo) (RepoUpdates.branch updates))
    (default (SkillRepo.isPreset repo) (RepoUpdates.isPreset updates)).

Definition updateRepo (url : string) (updates : RepoUpdates.t) (config : Config)
  : Config :=
  let repos := getRepos config in
  match findIndex (λ r, bool_decide (SkillRepo.url r = url)) repos with
  | Some index =>
      match repos !! index with
      | Some repo => Some (<[index := spread repo updates]> repos)
      | None => Some repos
      end
  | None => config
  end.

(** ** The worker pool, continued *)


(** The digest [computeSkillHash] returns for a directory on platform [pf]:
    the empty string without a marker file, nothing when the marker file
    cannot be read. *)
Definition marker_digest (pf : Platform) (dirPath : string) : option string :=
  let p := join dirPath "SKILL.md" in
  if fs_exists pf p then md5hex pf <$> fs_read pf p else Some "".

(** ** skillsProvider.ts: the order of the tree *)

(** The memento the two order lists are saved in; a key that was never
    written is [None]. *)
Module Memento.
Record t := mk {
  repoOrder : option (list string);
  localGroupOrder : option (list string);
}.
End Memento.

(** The fields [repoOrder] and [localGroupOrder] of the provider, and the
    memento it was constructed with, if any. *)
Record Orders := {
  repoOrder : list string;
  localGroupOrder : list string;
  memento : option Memento.t;
}.

(** The part of the constructor that reads the memento. *)
Definition new_orders (memento : option Memento.t) : Orders :=
  {| repoOrder := default [] (memento ≫= Memento.repoOrder);
     localGroupOrder := default [] (memento ≫= Memento.localGroupOrder);
     memento := memento |}.

(** [this.repoOrder = l; void this.memento?.update('agentskills.repoOrder', l)] *)
Definition set_repoOrder (l : list string) (o : Orders) : Orders :=
  {| repoOrder := l;
     localGroupOrder := localGroupOrder o;
     memento := (λ m, Memento.mk (Some l) (Memento.localGroupOrder m))
                <$> memento o |}.

Definition set_localGroupOrder (l : list string) (o : Orders) : Orders :=
  {| repoOrder := repoOrder o;
     localGroupOrder := l;
     memento := (λ m, Memento.mk (Memento.repoOrder m) (Some l))
                <$> memento o |}.

(** The parameter type ['repo' | 'localGroup']. *)
Inductive Kind := KindRepo | KindLocalGroup.

(** The parameter type [SkillRepo | LocalSkillsGroup]. *)
Inductive RootNode :=
| RepoNode (repo : SkillRepo.t)
| GroupNode (group : LocalSkillsGroup.t).

(** The methods take the stored setting and the order lists as arguments
    and return the new order lists. *)
Definition reorderAfterDrop (config : Config) (kind : Kind)
    (draggedKey : string) (targetKey : option string) (o : Orders) : M Orders :=
  match kind with
  | KindLocalGroup =>
      do localGroups <- getLocalSkillsGroups;
      let groups :=
        map LocalSkillsGroup.path
            (List.filter (λ g, negb (LocalSkillsGroup.isActive g)) localGroups) in
      let order := ensureOrder (localGroupOrder o) groups in
      let order := reorderKey order draggedKey targetKey in
      fire;;;
      ret (set_localGroupOrder order o)
  | KindRepo =>
      let repos := map SkillRepo.url (getRepos config) in
      let order := ensureOrder (repoOrder o) repos in
      let order := reorderKey order draggedKey targetKey in
      fire;;;
      ret (set_repoOrder order o)
  end.

Definition moveNode (config : Config) (node : RootNode) (delta : Delta)
    (o : Orders) : M Orders :=
  match node with
  | GroupNode group =>
      if LocalSkillsGroup.isActive group then ret o
      else
        let key := LocalSkillsGroup.path group in
        do localGroups <- getLocalSkillsGroups;
        let groups := map LocalSkillsGroup.path localGroups in
        let order := ensureOrder (localGroupOrder o) groups in
        let order := moveKey order key delta in
        fire;;;
        ret (set_localGroupOrder order o)
  | RepoNode repo =>
      let key := SkillRepo.url repo in
      let repos := map SkillRepo.url (getRepos config) in
      let order := ensureOrder (repoOrder o) repos in
      let order := moveKey order key delta in
      fire;;;
      ret (set_repoOrder order o)
  end.

Definition moveUp (config : Config) (node : RootNode) : Orders → M Orders :=
  moveNode config node MinusOne.

Definition moveDown (config : Config) (node : RootNode) : Orders → M Orders :=
  moveNode config node PlusOne.

(** [new Map(l.map((k, i) => [k, i])).get(key)]: the last index at which
    [key] occurs. *)
Fixpoint lastIndexOf (key : string) (l : list string) : option nat :=
  match l with
  | [] => None
  | k :: l' =>
      match lastIndexOf key l' with
      | Some i => Some (S i)
      | None => if decide (k = key) then Some 0 else None
      end
  end.

Definition MAX_SAFE_INTEGER : Z := 9007199254740991.

(** [Array.prototype.sort] is stable; for a comparator that orders the
    elements consistently its result is the one of any stable sort, here
    insertion from the right. *)
Fixpoint sort_insert {A} (cmp : A → A → Z) (x : A) (l : list A) : list A :=
  match l with
  | [] => [x]
  | y :: l' =>
      if (cmp x y <=? 0)%Z then x :: y :: l' else y :: sort_insert cmp x l'
  end.

Fixpoint sort {A} (cmp : A → A → Z) (l : list A) : list A :=
  match l with
  | [] => []
  | x :: l' => sort_insert cmp x (sort cmp l')
  end.

Definition sortLocalGroups (localGroupOrder : list string)
    (groups : list LocalSkillsGroup.t) : list LocalSkillsGroup.t :=
  let orderIndex := λ k, lastIndexOf k localGroupOrder in
  let originalIndex := λ k, lastIndexOf k (map LocalSkillsGroup.path groups) in
  sort (λ a b,
          if negb (Bool.eqb (LocalSkillsGroup.isActive a) (LocalSkillsGroup.isActive b))
          then if LocalSkillsGroup.isActive a then (-1)%Z else 1%Z
          else
            let ai := orderIndex (LocalSkillsGroup.path a) in
            let bi := orderIndex (LocalSkillsGroup.path b) in
            if bool_decide (is_Some ai) || bool_decide (is_Some bi)
            then (default MAX_SAFE_INTEGER (Z.of_nat <$> ai)
                  - default MAX_SAFE_INTEGER (Z.of_nat <$> bi))%Z
            else (default 0%Z (Z.of_nat <$> originalIndex (LocalSkillsGroup.path a))
                  - default 0%Z (Z.of_nat <$> originalIndex (LocalSkillsGroup.path b)))%Z)
       groups.

Definition sortRepos (repoOrder : list string) (repos : list SkillRepo.t)
  : list SkillRepo.t :=
  let orderIndex := λ k, lastIndexOf k repoOrder in
  let originalIndex := λ k, lastIndexOf k (map SkillRepo.url repos) in
  sort (λ a b,
          let ai := orderIndex (SkillRepo.url a) in
          let bi := orderIndex (SkillRepo.url b) in
          if bool_decide (is_Some ai) || bool_decide (is_Some bi)
          then (default MAX_SAFE_INTEGER (Z.of_nat <$> ai)
                - default MAX_SAFE_INTEGER (Z.of_nat <$> bi))%Z
          else (default 0%Z (Z.of_nat <$> originalIndex (SkillRepo.url a))
                - default 0%Z (Z.of_nat <$> originalIndex (SkillRepo.url b)))%Z)
       repos.

(** The list is in non-decreasing order of [key]. *)
Fixpoint sorted_by {A} (key : A → Z) (l : list A) : Prop :=
  match l with
  | [] => True
  | x :: l' => (∀ y, y ∈ l' → (key x ≤ key y)%Z) ∧ sorted_by key l'
  end.

(** The place of a key in an order list, as the comparators read it. *)
Definition place (order : list string) (k : string) : Z :=
  default MAX_SAFE_INTEGER (Z.of_nat <$> lastIndexOf k order).

(** ** Further concrete values for the examples *)

(** Switching the preset repository [anthropics/skills] to a branch. *)
Definition example_updates : RepoUpdates.t :=
  RepoUpdates.mk None None (Some (Some "dev")) None.

(* ===================================================================== *)
(** * Part II: the properties                                             *)
(* ===================================================================== *)

(** ** The fingerprint cache *)

Lemma computeSkillHash_run dirPath w :
  let p := join dirPath "SKILL.md" in
  computeSkillHash dirPath w =
    if fs_exists (host w) p then
      match fs_read (host w) p with
      | Some content =>
          (Normal (md5hex (host w) content),
           logged (ReadFileSync p) (logged (ExistsSync p) w))
      | None => (Throw, logged (ReadFileSync p) (logged (ExistsSync p) w))
      end
    else (Normal "", logged (ExistsSync p) w).
Proof.
  intros p. unfold computeSkillHash, computeFileHash. fold p. unfold_m. simpl.
  destruct (fs_exists (host w) p); simpl; [|done].
  by destruct (fs_read (host w) p).
Qed.

(** One call of [getCachedSkillHash], statement by statement. *)
Lemma getCachedSkillHash_run dirPath w :
  let p := join dirPath "SKILL.md" in
  let w1 := logged (ExistsSync p) w in
  let w2 := logged (StatSync p) w1 in
  let w3 := logged (ReadFileSync p) (logged (ExistsSync p) w2) in
  getCachedSkillHash dirPath w =
    if fs_exists (host w) p then
      match fs_mtimeMs (host w) p with
      | None => (Normal "", w2)
      | Some m =>
          match cache_hit w dirPath m with
          | Some h => (Normal h, w2)
          | None =>
              match fs_read (host w) p with
              | Some content =>
                  (Normal (md5hex (host w) content),
                   with_hashCache
                     (<[dirPath := CacheEntry.mk (md5hex (host w) content) m]>
                        (hashCache w)) w3)
              | None => (Normal "", w3)
              end
          end
      end
    else (Normal "", w1).
Proof.
  intros p w1 w2 w3. unfold getCachedSkillHash. fold p.
  unfold bind at 1. unfold existsSync at 1. fold w1.
  destruct (fs_exists (host w) p) eqn:He; simpl; [|done].
  unfold try_catch, bind at 1, statSync_mtimeMs, of_option. simpl. fold w2.
  destruct (fs_mtimeMs (host w) p) as [m|]; [|done].
  unfold bind at 1, get at 1. simpl. unfold cache_hit.
  assert (Hmiss :
    (let (c, w') :=
       (do hash <- computeSkillHash dirPath;
        modify (λ w0, with_hashCache
                  (<[dirPath := CacheEntry.mk hash m]> (hashCache w0)) w0);;;
        ret hash) w2 in
     match c with Normal a => (Normal a, w') | Throw => (Normal "", w') end)
    = match fs_read (host w) p with
      | Some content =>
          (Normal (md5hex (host w) content),
           with_hashCache
             (<[dirPath := CacheEntry.mk (md5hex (host w) content) m]>
                (hashCache w)) w3)
      | None => (Normal "", w3)
      end).
  { unfold bind at 1. rewrite computeSkillHash_run. fold p. simpl. rewrite He.
    by destruct (fs_read (host w) p). }
  destruct (hashCache w !! dirPath) as [e|]; [case_decide|]; done.
Qed.

(** C2. For a directory whose marker file exists: when the cache holds an
    entry for the directory whose modification time is the file's current
    one, the lookup returns the cached digest, reads no file and leaves the
    cache as it is; when the cache holds no entry, or one with another
    modification time, the lookup computes the digest of the file's bytes,
    returns it, and stores it with the current modification time.  When the
    marker file does not exist the lookup returns the empty digest. *)
Theorem getCachedSkillHash_cases (dirPath : string) (w : World) :
  let p := join dirPath "SKILL.md" in
  (fs_exists (host w) p = false →
     getCachedSkillHash dirPath w = (Normal "", logged (ExistsSync p) w))
  ∧ (∀ m c,
       fs_exists (host w) p = true →
       fs_mtimeMs (host w) p = Some m →
       hashCache w !! dirPath = Some c →
       CacheEntry.mtime c = m →
       getCachedSkillHash dirPath w
       = (Normal (CacheEntry.hash c),
          logged (StatSync p) (logged (ExistsSync p) w)))
  ∧ (∀ m content,
       fs_exists (host w) p = true →
       fs_mtimeMs (host w) p = Some m →
       (∀ c, hashCache w !! dirPath = Some c → CacheEntry.mtime c ≠ m) →
       fs_read (host w) p = Some content →
       ∃ w',
         getCachedSkillHash dirPath w = (Normal (md5hex (host w) content), w')
         ∧ hashCache w'
           = <[dirPath := CacheEntry.mk (md5hex (host w) content) m]> (hashCache w)
         ∧ fsLog w'
           = fsLog w ++ [ExistsSync p; StatSync p; ExistsSync p; ReadFileSync p]).
Proof.
  intros p. rewrite getCachedSkillHash_run. fold p. repeat split.
  - by intros ->.
  - intros m c -> -> Hc Heq. unfold cache_hit. rewrite Hc. by rewrite decide_True.
  - intros m content -> -> Hc ->.
    assert (cache_hit w dirPath m = None) as ->.
    { unfold cache_hit. destruct (hashCache w !! dirPath) as [e|]; [|done].
      rewrite decide_False; [done|]. by apply Hc. }
    eexists. split; [reflexivity|]. simpl. split; [done|].
    by rewrite <- !app_assoc.
Qed.

(** Whatever the file system does, [getCachedSkillHash] returns; the value
    and the new cache depend on the platform and the cache only, and nothing
    but the cache and the call log changes. *)
Lemma getCachedSkillHash_frame dirPath w :
  ∃ h c, ∀ w0, host w0 = host w → hashCache w0 = hashCache w →
    ∃ l, getCachedSkillHash dirPath w0
         = (Normal h, with_fsLog l (with_hashCache c w0)).
Proof.
  set (p := join dirPath "SKILL.md").
  assert (Hsame : ∀ w0 l, with_fsLog l w0 = with_fsLog l (with_hashCache (hashCache w0) w0))
    by (by intros []).
  destruct (fs_exists (host w) p) eqn:He;
    [destruct (fs_mtimeMs (host w) p) as [m|] eqn:Hm;
     [destruct (cache_hit w dirPath m) as [h|] eqn:Hh;
      [|destruct (fs_read (host w) p) as [content|] eqn:Hr]|]|].
  all: eexists _, _; intros w0 Hhost Hcache;
    rewrite getCachedSkillHash_run; fold p;
    unfold cache_hit in *; rewrite Hhost, ?Hcache, He, ?Hm, ?Hh, ?Hr;
    eexists; unfold logged.
  all: rewrite (Hsame w0), Hcache; simpl; reflexivity.
Qed.

Lemma fingerprint_frame dirPath w w0 :
  host w0 = host w → hashCache w0 = hashCache w →
  ∃ l c, getCachedSkillHash dirPath w0
         = (Normal (fingerprint dirPath w), with_fsLog l (with_hashCache c w0)).
Proof.
  intros Hh Hc. destruct (getCachedSkillHash_frame dirPath w) as (h & c & Hf).
  destruct (Hf w eq_refl eq_refl) as (l & Hw).
  destruct (Hf w0 Hh Hc) as (l0 & Hw0).
  exists l0, c. unfold fingerprint. by rewrite Hw, Hw0.
Qed.

(** ** Loops *)

Lemma forEach_inv {A} (P : list A → World → Prop) (body : A → M unit) l :
  (∀ pre x w, P pre w →
     ∃ w', body x w = (Normal tt, w') ∧ P (pre ++ [x]) w') →
  ∀ pre w, P pre w →
    ∃ w', forEach l body w = (Normal tt, w') ∧ P (pre ++ l) w'.
Proof.
  intros Hstep. induction l as [|x l IH]; intros pre w HP; simpl.
  - exists w. by rewrite app_nil_r.
  - destruct (Hstep pre x w HP) as (w1 & Hb & HP1).
    destruct (IH (pre ++ [x]) w1 HP1) as (w2 & Hl & HP2).
    exists w2. unfold bind. rewrite Hb. split; [done|].
    by rewrite <- app_assoc in HP2.
Qed.

(** ** Match status *)

Lemma is_empty_true s : is_empty s = true ↔ s = "".
Proof. by destruct s. Qed.

Lemma is_empty_false s : is_empty s = false ↔ s ≠ "".
Proof. by destruct s. Qed.

(** One call of [getSkillMatchStatus]: it returns, touches nothing but the
    cache and the call log, and its result is decided by the table entry,
    the presence of the clone and the two fingerprints. *)
Lemma getSkillMatchStatus_run skill w :
  ∃ st l c,
    getSkillMatchStatus skill w = (Normal st, with_fsLog l (with_hashCache c w))
    ∧ st = match installedSkillHashes w !! Skill.name skill, Skill.localPath skill with
           | Some h, Some lp =>
               if is_empty h || is_empty lp || negb (fs_exists (host w) lp)
               then NotInstalled
               else if decide (h = fingerprint lp w) then Matched else Conflict
           | _, _ => NotInstalled
           end.
Proof.
  assert (Hid : ∀ w0 : World, w0 = with_fsLog (fsLog w0) (with_hashCache (hashCache w0) w0))
    by (by intros []).
  unfold getSkillMatchStatus, bind at 1, get at 1. simpl.
  destruct (installedSkillHashes w !! Skill.name skill) as [h|] eqn:Hh; simpl.
  2:{ exists NotInstalled, (fsLog w), (hashCache w). by rewrite <- Hid. }
  destruct (is_empty h) eqn:Heh; simpl.
  { exists NotInstalled, (fsLog w), (hashCache w). rewrite <- Hid.
    by destruct (Skill.localPath skill). }
  destruct (Skill.localPath skill) as [lp|] eqn:Hlp.
  2:{ exists NotInstalled, (fsLog w), (hashCache w). by rewrite <- Hid. }
  destruct (is_empty lp) eqn:Hel; simpl.
  { exists NotInstalled, (fsLog w), (hashCache w). by rewrite <- Hid. }
  unfold bind at 1, existsSync at 1. simpl.
  destruct (fs_exists (host w) lp) eqn:Hex; simpl.
  2:{ exists NotInstalled, (fsLog w ++ [ExistsSync lp]), (hashCache w).
      unfold ret. split; [reflexivity|done]. }
  destruct (fingerprint_frame lp w (logged (ExistsSync lp) w) eq_refl eq_refl)
    as (l & c & Hrun).
  unfold bind, ret. rewrite Hrun.
  eexists _, l, c. split; [reflexivity|].
  destruct (decide (h = fingerprint lp w)) as [->|Hne].
  - by rewrite decide_True.
  - rewrite decide_False; [done|]. congruence.
Qed.

(** C1 (amended). The match status of a remote skill is NotInstalled if and
    only if the installed-hash table holds no non-empty fingerprint under the
    skill's name or the skill has no existing local clone; Matched if and only
    if such an entry and clone exist and the entry equals the fingerprint of
    the clone; Conflict if and only if they exist and the two differ. *)
Theorem getSkillMatchStatus_iff (skill : Skill.t) (w : World) :
  ∃ st w',
    getSkillMatchStatus skill w = (Normal st, w')
    ∧ (st = NotInstalled
       ↔ ¬ ∃ h lp, has_entry skill w h ∧ has_clone skill w lp)
    ∧ (st = Matched
       ↔ ∃ h lp, has_entry skill w h ∧ has_clone skill w lp
                 ∧ fingerprint lp w = h)
    ∧ (st = Conflict
       ↔ ∃ h lp, has_entry skill w h ∧ has_clone skill w lp
                 ∧ fingerprint lp w ≠ h).
Proof.
  destruct (getSkillMatchStatus_run skill w) as (st & l & c & Hrun & Hst).
  exists st, (with_fsLog l (with_hashCache c w)). split; [done|].
  unfold has_entry, has_clone.
  assert (Hdegenerate :
    (¬ ∃ h lp, (installedSkillHashes w !! Skill.name skill = Some h ∧ h ≠ "")
               ∧ Skill.localPath skill = Some lp ∧ lp ≠ ""
               ∧ fs_exists (host w) lp = true) →
    st = NotInstalled →
    (st = NotInstalled
     ↔ ¬ ∃ h lp, (installedSkillHashes w !! Skill.name skill = Some h ∧ h ≠ "")
                 ∧ Skill.localPath skill = Some lp ∧ lp ≠ ""
                 ∧ fs_exists (host w) lp = true)
    ∧ (st = Matched
       ↔ ∃ h lp, (installedSkillHashes w !! Skill.name skill = Some h ∧ h ≠ "")
                 ∧ (Skill.localPath skill = Some lp ∧ lp ≠ ""
                    ∧ fs_exists (host w) lp = true)
                 ∧ fingerprint lp w = h)
    ∧ (st = Conflict
       ↔ ∃ h lp, (installedSkillHashes w !! Skill.name skill = Some h ∧ h ≠ "")
                 ∧ (Skill.localPath skill = Some lp ∧ lp ≠ ""
                    ∧ fs_exists (host w) lp = true)
                 ∧ fingerprint lp w ≠ h)).
  { intros Hno ->. split; [done|].
    split; (split; [done|]); intros (h & lp & ? & ? & _); destruct Hno; eauto. }
  destruct (installedSkillHashes w !! Skill.name skill) as [h|] eqn:Hh.
  2:{ apply Hdegenerate; [|done]. intros (h & lp & [? ?] & ?). done. }
  destruct (Skill.localPath skill) as [lp|] eqn:Hlp.
  2:{ apply Hdegenerate; [|done]. intros (h' & lp & ? & ? & ?). done. }
  destruct (is_empty h) eqn:Heh.
  { apply is_empty_true in Heh. apply Hdegenerate; [|done].
    intros (h' & lp' & [? ?] & ?). congruence. }
  destruct (is_empty lp) eqn:Hel.
  { apply is_empty_true in Hel. apply Hdegenerate; [|done].
    intros (h' & lp' & ? & ? & ? & ?). congruence. }
  apply is_empty_false in Heh, Hel.
  destruct (fs_exists (host w) lp) eqn:Hex; simpl in Hst.
  2:{ apply Hdegenerate; [|done].
      intros (h' & lp' & ? & ? & ? & ?). congruence. }
  clear Hdegenerate.
  assert (Hboth : ∃ h0 lp0,
    (Some h = Some h0 ∧ h0 ≠ "")
    ∧ Some lp = Some lp0 ∧ lp0 ≠ "" ∧ fs_exists (host w) lp0 = true)
    by (by exists h, lp).
  destruct (decide (h = fingerprint lp w)) as [Heq|Hne]; subst st.
  - split; [|split]; split.
    + intros Hc. discriminate Hc.
    + intros Hno. by destruct Hno.
    + intros _. by exists h, lp.
    + done.
    + intros Hc. discriminate Hc.
    + intros (h' & lp' & [? ?] & (? & ? & ?) & ?). congruence.
  - split; [|split]; split.
    + intros Hc. discriminate Hc.
    + intros Hno. by destruct Hno.
    + intros Hc. discriminate Hc.
    + intros (h' & lp' & [? ?] & (? & ? & ?) & ?). congruence.
    + intros _. exists h, lp. repeat split; try done.
    + done.
Qed.

(** ** The installed-hash table *)

Lemma getInstalledSkillsDir_pure w :
  ∃ dir, getInstalledSkillsDir w = (Normal dir, w).
Proof.
  unfold getInstalledSkillsDir, getWorkspaceRoot. unfold_m. simpl.
  destruct (workspaceRoot (host w)) as [r|]; [destruct (is_empty r)|]; by eexists.
Qed.

(** The scan of the installed skills directory visits every entry. *)
Lemma installed_table_after_scan w dir entries :
  fst (getInstalledSkillsDir w) = Normal (Some dir) →
  fs_exists (host w) dir = true →
  fs_readdir (host w) dir = Some entries →
  ∃ w',
    updateInstalledSkillHashes w = (Normal tt, w')
    ∧ host w' = host w
    ∧ ∀ name,
        is_Some (installedSkillHashes w' !! name)
        ↔ ∃ e, e ∈ entries ∧ Dirent.name e = name
               ∧ counted_skill (host w) dir e = true.
Proof.
  intros Hdir Hex Hrd.
  unfold updateInstalledSkillHashes.
  unfold bind at 1, modify at 1.
  set (w0 := with_installedSkillHashes ∅ w).
  destruct (getInstalledSkillsDir_pure w0) as (d & Hd).
  destruct (getInstalledSkillsDir_pure w) as (d' & Hd').
  assert (d = Some dir) as ->.
  { rewrite Hd' in Hdir. simpl in Hdir. injection Hdir as ->.
    revert Hd Hd'. unfold getInstalledSkillsDir, getWorkspaceRoot. unfold_m. simpl.
    destruct (workspaceRoot (host w)) as [r|]; [destruct (is_empty r)|]; congruence. }
  unfold bind at 1. rewrite Hd.
  assert (is_empty dir = false) as ->.
  { rewrite Hd' in Hdir. simpl in Hdir. injection Hdir as ->.
    revert Hd'. unfold getInstalledSkillsDir, getWorkspaceRoot. unfold_m. simpl.
    destruct (workspaceRoot (host w)) as [r|]; [destruct (is_empty r) eqn:Hr|];
      [congruence| |congruence].
    intros [= <-]. unfold getProjectSkillsDir, join.
    destruct r; [done|]. by destruct (IdeConfig.skillsDir _). }
  unfold bind at 1, existsSync at 1. simpl. rewrite Hex. simpl.
  unfold try_catch, bind at 1, readdirSync at 1, of_option. simpl. rewrite Hrd.
  set (w1 := logged (ReaddirSync dir) (logged (ExistsSync dir) w0)).
  set (body := λ entry : Dirent.t, _).
  pose (P := λ (pre : list Dirent.t) (w' : World),
    host w' = host w
    ∧ ∀ name, is_Some (installedSkillHashes w' !! name)
              ↔ ∃ e, e ∈ pre ∧ Dirent.name e = name
                     ∧ counted_skill (host w) dir e = true).
  destruct (forEach_inv P body entries) with (pre := @nil Dirent.t) (w := w1)
    as (w' & Hrun & Hhost & Htable).
  - intros pre x w2 [Hh Ht]. unfold body, counted_skill.
    destruct (Dirent.isDirectory x && negb (startsWith (Dirent.name x) ".")) eqn:Hvis.
    2:{ exists w2. split; [done|]. split; [done|]. intros name. rewrite Ht.
        split; intros (e & He & Hn & Hc).
        - exists e. split; [|done]. apply elem_of_app. by left.
        - apply elem_of_app in He as [He|He%list_elem_of_singleton].
          + by exists e.
          + subst e. unfold counted_skill in Hc. by rewrite Hvis in Hc. }
    unfold bind at 1, existsSync at 1. rewrite Hh.
    destruct (fs_exists (host w) (join (join dir (Dirent.name x)) "SKILL.md")) eqn:Hmk.
    2:{ eexists. split; [reflexivity|]. split; [done|]. intros name. simpl.
        rewrite Ht. split; intros (e & He & Hn & Hc).
        - exists e. split; [|done]. apply elem_of_app. by left.
        - apply elem_of_app in He as [He|He%list_elem_of_singleton].
          + by exists e.
          + subst e. unfold counted_skill in Hc. by rewrite Hvis, Hmk in Hc. }
    set (w3 := logged _ w2).
    destruct (getCachedSkillHash_frame (join dir (Dirent.name x)) w3) as (h & c & Hf).
    destruct (Hf w3 eq_refl eq_refl) as (l & Hgc).
    unfold bind, modify. rewrite Hgc.
    eexists. split; [reflexivity|]. split; [done|]. intros name. simpl.
    rewrite lookup_insert. case_decide as Hname.
    + split; [intros _|by eauto].
      exists x. split; [apply elem_of_app; right; by apply list_elem_of_singleton|].
      split; [done|]. unfold counted_skill. by rewrite Hvis, Hmk.
    + rewrite Ht. split; intros (e & He & Hn & Hc).
      * exists e. split; [|done]. apply elem_of_app. by left.
      * apply elem_of_app in He as [He|He%list_elem_of_singleton].
        -- by exists e.
        -- by subst e.
  - split; [done|]. intros name. simpl. rewrite lookup_empty. split.
    + by intros [? ?].
    + intros (e & He & _). by apply elem_of_nil in He.
  - rewrite Hrun. by exists w'.
Qed.

(** X2. When the active skills directory exists and can be listed,
    [updateInstalledSkillHashes] returns, leaves the platform as it is, and
    the rebuilt installed-hash table has an entry exactly under the names of
    the counted skills of that directory. *)
Theorem updateInstalledSkillHashes_table (w : World) (dir : string)
    (entries : list Dirent.t) :
  fst (getInstalledSkillsDir w) = Normal (Some dir) →
  fs_exists (host w) dir = true →
  fs_readdir (host w) dir = Some entries →
  ∃ w',
    updateInstalledSkillHashes w = (Normal tt, w')
    ∧ host w' = host w
    ∧ ∀ name,
        is_Some (installedSkillHashes w' !! name)
        ↔ ∃ e, e ∈ entries ∧ Dirent.name e = name
               ∧ counted_skill (host w) dir e = true.
Proof. apply installed_table_after_scan. Qed.

(** C9. [getCachedSkillHash] returns a string for every directory path and
    never raises: the empty string when the marker file does not exist, when
    reading its modification time fails, and when reading its bytes fails.
    Hence the callers are never cut short by a hash lookup: the match-status
    computation always returns, and the scan of the installed skills
    directory, once the directory is listed, records every counted skill. *)
Theorem getCachedSkillHash_never_throws (dirPath : string) (w : World) :
  let p := join dirPath "SKILL.md" in
  (∃ h w',
     getCachedSkillHash dirPath w = (Normal h, w')
     ∧ (fs_exists (host w) p = false → h = "")
     ∧ (fs_mtimeMs (host w) p = None → h = "")
     ∧ (∀ m, fs_mtimeMs (host w) p = Some m →
             cache_hit w dirPath m = None →
             fs_read (host w) p = None → h = ""))
  ∧ (∀ skill, ∃ st w', getSkillMatchStatus skill w = (Normal st, w'))
  ∧ (∀ dir entries,
       fst (getInstalledSkillsDir w) = Normal (Some dir) →
       fs_exists (host w) dir = true →
       fs_readdir (host w) dir = Some entries →
       ∃ w',
         updateInstalledSkillHashes w = (Normal tt, w')
         ∧ ∀ e, e ∈ entries → counted_skill (host w) dir e = true →
                is_Some (installedSkillHashes w' !! Dirent.name e)).
Proof.
  intros p. split; [|split].
  - rewrite getCachedSkillHash_run. fold p.
    destruct (fs_exists (host w) p);
      [destruct (fs_mtimeMs (host w) p) as [m|];
       [destruct (cache_hit w dirPath m) as [h|] eqn:Hhit;
        [|destruct (fs_read (host w) p) as [content|] eqn:Hread]|]|];
      eexists _, _; (split; [reflexivity|]); repeat split; try done;
      intros m' [= <-]; congruence.
  - intros skill. destruct (getSkillMatchStatus_run skill w) as (st & l & c & Hrun & _).
    by eexists _, _.
  - intros dir entries Hdir Hex Hrd.
    destruct (installed_table_after_scan w dir entries Hdir Hex Hrd)
      as (w' & Hrun & _ & Ht).
    exists w'. split; [done|]. intros e He Hc. apply Ht. by exists e.
Qed.

(** ** Bulk selection *)

Lemma filterSkills_elem query skills s :
  s ∈ filterSkills query skills → s ∈ skills.
Proof.
  unfold filterSkills. destruct (is_empty query); [done|].
  rewrite !list_elem_of_In, filter_In. tauto.
Qed.

Lemma index_get_elem url index skills :
  index_get url index = Some skills → (url, skills) ∈ index.
Proof.
  unfold index_get. destruct (List.find _ index) as [[u l]|] eqn:Hf; [|done].
  intros [= <-]. apply find_some in Hf as [Hin Hu].
  apply bool_decide_eq_true in Hu. simpl in Hu. subst u.
  by apply list_elem_of_In.
Qed.

Lemma added_by_more w pre x w' :
  added_by w pre w' → added_by w (pre ++ [x]) w'.
Proof.
  intros H k Hk. destruct (H k Hk) as [?|(y & Hy & ? & ?)]; [by left|].
  right. exists y. split; [|done]. apply elem_of_app. by left.
Qed.

Lemma added_by_check w pre x w' :
  Skill.matchStatus x ≠ Some Conflict →
  added_by w pre w' →
  ∃ w'', setChecked x true w' = (Normal tt, w'')
         ∧ added_by w (pre ++ [x]) w''.
Proof.
  intros Hx H. unfold setChecked. unfold_m. simpl.
  eexists. split; [reflexivity|]. intros k. simpl.
  rewrite elem_of_union, elem_of_singleton. intros [->|Hk].
  - right. exists x. split; [|done].
    apply elem_of_app. right. by apply list_elem_of_singleton.
  - by apply (added_by_more w pre x w').
Qed.

Lemma checkAllMatchingRepoSkills_adds w :
  ∃ w' visited,
    checkAllMatchingRepoSkills w = (Normal tt, w')
    ∧ (∀ x, x ∈ visited → indexed w x)
    ∧ added_by w visited w'.
Proof.
  unfold checkAllMatchingRepoSkills, getAllMatchingRepoSkills.
  unfold bind at 1 2 3, get, ret. simpl.
  set (visited := concat _).
  set (body := λ skill : Skill.t, _).
  destruct (forEach_inv (added_by w) body visited) with (pre := @nil Skill.t) (w := w)
    as (w1 & Hrun & Hadd).
  - intros pre x w1 H. unfold body. case_decide as Hc.
    + exists w1. split; [done|]. by apply added_by_more.
    + by apply added_by_check.
  - intros k Hk. by left.
  - exists (with_fired (S (fired w1)) w1), visited.
    unfold bind. rewrite Hrun. split; [done|]. split; [|done].
    intros x Hx. unfold visited in Hx.
    apply list_elem_of_In, in_concat in Hx as (l & Hl & Hxl).
    apply in_map_iff in Hl as ([url skills] & <- & Hkv).
    exists url, skills. split; [by apply list_elem_of_In|].
    by apply list_elem_of_In, filterSkills_elem in Hxl.
Qed.

Lemma checkAllSkillsInRepo_adds repo w :
  ∃ w' visited,
    checkAllSkillsInRepo repo w = (Normal tt, w')
    ∧ (∀ x, x ∈ visited → indexed w x)
    ∧ added_by w visited w'.
Proof.
  unfold checkAllSkillsInRepo.
  unfold bind at 1 2, get. simpl.
  set (skills := default [] _).
  set (visited := if negb (is_empty (searchQuery w)) then _ else _).
  set (body := λ skill : Skill.t, _).
  destruct (forEach_inv (added_by w) body visited) with (pre := @nil Skill.t) (w := w)
    as (w1 & Hrun & Hadd).
  - intros pre x w1 H. unfold body.
    destruct (Skill.matchStatus x) as [st|] eqn:Hst.
    + unfold bind at 1, ret at 1. case_decide as Hc.
      * exists w1. split; [done|]. by apply added_by_more.
      * apply added_by_check; [|done]. congruence.
    + destruct (getSkillMatchStatus_run x w1) as (st & l & c & Hst' & _).
      unfold bind at 1. rewrite Hst'. case_decide as Hc.
      * eexists. split; [reflexivity|]. by apply added_by_more.
      * apply added_by_check; [congruence|]. exact H.
  - intros k Hk. by left.
  - exists (with_fired (S (fired w1)) w1), visited.
    unfold bind. rewrite Hrun. split; [done|]. split; [|done].
    intros x Hx.
    assert (x ∈ skills) as Hxs.
    { unfold visited in Hx. destruct (negb _); [by apply filterSkills_elem in Hx|done]. }
    unfold skills in Hxs.
    destruct (index_get (SkillRepo.url repo) (repoSkillsIndex w)) as [l|] eqn:Hg;
      simpl in Hxs; [|by apply elem_of_nil in Hxs].
    exists (SkillRepo.url repo), l. split; [by apply index_get_elem|done].
Qed.

(** C10 (amended). In an index whose skill identifiers are unique, neither
    bulk selection adds a skill whose match status is Conflict to the
    checked set: such a skill, unchecked before, is unchecked after. *)
Theorem bulk_selection_skips_conflicts (w : World) (s : Skill.t) :
  identifiers_unique w →
  indexed w s →
  Skill.matchStatus s = Some Conflict →
  getSkillKey s ∉ checkedSkills w →
  (∃ w', checkAllMatchingRepoSkills w = (Normal tt, w')
         ∧ getSkillKey s ∉ checkedSkills w')
  ∧ (∀ repo, ∃ w', checkAllSkillsInRepo repo w = (Normal tt, w')
                   ∧ getSkillKey s ∉ checkedSkills w').
Proof.
  intros Huniq Hs Hconflict Hbefore.
  assert (Hkeep : ∀ w' visited,
    (∀ x, x ∈ visited → indexed w x) → added_by w visited w' →
    getSkillKey s ∉ checkedSkills w').
  { intros w' visited Hvis Hadd Hin.
    destruct (Hadd _ Hin) as [?|(x & Hx & Hk & Hnc)]; [done|].
    assert (x = s) as -> by (apply Huniq; auto). done. }
  split.
  - destruct (checkAllMatchingRepoSkills_adds w) as (w' & visited & Hrun & Hvis & Hadd).
    exists w'. split; [done|]. by apply (Hkeep w' visited).
  - intros repo.
    destruct (checkAllSkillsInRepo_adds repo w) as (w' & visited & Hrun & Hvis & Hadd).
    exists w'. split; [done|]. by apply (Hkeep w' visited).
Qed.

(** ** Local directory groups *)

Lemma returns_ret {A} pf (v : A) : returns pf (ret v) v.
Proof. intros w Hw. by exists w. Qed.

Lemma returns_bind {A B} pf (m : M A) (k : A → M B) a b :
  returns pf m a → returns pf (k a) b → returns pf (bind m k) b.
Proof.
  intros Hm Hk w Hw. destruct (Hm w Hw) as (w1 & Hr1 & Hw1).
  destruct (Hk w1 Hw1) as (w2 & Hr2 & Hw2).
  exists w2. unfold bind. by rewrite Hr1.
Qed.

Lemma returns_existsSync pf p : returns pf (existsSync p) (fs_exists pf p).
Proof. intros w <-. by eexists. Qed.

Lemma returns_get {A} pf (proj : World → A) v :
  (∀ w, host w = pf → proj w = v) → returns pf (get proj) v.
Proof. intros H w Hw. exists w. unfold get. by rewrite (H w Hw). Qed.

Lemma returns_mapM {A B} pf (f : A → M B) (g : A → B) l :
  (∀ x, returns pf (f x) (g x)) → returns pf (mapM f l) (map g l).
Proof.
  intros Hf. induction l as [|x l IH]; simpl; [apply returns_ret|].
  eapply returns_bind; [apply Hf|].
  eapply returns_bind; [apply IH|]. apply returns_ret.
Qed.

Lemma returns_filterM {A} pf (p : A → M bool) (q : A → bool) l :
  (∀ x, returns pf (p x) (q x)) → returns pf (filterM p l) (List.filter q l).
Proof.
  intros Hp. induction l as [|x l IH]; simpl; [apply returns_ret|].
  eapply returns_bind; [apply Hp|].
  eapply returns_bind; [apply IH|]. apply returns_ret.
Qed.

Lemma returns_someM {A} pf (p : A → M bool) (q : A → bool) l :
  (∀ x, returns pf (p x) (q x)) → returns pf (someM p l) (existsb q l).
Proof.
  intros Hp. induction l as [|x l IH]; simpl; [apply returns_ret|].
  eapply returns_bind; [apply Hp|].
  destruct (q x); simpl; [apply returns_ret|apply IH].
Qed.

Lemma returns_listing {A} pf dir (k : list Dirent.t → M A) (v : list Dirent.t → A) d :
  (∀ entries, returns pf (k entries) (v entries)) →
  returns pf (try_catch (do entries <- readdirSync dir; k entries) (ret d))
          (match fs_readdir pf dir with
           | Some entries => v entries
           | None => d
           end).
Proof.
  intros Hk w Hw. unfold try_catch, bind, readdirSync, of_option. rewrite Hw.
  destruct (fs_readdir pf dir) as [entries|].
  - destruct (Hk entries (logged (ReaddirSync dir) w) Hw) as (w' & Hr & Hw').
    exists w'. by rewrite Hr.
  - by eexists.
Qed.

Lemma getLocalSkillsGroups_returns pf root :
  workspaceRoot pf = Some root → root ≠ "" →
  returns pf getLocalSkillsGroups
    (List.filter (surfaced pf)
       (map (group_of pf (getProjectSkillsDir root
                            (detectIde (env pf) (Some (appName pf)))))
            (getSkillDirectories pf root))).
Proof.
  intros Hroot Hne. unfold getLocalSkillsGroups, getWorkspaceRoot.
  apply (returns_bind pf _ _ (workspaceRoot pf)); [apply returns_get; by intros w <-|].
  rewrite Hroot. apply is_empty_false in Hne. rewrite Hne.
  apply (returns_bind pf _ _ pf); [apply returns_get; by intros w <-|].
  eapply returns_bind.
  - apply returns_mapM
      with (g := group_of pf (getProjectSkillsDir root
                               (detectIde (env pf) (Some (appName pf))))).
    intros dir.
    eapply returns_bind; [apply returns_existsSync|]. apply returns_ret.
  - apply returns_filterM. intros g. unfold surfaced.
    destruct (LocalSkillsGroup.isActive g); [apply returns_ret|].
    destruct (LocalSkillsGroup.exists_ g); simpl; [|apply returns_ret].
    unfold has_counted_skill.
    apply (returns_listing pf (LocalSkillsGroup.path g) _
             (existsb (counted_skill pf (LocalSkillsGroup.path g)))).
    intros entries. apply returns_someM. intros e. unfold counted_skill.
    destruct (Dirent.isDirectory e && negb (startsWith (Dirent.name e) "."));
      simpl; [apply returns_existsSync|apply returns_ret].
Qed.

(** C8 (amended). With a workspace open, a candidate group is in the
    enumerator's result if and only if it is the active group, or its
    directory exists, can be listed, and has a subdirectory whose name does
    not start with a dot and that holds a SKILL.md marker file. *)
Theorem getLocalSkillsGroups_iff (w : World) (root : string) :
  workspaceRoot (host w) = Some root → root ≠ "" →
  let pf := host w in
  let active := getProjectSkillsDir root (detectIde (env pf) (Some (appName pf))) in
  ∃ groups w',
    getLocalSkillsGroups w = (Normal groups, w')
    ∧ (∀ g, g ∈ groups →
            ∃ dir, dir ∈ getSkillDirectories pf root ∧ g = group_of pf active dir)
    ∧ ∀ dir, dir ∈ getSkillDirectories pf root →
        let g := group_of pf active dir in
        g ∈ groups
        ↔ LocalSkillsGroup.isActive g = true
          ∨ (LocalSkillsGroup.exists_ g = true
             ∧ ∃ entries e,
                 fs_readdir pf (LocalSkillsGroup.path g) = Some entries
                 ∧ e ∈ entries
                 ∧ Dirent.isDirectory e = true
                 ∧ startsWith (Dirent.name e) "." = false
                 ∧ fs_exists pf (join (join (LocalSkillsGroup.path g)
                                            (Dirent.name e)) "SKILL.md") = true).
Proof.
  intros Hroot Hne pf active.
  destruct (getLocalSkillsGroups_returns pf root Hroot Hne w eq_refl)
    as (w' & Hrun & _).
  eexists _, w'. split; [exact Hrun|]. split.
  { intros g Hg. apply list_elem_of_In, filter_In in Hg as [Hg _].
    apply in_map_iff in Hg as (dir & <- & Hdir).
    exists dir. split; [by apply list_elem_of_In|done]. }
  intros dir Hdir g.
  rewrite list_elem_of_In, filter_In. fold active.
  assert (In g (map (group_of pf active) (getSkillDirectories pf root))) as Hin.
  { apply in_map. by apply list_elem_of_In. }
  revert Hin.
  clear Hrun. subst g. unfold surfaced, has_counted_skill. simpl. intros Hin. split.
  - intros [_ Hs]. apply orb_true_iff in Hs as [?|Hs]; [by left|right].
    apply andb_true_iff in Hs as [Hex Hs]. split; [done|].
    destruct (fs_readdir pf (SkillDirectory.path dir)) as [entries|]; [|done].
    apply existsb_exists in Hs as (e & He & Hc). unfold counted_skill in Hc.
    apply andb_true_iff in Hc as [Hc Hm]. apply andb_true_iff in Hc as [Hd Hdot].
    apply negb_true_iff in Hdot.
    exists entries, e. repeat split; try done. by apply list_elem_of_In.
  - intros Hs. split; [done|]. apply orb_true_iff.
    destruct Hs as [?|(Hex & entries & e & Hrd & He & Hd & Hdot & Hm)]; [by left|].
    right. rewrite Hex, Hrd. simpl. apply existsb_exists. exists e.
    split; [by apply list_elem_of_In|]. unfold counted_skill.
    by rewrite Hd, Hdot, Hm.
Qed.

(** ** Reordering *)

Lemma moveKey_found order key delta i :
  indexOf key order = Some i →
  moveKey order key delta
  = let targetIndex := (Z.of_nat i + Delta_value delta)%Z in
    if ((targetIndex <? 0) || (targetIndex >=? Z.of_nat (length order)))%Z
    then order
    else splice_insert (Z.to_nat targetIndex) key (splice_remove i order).
Proof.
  intros Hi. rewrite moveKey_equation_1.
  destruct (inspect (indexOf key order)) as [[j|] Hj]; simpl.
  - assert (j = i) as -> by congruence. done.
  - congruence.
Qed.

Lemma indexOf_app_last l key :
  key ∉ l → indexOf key (l ++ [key]) = Some (length l).
Proof.
  induction l as [|y l IH]; simpl; intros Hn.
  - by rewrite decide_True.
  - apply not_elem_of_cons in Hn as [Hne Hn].
    rewrite decide_False by done. by rewrite IH.
Qed.

Lemma indexOf_elem x l : x ∈ l → ∃ i, indexOf x l = Some i.
Proof.
  induction l as [|y l IH]; simpl; intros Hin.
  - by apply elem_of_nil in Hin.
  - destruct (decide (y = x)); [by eexists|].
    apply elem_of_cons in Hin as [?|Hin]; [congruence|].
    destruct (IH Hin) as (i & ->). by eexists.
Qed.

Lemma indexOf_drop x l i :
  indexOf x l = Some i → drop i l = x :: drop (S i) l.
Proof.
  revert i. induction l as [|y l IH]; simpl; intros i Hi; [done|].
  destruct (decide (y = x)) as [->|Hne].
  - injection Hi as <-. by rewrite drop_0.
  - destruct (indexOf x l) as [j|]; [|done]. injection Hi as <-. simpl. by apply IH.
Qed.

(** C5 (amended). Reordering a key onto itself leaves the order unchanged;
    reordering [X] onto a different, non-empty key [Y] of the order puts [X]
    directly before [Y]; moving the first key up, or the last key down,
    leaves the order unchanged. *)
Theorem reorder_placement (order : list string) (X Y : string) :
  reorderKey order X (Some X) = order
  ∧ (X ≠ Y → Y ≠ "" → Y ∈ order →
     ∃ before after, reorderKey order X (Some Y) = before ++ X :: Y :: after)
  ∧ (∀ rest, order = X :: rest → moveKey order X MinusOne = order)
  ∧ (∀ front, order = front ++ [X] → X ∉ front → moveKey order X PlusOne = order).
Proof.
  repeat split.
  - unfold reorderKey. by rewrite decide_True.
  - intros Hne Hy Hin. unfold reorderKey.
    rewrite decide_False by congruence.
    apply is_empty_false in Hy. rewrite Hy.
    set (next := List.filter _ order).
    destruct (indexOf_elem Y next) as (i & Hi).
    { unfold next. apply list_elem_of_In, filter_In. split; [by apply list_elem_of_In|].
      apply negb_true_iff, bool_decide_eq_false. congruence. }
    rewrite Hi. unfold splice_insert. rewrite (indexOf_drop _ _ _ Hi).
    by eexists _, _.
  - intros rest ->. rewrite (moveKey_found _ _ _ 0); [done|].
    simpl. by rewrite decide_True.
  - intros front -> Hn.
    rewrite (moveKey_found _ _ _ (length front)) by (by apply indexOf_app_last).
    cbv zeta. rewrite length_app. simpl.
    replace (_ || _)%bool with true; [done|].
    symmetry. apply orb_true_iff. right. apply Z.geb_le. lia.
Qed.

(** ** The configured repositories *)

Lemma is_preset_url_elem u :
  is_preset_url u = true ↔ u ∈ map SkillRepo.url PRESET_REPOS.
Proof.
  unfold is_preset_url. rewrite existsb_exists, list_elem_of_In, in_map_iff.
  split; intros (p & H1 & H2).
  - apply bool_decide_eq_true in H2. eauto.
  - exists p. split; [done|]. by apply bool_decide_eq_true.
Qed.

Lemma preset_urls_NoDup : NoDup (map SkillRepo.url PRESET_REPOS).
Proof. apply (bool_decide_unpack _). by vm_compute. Qed.

Lemma NoDup_map_filter {A B} `{EqDecision B} (f : A → B) (p : A → bool) l :
  NoDup (map f l) → NoDup (map f (List.filter p l)).
Proof.
  induction l as [|x l IH]; simpl; [done|].
  rewrite NoDup_cons. intros [Hx Hl]. destruct (p x); simpl; [|by apply IH].
  apply NoDup_cons. split; [|by apply IH].
  intros Hin. apply Hx. apply list_elem_of_In, in_map_iff in Hin as (y & Hy & Hin).
  apply filter_In in Hin as [Hin _].
  apply list_elem_of_In, in_map_iff. eauto.
Qed.

Lemma not_preset_url_decide u :
  negb (is_preset_url u) = bool_decide (u ∉ map SkillRepo.url PRESET_REPOS).
Proof.
  destruct (is_preset_url u) eqn:H; simpl; symmetry.
  - apply bool_decide_eq_false. intros Hn. apply Hn. by apply is_preset_url_elem.
  - apply bool_decide_eq_true. intros Hin. apply is_preset_url_elem in Hin. congruence.
Qed.

Lemma List_filter_filter {A} (p q : A → bool) (l : list A) :
  List.filter p (List.filter q l) = List.filter (λ x, q x && p x) l.
Proof.
  induction l as [|x l IH]; simpl; [done|].
  destruct (q x); simpl; [|done]. destruct (p x); by rewrite IH.
Qed.

Lemma List_filter_nil {A} (p : A → bool) (l : list A) :
  (∀ x, x ∈ l → p x = false) → List.filter p l = [].
Proof.
  induction l as [|x l IH]; simpl; intros H; [done|].
  rewrite (H x) by (by left). apply IH. intros y Hy. apply H. by right.
Qed.

Lemma count_url_NoDup (u : string) (l : list SkillRepo.t) :
  NoDup (map SkillRepo.url l) → u ∈ map SkillRepo.url l →
  length (List.filter (λ r, bool_decide (SkillRepo.url r = u)) l) = 1%nat.
Proof.
  induction l as [|x l IH]; simpl; intros Hnd Hin; [by apply elem_of_nil in Hin|].
  apply NoDup_cons in Hnd as [Hx Hnd].
  case_bool_decide as Hxu.
  - simpl. f_equal. apply length_zero_iff_nil, List_filter_nil.
    intros y Hy. apply bool_decide_eq_false. intros Hyu. apply Hx.
    rewrite Hxu, <- Hyu. apply list_elem_of_In, in_map. by apply list_elem_of_In.
  - apply elem_of_cons in Hin as [Hin|Hin]; [congruence|]. by apply IH.
Qed.

(** C6 (amended). Whatever is stored, [getRepos] returns the preset
    repositories first, in their fixed order, followed by the stored entries
    whose URL is not a preset's, in stored order and as often as they are
    stored; so every preset URL occurs exactly once, and the list has no
    repeated URL whenever the stored list has none.  After [removeRepo], of
    a preset URL or any other, [getRepos] returns all the presets again,
    followed by the stored entries that have neither the removed URL nor a
    preset's. *)
Theorem getRepos_presets_first (config : Config) :
  let preset_urls := map SkillRepo.url PRESET_REPOS in
  let user_entry := λ r, bool_decide (SkillRepo.url r ∉ preset_urls) in
  getRepos config
  = PRESET_REPOS ++ List.filter user_entry (default [] config)
  ∧ NoDup preset_urls
  ∧ (∀ u, u ∈ preset_urls →
          length (List.filter (λ r, bool_decide (SkillRepo.url r = u))
                    (getRepos config)) = 1%nat)
  ∧ (NoDup (map SkillRepo.url (default [] config)) →
     NoDup (map SkillRepo.url (getRepos config)))
  ∧ ∀ u, getRepos (removeRepo u config)
         = PRESET_REPOS
           ++ List.filter (λ r, bool_decide (SkillRepo.url r ≠ u) && user_entry r)
                (default [] config).
Proof.
  intros preset_urls user_entry.
  assert (Hext : ∀ l : list SkillRepo.t,
    List.filter (λ r, negb (is_preset_url (SkillRepo.url r))) l
    = List.filter user_entry l).
  { intros l. apply List.filter_ext. intros r. apply not_preset_url_decide. }
  assert (Huser : ∀ (l : list SkillRepo.t) r,
    r ∈ List.filter user_entry l → SkillRepo.url r ∉ preset_urls).
  { intros l r Hr. apply list_elem_of_In, filter_In in Hr as [_ Hr].
    by apply bool_decide_eq_true in Hr. }
  assert (Hget : getRepos config
                 = PRESET_REPOS ++ List.filter user_entry (default [] config)).
  { unfold getRepos. cbv zeta. by rewrite Hext. }
  split; [done|]. split; [apply preset_urls_NoDup|]. split; [|split].
  - intros u Hu. rewrite Hget, List.filter_app, length_app.
    rewrite (count_url_NoDup u PRESET_REPOS preset_urls_NoDup Hu).
    rewrite List_filter_nil; [done|].
    intros r Hr. apply bool_decide_eq_false. intros Hru.
    apply Huser in Hr. by rewrite Hru in Hr.
  - intros Hnd. rewrite Hget, map_app. apply NoDup_app.
    split; [apply preset_urls_NoDup|]. split; [|by apply NoDup_map_filter].
    intros u Hu Hin. apply list_elem_of_In, in_map_iff in Hin as (r & <- & Hr).
    apply list_elem_of_In, Huser in Hr. done.
  - intros u. unfold removeRepo. cbv zeta. unfold getRepos at 1. cbv zeta.
    apply (f_equal (app PRESET_REPOS)).
    change (default [] (Some ?l)) with l.
    rewrite Hget, Hext, List.filter_app, List.filter_app.
    rewrite (List_filter_nil user_entry).
    + simpl. rewrite !List_filter_filter. apply List.filter_ext. intros r.
      unfold user_entry. destruct (bool_decide (SkillRepo.url r ∉ preset_urls)); simpl.
      * rewrite andb_true_r. by repeat case_bool_decide.
      * by rewrite andb_false_r.
    + intros r Hr. apply list_elem_of_In, filter_In in Hr as [Hr _].
      apply bool_decide_eq_false. intros Hn. apply Hn.
      apply list_elem_of_In, in_map. done.
Qed.

(** ** The cache path of a repository *)

Lemma forall_below (P : N → bool) k :
  forallb P (below k) = true → ∀ n, (n < N.of_nat k)%N → P n = true.
Proof.
  intros H n Hn. rewrite forallb_forall in H. apply H.
  unfold below. apply in_map_iff. exists (N.to_nat n).
  split; [apply N2Nat.id|]. apply in_seq. lia.
Qed.

Lemma forall_below2 (P : N → N → bool) k1 k2 :
  forallb (λ a, forallb (P a) (below k2)) (below k1) = true →
  ∀ a b, (a < N.of_nat k1)%N → (b < N.of_nat k2)%N → P a b = true.
Proof.
  intros H a b Ha Hb.
  apply (forall_below (P a) k2); [|done].
  by apply (forall_below (λ a, forallb (P a) (below k2)) k1).
Qed.

Lemma b64_char_alnum n :
  (n < 64)%N → clean_char (b64_char n) = true → is_alnum (b64_char n) = true.
Proof.
  intros Hn Hc.
  assert (forallb (λ n, implb (clean_char (b64_char n)) (is_alnum (b64_char n)))
                  (below 64) = true) as H by (by vm_compute).
  pose proof (forall_below _ 64 H n Hn) as H'. simpl in H'. by rewrite Hc in H'.
Qed.

Lemma b64_char_inj n m :
  (n < 64)%N → (m < 64)%N → b64_char n = b64_char m → n = m.
Proof.
  intros Hn Hm Heq.
  assert (forallb (λ n, forallb
            (λ m, implb (Ascii.eqb (b64_char n) (b64_char m)) (N.eqb n m))
            (below 64)) (below 64) = true) as H by (by vm_compute).
  pose proof (forall_below2 _ 64 64 H n m Hn Hm) as H'. simpl in H'.
  rewrite Heq, Ascii.eqb_refl in H'. by apply N.eqb_eq.
Qed.

(** The four sextets of a group are below 64, and the bytes can be read
    back from them: checked on all bytes. *)
Lemma sextets_bounded a b :
  (a < 256)%N → (b < 256)%N →
  (N.shiftr a 2 < 64
   ∧ N.shiftl (N.land a 3) 4 < 64
   ∧ N.lor (N.shiftl (N.land a 3) 4) (N.shiftr b 4) < 64
   ∧ N.shiftl (N.land a 15) 2 < 64
   ∧ N.lor (N.shiftl (N.land a 15) 2) (N.shiftr b 6) < 64
   ∧ N.land a 63 < 64)%N.
Proof.
  intros Ha Hb.
  assert (forallb (λ a, forallb (λ b,
            (N.shiftr a 2 <? 64) && (N.shiftl (N.land a 3) 4 <? 64)
            && (N.lor (N.shiftl (N.land a 3) 4) (N.shiftr b 4) <? 64)
            && (N.shiftl (N.land a 15) 2 <? 64)
            && (N.lor (N.shiftl (N.land a 15) 2) (N.shiftr b 6) <? 64)
            && (N.land a 63 <? 64))%N (below 256)) (below 256) = true) as H
    by (by vm_compute).
  pose proof (forall_below2 _ 256 256 H a b Ha Hb) as H'. simpl in H'.
  repeat (apply andb_true_iff in H' as [H' ?]).
  repeat split; by apply N.ltb_lt.
Qed.

Lemma dec_a_spec a b :
  (a < 256)%N → (b < 256)%N →
  dec_a (N.shiftr a 2) (N.lor (N.shiftl (N.land a 3) 4) (N.shiftr b 4)) = a
  ∧ dec_a (N.shiftr a 2) (N.shiftl (N.land a 3) 4) = a.
Proof.
  intros Ha Hb.
  assert (forallb (λ a, forallb (λ b,
            (dec_a (N.shiftr a 2) (N.lor (N.shiftl (N.land a 3) 4) (N.shiftr b 4)) =? a)
            && (dec_a (N.shiftr a 2) (N.shiftl (N.land a 3) 4) =? a))%N
            (below 256)) (below 256) = true) as H by (by vm_compute).
  pose proof (forall_below2 _ 256 256 H a b Ha Hb) as H'. simpl in H'.
  apply andb_true_iff in H' as [H1 H2]. split; by apply N.eqb_eq.
Qed.

Lemma low_bits a :
  (a < 256)%N → (N.land a 3 < 4 ∧ N.shiftr a 6 < 4 ∧ N.land a 15 < 16)%N.
Proof.
  intros Ha.
  assert (forallb (λ a, (N.land a 3 <? 4) && (N.shiftr a 6 <? 4)
                        && (N.land a 15 <? 16))%N (below 256) = true) as H
    by (by vm_compute).
  pose proof (forall_below _ 256 H a Ha) as H'. simpl in H'.
  repeat (apply andb_true_iff in H' as [H' ?]). repeat split; by apply N.ltb_lt.
Qed.

Lemma dec_b_spec a b c :
  (a < 256)%N → (b < 256)%N → (c < 256)%N →
  dec_b (N.lor (N.shiftl (N.land a 3) 4) (N.shiftr b 4))
        (N.lor (N.shiftl (N.land b 15) 2) (N.shiftr c 6)) = b
  ∧ dec_b (N.lor (N.shiftl (N.land a 3) 4) (N.shiftr b 4))
          (N.shiftl (N.land b 15) 2) = b.
Proof.
  intros Ha Hb Hc.
  assert (forallb (λ b, forallb (λ xy,
            (dec_b (N.lor (N.shiftl (N.shiftr xy 2) 4) (N.shiftr b 4))
                   (N.lor (N.shiftl (N.land b 15) 2) (N.land xy 3)) =? b)
            && (dec_b (N.lor (N.shiftl (N.shiftr xy 2) 4) (N.shiftr b 4))
                      (N.shiftl (N.land b 15) 2) =? b))%N
            (below 16)) (below 256) = true) as H by (by vm_compute).
  destruct (low_bits a Ha) as (Hx & _ & _). destruct (low_bits c Hc) as (_ & Hy & _).
  set (x := N.land a 3) in *. set (y := N.shiftr c 6) in *.
  assert (forallb (λ x, forallb (λ y,
            (N.shiftr (N.lor (N.shiftl x 2) y) 2 =? x)
            && (N.land (N.lor (N.shiftl x 2) y) 3 =? y)
            && (N.lor (N.shiftl x 2) y <? 16))%N (below 4)) (below 4) = true) as Hp
    by (by vm_compute).
  pose proof (forall_below2 _ 4 4 Hp x y Hx Hy) as Hp'. simpl in Hp'.
  apply andb_true_iff in Hp' as [Hp' Hlt]. apply andb_true_iff in Hp' as [Hp1 Hp2].
  apply N.eqb_eq in Hp1, Hp2. apply N.ltb_lt in Hlt.
  pose proof (forall_below2 _ 256 16 H b _ Hb Hlt) as H'. simpl in H'.
  rewrite Hp1, Hp2 in H'. apply andb_true_iff in H' as [H1 H2].
  split; by apply N.eqb_eq.
Qed.

Lemma dec_c_spec b c :
  (b < 256)%N → (c < 256)%N →
  dec_c (N.lor (N.shiftl (N.land b 15) 2) (N.shiftr c 6)) (N.land c 63) = c.
Proof.
  intros Hb Hc.
  assert (forallb (λ b, forallb (λ c,
            dec_c (N.lor (N.shiftl (N.land b 15) 2) (N.shiftr c 6)) (N.land c 63) =? c)%N
            (below 256)) (below 256) = true) as H by (by vm_compute).
  pose proof (forall_below2 _ 256 256 H b c Hb Hc) as H'. by apply N.eqb_eq.
Qed.

Lemma byte_bound (a : ascii) : (N_of_ascii a < 256)%N.
Proof. apply N_ascii_bounded. Qed.

Lemma strip_keep s t :
  (s < 64)%N → clean_char (b64_char s) = true →
  strip_non_alnum (String (b64_char s) t) = String (b64_char s) (strip_non_alnum t).
Proof. intros Hs Hc. simpl. by rewrite b64_char_alnum. Qed.

(** The stripped encoding of a full group, of a final group of two bytes and
    of a final group of one byte, when no [+] or [/] occurs. *)
Lemma strip_group3 a b c rest :
  no_plus_slash (base64 (String a (String b (String c rest)))) = true →
  ∃ s0 s1 s2 s3,
    (s0 < 64 ∧ s1 < 64 ∧ s2 < 64 ∧ s3 < 64)%N
    ∧ strip_non_alnum (base64 (String a (String b (String c rest))))
      = String (b64_char s0) (String (b64_char s1) (String (b64_char s2)
          (String (b64_char s3) (strip_non_alnum (base64 rest)))))
    ∧ no_plus_slash (base64 rest) = true
    ∧ dec_a s0 s1 = N_of_ascii a ∧ dec_b s1 s2 = N_of_ascii b
    ∧ dec_c s2 s3 = N_of_ascii c.
Proof.
  cbn [base64 no_plus_slash]. cbv zeta. intros H.
  repeat (apply andb_true_iff in H as [? H]).
  pose proof (byte_bound a) as Ha. pose proof (byte_bound b) as Hb.
  pose proof (byte_bound c) as Hc.
  destruct (sextets_bounded _ _ Ha Hb) as (B0 & _ & B1 & _ & _ & _).
  destruct (sextets_bounded _ _ Hb Hc) as (_ & _ & _ & _ & B2 & _).
  destruct (sextets_bounded _ _ Hc Hc) as (_ & _ & _ & _ & _ & B3).
  exists (N.shiftr (N_of_ascii a) 2),
    (N.lor (N.shiftl (N.land (N_of_ascii a) 3) 4) (N.shiftr (N_of_ascii b) 4)),
    (N.lor (N.shiftl (N.land (N_of_ascii b) 15) 2) (N.shiftr (N_of_ascii c) 6)),
    (N.land (N_of_ascii c) 63).
  split; [by repeat split|].
  split; [by rewrite !strip_keep|]. split; [done|].
  split; [apply (dec_a_spec _ _ Ha Hb)|].
  split; [apply (dec_b_spec _ _ _ Ha Hb Hc)|apply (dec_c_spec _ _ Hb Hc)].
Qed.

Lemma strip_group2 a b :
  no_plus_slash (base64 (String a (String b ""))) = true →
  ∃ s0 s1 s2,
    (s0 < 64 ∧ s1 < 64 ∧ s2 < 64)%N
    ∧ strip_non_alnum (base64 (String a (String b "")))
      = String (b64_char s0) (String (b64_char s1) (String (b64_char s2) ""))
    ∧ dec_a s0 s1 = N_of_ascii a ∧ dec_b s1 s2 = N_of_ascii b.
Proof.
  cbn [base64 no_plus_slash]. cbv zeta. intros H.
  repeat (apply andb_true_iff in H as [? H]).
  pose proof (byte_bound a) as Ha. pose proof (byte_bound b) as Hb.
  destruct (sextets_bounded _ _ Ha Hb) as (B0 & _ & B1 & _ & _ & _).
  destruct (sextets_bounded _ _ Hb Hb) as (_ & _ & _ & B2 & _ & _).
  exists (N.shiftr (N_of_ascii a) 2),
    (N.lor (N.shiftl (N.land (N_of_ascii a) 3) 4) (N.shiftr (N_of_ascii b) 4)),
    (N.shiftl (N.land (N_of_ascii b) 15) 2).
  split; [by repeat split|].
  split; [by rewrite !strip_keep|].
  split; [apply (dec_a_spec _ _ Ha Hb)|apply (dec_b_spec _ _ _ Ha Hb Hb)].
Qed.

Lemma strip_group1 a :
  no_plus_slash (base64 (String a "")) = true →
  ∃ s0 s1,
    (s0 < 64 ∧ s1 < 64)%N
    ∧ strip_non_alnum (base64 (String a ""))
      = String (b64_char s0) (String (b64_char s1) "")
    ∧ dec_a s0 s1 = N_of_ascii a.
Proof.
  cbn [base64 no_plus_slash]. cbv zeta. intros H.
  repeat (apply andb_true_iff in H as [? H]).
  pose proof (byte_bound a) as Ha.
  destruct (sextets_bounded _ _ Ha Ha) as (B0 & B1 & _ & _ & _ & _).
  exists (N.shiftr (N_of_ascii a) 2), (N.shiftl (N.land (N_of_ascii a) 3) 4).
  split; [by repeat split|].
  split; [by rewrite !strip_keep|]. apply (dec_a_spec _ _ Ha Ha).
Qed.

Lemma N_of_ascii_inj a b : N_of_ascii a = N_of_ascii b → a = b.
Proof. intros H. rewrite <- (ascii_N_embedding a), <- (ascii_N_embedding b). by rewrite H. Qed.

Lemma base64_strip_inj_bounded (n : nat) (u1 u2 : string) :
  (String.length u1 ≤ n)%nat →
  no_plus_slash (base64 u1) = true → no_plus_slash (base64 u2) = true →
  strip_non_alnum (base64 u1) = strip_non_alnum (base64 u2) → u1 = u2.
Proof.
  revert u1 u2. induction n as [|n IH]; intros u1 u2 Hlen H1 H2 Heq.
  { destruct u1; [|simpl in Hlen; lia].
    destruct u2 as [|a [|b [|c r]]]; [done| | |].
    - destruct (strip_group1 a H2) as (? & ? & _ & Hs & _). rewrite Hs in Heq. done.
    - destruct (strip_group2 a b H2) as (? & ? & ? & _ & Hs & _). rewrite Hs in Heq. done.
    - destruct (strip_group3 a b c r H2) as (? & ? & ? & ? & _ & Hs & _).
      rewrite Hs in Heq. done. }
  destruct u1 as [|a [|b [|c r]]]; destruct u2 as [|a' [|b' [|c' r']]].
  all: try done.
  all: repeat match goal with
       | H : no_plus_slash (base64 (String ?a "")) = true |- _ =>
           let Hs := fresh "Hs" in
           destruct (strip_group1 a H) as (? & ? & (? & ?) & Hs & ?);
           rewrite Hs in Heq; clear H
       | H : no_plus_slash (base64 (String ?a (String ?b ""))) = true |- _ =>
           let Hs := fresh "Hs" in
           destruct (strip_group2 a b H) as (? & ? & ? & (? & ? & ?) & Hs & ? & ?);
           rewrite Hs in Heq; clear H
       | H : no_plus_slash (base64 (String ?a (String ?b (String ?c ?r)))) = true |- _ =>
           let Hs := fresh "Hs" in
           destruct (strip_group3 a b c r H)
             as (? & ? & ? & ? & (? & ? & ? & ?) & Hs & ? & ? & ? & ?);
           rewrite Hs in Heq; clear H
       end.
  all: try discriminate Heq.
  all: simplify_eq/=.
  all: repeat match goal with
       | H : b64_char ?s = b64_char ?t |- _ =>
           apply b64_char_inj in H; [subst|done..]
       end.
  all: repeat match goal with
       | H1 : ?d = N_of_ascii ?a, H2 : ?d = N_of_ascii ?b |- _ =>
           assert (a = b) by (apply N_of_ascii_inj; congruence); subst; clear H2
       end.
  all: try done.
  f_equal. f_equal. f_equal. apply IH; [lia|done..].
Qed.

Lemma strip_all_alnum s : all_alnum (strip_non_alnum s) = true.
Proof.
  induction s as [|c s IH]; simpl; [done|].
  destruct (is_alnum c) eqn:Hc; simpl; [by rewrite Hc|done].
Qed.

Lemma append_length (a b : string) :
  String.length (a +:+ b) = (String.length a + String.length b)%nat.
Proof. induction a as [|c a IH]; simpl; [done|]. by rewrite IH. Qed.

Lemma join_inj c d1 d2 : join c d1 = join c d2 → d1 = d2.
Proof.
  unfold join. destruct c as [|x c]; [done|].
  destruct d1 as [|y1 d1], d2 as [|y2 d2]; [done| | |].
  - intros H. apply (f_equal String.length) in H.
    rewrite append_length in H. simpl in H. lia.
  - intros H. apply (f_equal String.length) in H.
    rewrite append_length in H. simpl in H. lia.
  - intros H. apply (inj (String.app (String x c))) in H.
    simpl in H. by injection H as -> ->.
Qed.

Lemma b64_char_low_alnum n : (n < 62)%N → is_alnum (b64_char n) = true.
Proof.
  intros Hn.
  assert (forallb (λ n, is_alnum (b64_char n)) (below 62) = true) as H
    by (by vm_compute).
  by apply (forall_below _ 62 H).
Qed.

Lemma first_sextet_low a : (a < 248)%N → (N.shiftr a 2 < 62)%N.
Proof.
  intros Ha.
  assert (forallb (λ a, N.shiftr a 2 <? 62)%N (below 248) = true) as H
    by (by vm_compute).
  by apply N.ltb_lt, (forall_below _ 248 H).
Qed.

Lemma strip_base64_nonempty a rest :
  (N_of_ascii a < 248)%N → strip_non_alnum (base64 (String a rest)) ≠ "".
Proof.
  intros Ha.
  assert (∃ t, base64 (String a rest)
               = String (b64_char (N.shiftr (N_of_ascii a) 2)) t) as [t ->].
  { destruct rest as [|b [|c r]]; eexists; reflexivity. }
  simpl. by rewrite b64_char_low_alnum by (by apply first_sextet_low).
Qed.

Lemma CACHE_DIR_nonempty pf : CACHE_DIR pf ≠ "".
Proof.
  unfold CACHE_DIR, join. destruct (tmpdir pf); [done|].
  intros H. apply (f_equal String.length) in H.
  rewrite append_length in H. simpl in H. lia.
Qed.

(** X1. The cache path of a repository.  A URL is given by the bytes
    [Buffer.from] encodes it to.  The empty URL gets the cache root itself.
    A URL that is not empty and whose first byte is below [0xF8], as the
    first byte of every UTF-8 text is, gets a directory directly under the
    cache root whose name is not empty and is made of letters and digits
    only.  Where the encoding loses nothing the path tells URLs apart: two
    URLs whose base64 encodings contain neither [+] nor [/] and that get
    the same path have the same bytes. *)
Theorem getRepoCachePath_injective_when_clean (pf : Platform) (url1 url2 : string) :
  getRepoCachePath pf "" = CACHE_DIR pf
  ∧ (∀ a rest, url1 = String a rest → (N_of_ascii a < 248)%N →
       ∃ dirName, dirName ≠ "" ∧ all_alnum dirName = true
                  ∧ getRepoCachePath pf url1 = CACHE_DIR pf +:+ "/" +:+ dirName)
  ∧ (no_plus_slash (base64 url1) = true →
     no_plus_slash (base64 url2) = true →
     getRepoCachePath pf url1 = getRepoCachePath pf url2 →
     url1 = url2).
Proof.
  split; [|split].
  - unfold getRepoCachePath, join. simpl. pose proof (CACHE_DIR_nonempty pf).
    by destruct (CACHE_DIR pf).
  - intros a rest -> Ha. exists (strip_non_alnum (base64 (String a rest))).
    pose proof (strip_base64_nonempty a rest Ha) as Hne.
    split; [done|]. split; [apply strip_all_alnum|].
    unfold getRepoCachePath. cbv zeta. unfold join.
    pose proof (CACHE_DIR_nonempty pf).
    destruct (CACHE_DIR pf); [done|].
    by destruct (strip_non_alnum (base64 (String a rest))).
  - intros H1 H2 Heq. unfold getRepoCachePath in Heq. apply join_inj in Heq.
    by apply (base64_strip_inj_bounded (String.length url1) url1 url2).
Qed.

(** ** The single-flight rebuild *)

Lemma try_catch_total (body : M unit) w :
  ∃ w', try_catch body (ret tt) w = (Normal tt, w').
Proof. unfold try_catch, ret. destruct (body w) as [[[]|] w1]; by eexists. Qed.

Lemma updateInstalledSkillHashes_total w :
  ∃ w', updateInstalledSkillHashes w = (Normal tt, w').
Proof.
  unfold updateInstalledSkillHashes. unfold bind at 1, modify at 1.
  set (w0 := with_installedSkillHashes ∅ w).
  destruct (getInstalledSkillsDir_pure w0) as (d & Hd).
  unfold bind at 1. rewrite Hd.
  destruct d as [dir|]; [|by eexists].
  destruct (is_empty dir); [by eexists|].
  unfold bind at 1, existsSync at 1.
  destruct (fs_exists (host w0) dir); simpl; [|by eexists].
  apply try_catch_total.
Qed.

Lemma refresh_calls_buildIndex ws :
  snd (Indexing.refresh ws) = snd (Indexing.buildIndex (snd ws)).
Proof.
  unfold Indexing.refresh. unfold bind at 1, clearHashCache, modify at 1.
  destruct (updateInstalledSkillHashes_total (with_hashCache ∅ (fst ws))) as (w' & Hw).
  unfold bind at 1. rewrite Hw. done.
Qed.

Lemma settle_rebuilding p n : Indexing.settle p (rebuilding p n) = finished p n.
Proof.
  unfold Indexing.settle, rebuilding, finished. simpl.
  case_decide as Hp; [|by destruct Hp; left].
  simpl. by rewrite bool_decide_eq_true_2.
Qed.

Lemma settle_other q s :
  q ∉ Indexing.executing s → Indexing.settle q s = s.
Proof. intros Hq. unfold Indexing.settle. by case_decide. Qed.

Lemma finally_finished p n : Indexing.finally p (finished p n) = idle n.
Proof.
  unfold Indexing.finally, finished, idle. simpl.
  case_decide as Hp; [|by destruct Hp; left].
  simpl. by rewrite bool_decide_eq_true_2.
Qed.

Lemma finally_other q s :
  q ∉ Indexing.settled s → Indexing.finally q s = s.
Proof. intros Hq. unfold Indexing.finally. by case_decide. Qed.

Lemma single_flight_step e ws :
  single_flight (snd ws) → single_flight (snd (Indexing.step e ws)).
Proof.
  destruct ws as [w s]. intros (n & Hs). destruct e as [|q|q|f]; simpl in *.
  - rewrite refresh_calls_buildIndex. simpl.
    destruct Hs as [-> | (p & Hp & [-> | ->])].
    + exists (S n). right. exists n. split; [lia|]. by left.
    + exists n. right. exists p. split; [done|]. by left.
    + exists n. right. exists p. split; [done|]. by right.
  - destruct Hs as [-> | (p & Hp & [-> | ->])].
    + rewrite settle_other; [by exists n; left|]. simpl. apply not_elem_of_nil.
    + destruct (decide (q = p)) as [->|Hne].
      * rewrite settle_rebuilding. exists n. right. exists p. split; [done|]. by right.
      * rewrite settle_other.
        -- exists n. right. exists p. split; [done|]. by left.
        -- simpl. by intros ->%list_elem_of_singleton.
    + rewrite settle_other.
      * exists n. right. exists p. split; [done|]. by right.
      * simpl. apply not_elem_of_nil.
  - destruct Hs as [-> | (p & Hp & [-> | ->])].
    + rewrite finally_other; [by exists n; left|]. simpl. apply not_elem_of_nil.
    + rewrite finally_other.
      * exists n. right. exists p. split; [done|]. by left.
      * simpl. apply not_elem_of_nil.
    + destruct (decide (q = p)) as [->|Hne].
      * rewrite finally_finished. exists n. by left.
      * rewrite finally_other.
        -- exists n. right. exists p. split; [done|]. by right.
        -- simpl. by intros ->%list_elem_of_singleton.
  - by exists n.
Qed.

Lemma single_flight_run events ws :
  single_flight (snd ws) → single_flight (snd (Indexing.run events ws)).
Proof.
  revert ws. induction events as [|e events IH]; intros ws H; simpl; [done|].
  apply IH. by apply single_flight_step.
Qed.

(** C3 (amended). At every point of every run of the provider the guard is
    in one of three states, and in each of them at most one rebuild is
    executing.  Idle (no rebuild, the slot empty): [buildIndex()] starts a
    new rebuild and puts it in the slot, and two calls of [refresh()] with
    nothing in between start exactly that one rebuild, the second call
    joining it.  A rebuild [p] executing: it is in the slot, [buildIndex()]
    returns it and starts nothing, and so does each of two calls of
    [refresh()]; when [p] has settled and its [.finally] callback has run,
    the guard is idle again.  A rebuild [p] settled, its callback not yet
    run: [p] is still in the slot, [buildIndex()] and [refresh()] return
    the finished [p] and no rebuild is started or executing; the callback
    makes the guard idle. *)
Theorem rebuild_is_single_flight (w0 : World) (events : list Indexing.Event) :
  let ws := Indexing.run events (w0, Indexing.initial) in
  let s := snd ws in
  let n := Indexing.started s in
  let once := snd (Indexing.refresh ws) in
  let twice := snd (Indexing.refresh (Indexing.refresh ws)) in
  (length (Indexing.executing s) ≤ 1)%nat
  ∧ ((s = idle n
      ∧ Indexing.buildIndex s = (n, rebuilding n (S n))
      ∧ once = rebuilding n (S n)
      ∧ Indexing.buildIndex once = (n, once)
      ∧ twice = rebuilding n (S n))
     ∨ (∃ p, (p < n)%nat
          ∧ s = rebuilding p n
          ∧ Indexing.buildIndex s = (p, s)
          ∧ once = s ∧ twice = s
          ∧ Indexing.settle p s = finished p n
          ∧ Indexing.finally p (Indexing.settle p s) = idle n)
     ∨ (∃ p, (p < n)%nat
          ∧ s = finished p n
          ∧ Indexing.buildIndex s = (p, s)
          ∧ once = s ∧ twice = s
          ∧ Indexing.finally p s = idle n)).
Proof.
  intros ws s n once twice.
  assert (Hinv : single_flight s).
  { apply single_flight_run. exists 0%nat. by left. }
  unfold once, twice. rewrite !refresh_calls_buildIndex.
  change (snd ws) with s. unfold n. clearbody s. clear ws once twice n.
  destruct Hinv as (n & [-> | (p & Hp & [-> | ->])]); simpl.
  - split; [lia|]. left. by repeat split.
  - split; [lia|]. right. left. exists p.
    rewrite settle_rebuilding, finally_finished. by repeat split.
  - split; [lia|]. right. right. exists p.
    rewrite finally_finished. by repeat split.
Qed.

(** ** The worker pool *)
Section PoolProofs.
Context {T R : Type} (items : list T) (mapper : T → R).

















End PoolProofs.



(** ** The explicit order lists: what a reorder keeps *)

Lemma elem_of_List_filter {A} (p : A → bool) (l : list A) x :
  x ∈ List.filter p l ↔ x ∈ l ∧ p x = true.
Proof. rewrite !list_elem_of_In. apply filter_In. Qed.

Lemma List_filter_all {A} (p : A → bool) (l : list A) :
  (∀ x, x ∈ l → p x = true) → List.filter p l = l.
Proof.
  induction l as [|y l IH]; simpl; intros H; [done|].
  rewrite (H y) by left. f_equal. apply IH. intros x Hx. apply H. by right.
Qed.

Lemma List_filter_none {A} (p : A → bool) (l : list A) :
  (∀ x, x ∈ l → p x = false) → List.filter p l = [].
Proof.
  induction l as [|y l IH]; simpl; intros H; [done|].
  rewrite (H y) by left. apply IH. intros x Hx. apply H. by right.
Qed.

Lemma List_filter_ext_elem {A} (p q : A → bool) (l : list A) :
  (∀ x, x ∈ l → p x = q x) → List.filter p l = List.filter q l.
Proof.
  induction l as [|y l IH]; simpl; intros H; [done|].
  rewrite (H y) by left. rewrite IH; [done|]. intros x Hx. apply H. by right.
Qed.

Lemma ensureOrder_split existing keys :
  ensureOrder existing keys
  = List.filter (λ k, bool_decide (k ∈ keys)) existing
    ++ List.filter (λ k, negb (bool_decide (k ∈ existing))) keys.
Proof.
  unfold ensureOrder. f_equal. apply List_filter_ext_elem. intros k Hk.
  f_equal. apply bool_decide_ext. rewrite elem_of_List_filter.
  rewrite bool_decide_eq_true. tauto.
Qed.

Lemma ensureOrder_elem existing keys k :
  k ∈ ensureOrder existing keys ↔ k ∈ keys.
Proof.
  rewrite ensureOrder_split, elem_of_app, !elem_of_List_filter.
  rewrite bool_decide_eq_true, negb_true_iff, bool_decide_eq_false.
  destruct (decide (k ∈ existing)); tauto.
Qed.

(** X3. [ensureOrder] keeps the surviving keys of the stored order first,
    in their stored order, followed by the keys the stored order did not
    know, in the order of [keys]; its result holds exactly the keys of
    [keys]; and applying it again with the same keys changes nothing. *)
Theorem ensureOrder_exactly_keys (existing keys : list string) :
  ensureOrder existing keys
  = List.filter (λ k, bool_decide (k ∈ keys)) existing
    ++ List.filter (λ k, negb (bool_decide (k ∈ existing))) keys
  ∧ (∀ k, k ∈ ensureOrder existing keys ↔ k ∈ keys)
  ∧ ensureOrder (ensureOrder existing keys) keys = ensureOrder existing keys.
Proof.
  split; [apply ensureOrder_split|]. split; [apply ensureOrder_elem|].
  rewrite (ensureOrder_split (ensureOrder existing keys) keys).
  rewrite List_filter_all, List_filter_none, app_nil_r; [done| |].
  - intros k Hk. apply negb_false_iff, bool_decide_eq_true.
    by apply ensureOrder_elem.
  - intros k Hk. apply bool_decide_eq_true. by apply ensureOrder_elem in Hk.
Qed.

Lemma NoDup_List_filter {A} (p : A → bool) (l : list A) :
  NoDup l → NoDup (List.filter p l).
Proof.
  induction 1 as [|x l Hx Hl IH]; simpl; [constructor|].
  destruct (p x); [|done]. constructor; [|done].
  rewrite elem_of_List_filter. tauto.
Qed.

Lemma ensureOrder_NoDup existing keys :
  NoDup existing → NoDup keys → NoDup (ensureOrder existing keys).
Proof.
  intros He Hk. rewrite ensureOrder_split. apply NoDup_app. split; [|split].
  - by apply NoDup_List_filter.
  - intros k H1 H2. apply elem_of_List_filter in H1 as [H1 _].
    apply elem_of_List_filter in H2 as [_ H2].
    apply negb_true_iff, bool_decide_eq_false in H2. done.
  - by apply NoDup_List_filter.
Qed.

(** X4. When neither the stored order nor the live keys repeat a key,
    [ensureOrder] returns a duplicate-free rearrangement of the live keys:
    nothing is lost and nothing is listed twice. *)
Theorem ensureOrder_permutation (existing keys : list string) :
  NoDup existing → NoDup keys →
  NoDup (ensureOrder existing keys) ∧ ensureOrder existing keys ≡ₚ keys.
Proof.
  intros He Hk. split; [by apply ensureOrder_NoDup|].
  apply NoDup_Permutation; [by apply ensureOrder_NoDup|done|].
  intros k. apply ensureOrder_elem.
Qed.

Lemma reorderKey_decompose order X t :
  Some X ≠ t →
  ∃ before after,
    reorderKey order X t = before ++ X :: after
    ∧ before ++ after = List.filter (λ k, negb (bool_decide (k = X))) order
    ∧ ((t = None ∨ t = Some "" ∨ ∃ target, t = Some target ∧ target ∉ order) →
       after = []).
Proof.
  intros Hne. unfold reorderKey. rewrite decide_False by done.
  set (next := List.filter _ order).
  assert (Hend : ∃ before after,
             next ++ [X] = before ++ X :: after ∧ before ++ after = next
             ∧ after = []).
  { exists next, []. by rewrite app_nil_r. }
  destruct t as [target|]; [|destruct Hend as (b & a & ? & ? & ?); by exists b, a].
  destruct (is_empty target) eqn:He;
    [destruct Hend as (b & a & ? & ? & ?); by exists b, a|].
  destruct (indexOf target next) as [i|] eqn:Hi;
    [|destruct Hend as (b & a & ? & ? & ?); by exists b, a].
  exists (take i next), (drop i next). unfold splice_insert.
  split; [done|]. split; [apply take_drop|].
  intros [?|[Ht|(y & Hy & Hn)]]; [done| |].
  - injection Ht as ->. done.
  - injection Hy as <-. exfalso.
    assert (target ∈ next) as Hin.
    { rewrite <- (take_drop i next), (indexOf_drop _ _ _ Hi).
      apply elem_of_app. right. by left. }
    apply elem_of_List_filter in Hin as [Hin _]. done.
Qed.

(** X5. A drop moves the dragged key and nothing else: unless the key is
    dropped onto itself, the new order lists the dragged key exactly once,
    and all other keys in the relative order they had; with no target, an
    empty target or a target that is not in the order, the dragged key goes
    to the end. *)
Theorem reorderKey_moves_only_dragged (order : list string) (X : string)
    (t : option string) :
  Some X ≠ t →
  ∃ before after,
    reorderKey order X t = before ++ X :: after
    ∧ before ++ after = List.filter (λ k, negb (bool_decide (k = X))) order
    ∧ (X ∉ before) ∧ (X ∉ after)
    ∧ ((t = None ∨ t = Some "" ∨ ∃ target, t = Some target ∧ target ∉ order) →
       after = []).
Proof.
  intros Hne. destruct (reorderKey_decompose order X t Hne)
    as (before & after & Hr & Hba & Hend).
  exists before, after. repeat split; try done.
  - intros Hin. assert (X ∈ before ++ after) as H by (apply elem_of_app; by left).
    rewrite Hba in H. apply elem_of_List_filter in H as [_ H].
    apply negb_true_iff, bool_decide_eq_false in H. done.
  - intros Hin. assert (X ∈ before ++ after) as H by (apply elem_of_app; by right).
    rewrite Hba in H. apply elem_of_List_filter in H as [_ H].
    apply negb_true_iff, bool_decide_eq_false in H. done.
Qed.

Lemma List_filter_idemp {A} (p : A → bool) (l : list A) :
  List.filter p (List.filter p l) = List.filter p l.
Proof.
  apply List_filter_all. intros x Hx. by apply elem_of_List_filter in Hx as [_ ?].
Qed.

(** X6. Repeating a drop changes nothing: dropping the same key onto the
    same target a second time returns the order the first drop produced. *)
Theorem reorderKey_idempotent (order : list string) (X : string)
    (t : option string) :
  reorderKey (reorderKey order X t) X t = reorderKey order X t.
Proof.
  destruct (decide (Some X = t)) as [Heq|Hne].
  { unfold reorderKey. by rewrite !decide_True. }
  destruct (reorderKey_decompose order X t Hne) as (before & after & Hr & Hba & _).
  assert (List.filter (λ k, negb (bool_decide (k = X))) (reorderKey order X t)
          = List.filter (λ k, negb (bool_decide (k = X))) order) as Hnext.
  { rewrite Hr, List.filter_app. simpl. rewrite bool_decide_true by done. simpl.
    rewrite <- List.filter_app, Hba. apply List_filter_idemp. }
  unfold reorderKey at 1. rewrite decide_False by done. rewrite Hnext.
  unfold reorderKey. by rewrite decide_False.
Qed.

(** ** Moving a key by one place *)

Lemma moveKey_missing order key delta :
  indexOf key order = None →
  moveKey order key delta = moveKey (order ++ [key]) key delta.
Proof.
  intros Hi. rewrite moveKey_equation_1.
  destruct (inspect (indexOf key order)) as [[j|] Hj]; simpl; congruence.
Qed.






Lemma moveKey_found_permutation order key delta i :
  indexOf key order = Some i → moveKey order key delta ≡ₚ order.
Proof.
  intros Hi. rewrite (moveKey_found _ _ _ i Hi). cbv zeta.
  destruct (_ || _)%bool; [done|].
  unfold splice_insert, splice_remove.
  set (r := take i order ++ drop (S i) order).
  rewrite <- Permutation_middle, take_drop. subst r.
  rewrite Permutation_middle, <- (indexOf_drop _ _ _ Hi).
  by rewrite take_drop.
Qed.

(** X8. [moveKey] never loses or duplicates a key: when the key is in the
    order the result is a rearrangement of the order; when it is not, the
    key is added once and the result is a rearrangement of the order with
    the key. *)
Theorem moveKey_permutation (order : list string) (key : string) (delta : Delta) :
  moveKey order key delta
  ≡ₚ (if decide (key ∈ order) then order else order ++ [key]).
Proof.
  destruct (indexOf key order) as [i|] eqn:Hi.
  - rewrite decide_True.
    + by apply (moveKey_found_permutation _ _ _ i).
    + rewrite <- (take_drop i order), (indexOf_drop _ _ _ Hi).
      apply elem_of_app. right. by left.
  - pose proof (indexOf_None _ _ Hi) as Hn.
    rewrite decide_False by done. rewrite moveKey_missing by done.
    apply (moveKey_found_permutation _ _ _ (length order)).
    by apply indexOf_app_last.
Qed.
(** ** The fingerprint cache and the disk *)

Lemma with_cache_log_id (w : World) :
  w = with_fsLog (fsLog w) (with_hashCache (hashCache w) w).
Proof. by destruct w. Qed.

(** X9. Looking a directory up twice in a row gives the same digest both
    times, whatever the disk and the cache hold; the second lookup leaves
    the cache as the first one left it, and no lookup touches the cache
    entry of another directory. *)
Theorem getCachedSkillHash_repeatable (dirPath : string) (w : World) :
  ∃ h w1 w2,
    getCachedSkillHash dirPath w = (Normal h, w1)
    ∧ getCachedSkillHash dirPath w1 = (Normal h, w2)
    ∧ hashCache w2 = hashCache w1
    ∧ ∀ d, d ≠ dirPath → hashCache w1 !! d = hashCache w !! d.
Proof.
  set (p := join dirPath "SKILL.md").
  rewrite getCachedSkillHash_run. fold p.
  destruct (fs_exists (host w) p) eqn:He.
  2:{ eexists _, _, _. split; [reflexivity|]. rewrite getCachedSkillHash_run. fold p.
      simpl. rewrite He. done. }
  destruct (fs_mtimeMs (host w) p) as [m|] eqn:Hm.
  2:{ eexists _, _, _. split; [reflexivity|]. rewrite getCachedSkillHash_run. fold p.
      simpl. rewrite He, Hm. done. }
  destruct (cache_hit w dirPath m) as [h|] eqn:Hh.
  { eexists _, _, _. split; [reflexivity|]. rewrite getCachedSkillHash_run. fold p.
    simpl. rewrite He, Hm. unfold cache_hit in *. simpl. rewrite Hh. done. }
  destruct (fs_read (host w) p) as [content|] eqn:Hr.
  2:{ eexists _, _, _. split; [reflexivity|]. rewrite getCachedSkillHash_run. fold p.
      simpl. rewrite He, Hm, Hr. unfold cache_hit in *. simpl. rewrite Hh. done. }
  eexists _, _, _. split; [reflexivity|]. rewrite getCachedSkillHash_run. fold p.
  simpl. rewrite He, Hm. unfold cache_hit. simpl. rewrite lookup_insert_eq. simpl.
  rewrite decide_True by done. split; [done|]. split; [done|].
  intros d Hd. by rewrite lookup_insert_ne.
Qed.

Lemma cache_coherent_empty pf : cache_coherent pf ∅.
Proof. intros d e H. by rewrite lookup_empty in H. Qed.

(** With a coherent cache a lookup returns the digest the disk has, and the
    cache stays coherent. *)
Lemma getCachedSkillHash_coherent dirPath w :
  cache_coherent (host w) (hashCache w) →
  ∃ l c,
    getCachedSkillHash dirPath w
    = (Normal (disk_fingerprint (host w) dirPath),
       with_fsLog l (with_hashCache c w))
    ∧ cache_coherent (host w) c.
Proof.
  intros Hco. rewrite getCachedSkillHash_run. unfold disk_fingerprint.
  set (p := join dirPath "SKILL.md").
  destruct (fs_exists (host w) p) eqn:He.
  2:{ exists (fsLog w ++ [ExistsSync p]), (hashCache w). split; [|done].
      unfold logged. by destruct w. }
  destruct (fs_mtimeMs (host w) p) as [m|] eqn:Hm.
  2:{ eexists _, (hashCache w). split; [|done].
      unfold logged. simpl. reflexivity. }
  destruct (cache_hit w dirPath m) as [h|] eqn:Hh.
  { unfold cache_hit in Hh.
    destruct (hashCache w !! dirPath) as [e|] eqn:Hc; [|done].
    case_decide as Hme; [|done]. injection Hh as <-.
    rewrite (Hco dirPath e Hc He) by (fold p; by rewrite Hm, Hme).
    unfold disk_fingerprint. fold p. rewrite He, Hm.
    eexists _, (hashCache w). split; [|done].
    unfold logged. simpl. reflexivity. }
  destruct (fs_read (host w) p) as [content|] eqn:Hr.
  2:{ eexists _, (hashCache w). split; [|done].
      unfold logged. simpl. reflexivity. }
  eexists _, _. split; [unfold logged, with_hashCache, with_fsLog; simpl; reflexivity|].
  intros d e Hd Hex Hmt.
  destruct (decide (d = dirPath)) as [->|Hne].
  - rewrite lookup_insert_eq in Hd. injection Hd as <-. simpl.
    unfold disk_fingerprint. fold p. by rewrite He, Hm, Hr.
  - rewrite lookup_insert_ne in Hd by done. by apply Hco.
Qed.
(** ** The installed table and the disk *)

Lemma getInstalledSkillsDir_active w :
  getInstalledSkillsDir w = (Normal (active_dir (host w)), w).
Proof.
  unfold getInstalledSkillsDir, getWorkspaceRoot, active_dir. unfold_m. simpl.
  destruct (workspaceRoot (host w)) as [r|]; [destruct (is_empty r)|]; done.
Qed.

Lemma getProjectSkillsDir_nonempty r ide :
  r ≠ "" → is_empty (getProjectSkillsDir r ide) = false.
Proof.
  intros Hr. unfold getProjectSkillsDir, join.
  destruct r; [done|]. by destruct (IdeConfig.skillsDir _).
Qed.

Lemma active_dir_nonempty pf dir : active_dir pf = Some dir → is_empty dir = false.
Proof.
  unfold active_dir. destruct (workspaceRoot pf) as [r|]; [|done].
  destruct (is_empty r) eqn:Hr; [done|]. intros [= <-].
  apply getProjectSkillsDir_nonempty. by apply is_empty_false.
Qed.

Lemma touched_id w :
  w = touched (fsLog w) (hashCache w) (installedSkillHashes w) (skillCache w) w.
Proof. by destruct w. Qed.

Lemma existsb_snoc {A} (p : A → bool) l x :
  existsb p (l ++ [x]) = existsb p l || p x.
Proof. rewrite existsb_app. simpl. by rewrite orb_false_r. Qed.

(** The scan of the installed skills directory, started with a coherent
    cache: whatever the disk does, it returns, and the table it builds is
    the one the disk holds. *)
Lemma updateInstalledSkillHashes_reads_disk w :
  cache_coherent (host w) (hashCache w) →
  ∃ l c t,
    updateInstalledSkillHashes w = (Normal tt, touched l c t (skillCache w) w)
    ∧ cache_coherent (host w) c
    ∧ ∀ name, t !! name = installed_on_disk (host w) name.
Proof.
  intros Hco. unfold updateInstalledSkillHashes.
  unfold bind at 1, modify at 1.
  set (w0 := with_installedSkillHashes ∅ w).
  unfold bind at 1. rewrite getInstalledSkillsDir_active.
  change (host w0) with (host w). unfold installed_on_disk.
  destruct (active_dir (host w)) as [dir|] eqn:Hdir.
  2:{ exists (fsLog w), (hashCache w), ∅. split; [by destruct w|]. split; [done|].
      intros name. apply lookup_empty. }
  rewrite (active_dir_nonempty _ _ Hdir).
  unfold bind at 1, existsSync at 1. change (host w0) with (host w).
  destruct (fs_exists (host w) dir) eqn:Hex; simpl.
  2:{ exists (fsLog w ++ [ExistsSync dir]), (hashCache w), ∅.
      split; [by destruct w|]. split; [done|]. intros name. apply lookup_empty. }
  unfold try_catch, bind at 1, readdirSync at 1, of_option. simpl.
  destruct (fs_readdir (host w) dir) as [entries|] eqn:Hrd.
  2:{ eexists _, (hashCache w), ∅.
      split; [unfold ret, touched, logged; simpl; reflexivity|]. split; [done|].
      intros name. apply lookup_empty. }
  set (w1 := logged (ReaddirSync dir) (logged (ExistsSync dir) w0)).
  set (body := λ entry : Dirent.t, _).
  pose (P := λ (pre : list Dirent.t) (w' : World),
    ∃ l c t, w' = touched l c t (skillCache w) w
      ∧ cache_coherent (host w) c
      ∧ ∀ name, t !! name
                = if existsb (λ e, bool_decide (Dirent.name e = name)
                                   && counted_skill (host w) dir e) pre
                  then Some (disk_fingerprint (host w) (join dir name))
                  else None).
  destruct (forEach_inv P body entries) with (pre := @nil Dirent.t) (w := w1)
    as (w' & Hrun & l & c & t & -> & Hc & Ht).
  - intros pre x w2 (l & c & t & -> & Hc & Ht). unfold body.
    destruct (Dirent.isDirectory x && negb (startsWith (Dirent.name x) ".")) eqn:Hvis.
    2:{ eexists. split; [reflexivity|]. exists l, c, t. split; [done|].
        split; [done|]. intros name. rewrite Ht, existsb_snoc. cbv beta.
        replace (counted_skill (host w) dir x) with false;
          [by rewrite andb_false_r, orb_false_r|].
        unfold counted_skill. by rewrite Hvis. }
    unfold bind at 1, existsSync at 1.
    change (host (touched l c t (skillCache w) w)) with (host w).
    destruct (fs_exists (host w) (join (join dir (Dirent.name x)) "SKILL.md")) eqn:Hmk.
    2:{ eexists. split; [reflexivity|]. eexists _, c, t.
        split; [unfold touched, logged; simpl; reflexivity|].
        split; [done|]. intros name. rewrite Ht, existsb_snoc. cbv beta.
        replace (counted_skill (host w) dir x) with false;
          [by rewrite andb_false_r, orb_false_r|].
        unfold counted_skill. by rewrite Hvis, Hmk. }
    set (w3 := logged _ _).
    destruct (getCachedSkillHash_coherent (join dir (Dirent.name x)) w3)
      as (l' & c' & Hgc & Hc'); [done|].
    unfold bind, modify. rewrite Hgc.
    eexists. split; [reflexivity|].
    exists l', c', (<[Dirent.name x := disk_fingerprint (host w) (join dir (Dirent.name x))]> t).
    split; [reflexivity|].
    split; [done|]. intros name. rewrite existsb_snoc. cbv beta.
    destruct (decide (Dirent.name x = name)) as [<-|Hname].
    + rewrite lookup_insert_eq.
      replace (counted_skill (host w) dir x) with true
        by (unfold counted_skill; by rewrite Hvis, Hmk).
      rewrite bool_decide_true by done. simpl. by rewrite orb_true_r.
    + rewrite lookup_insert_ne by done. rewrite Ht.
      rewrite (bool_decide_false (Dirent.name x = name)) by done.
      simpl. by rewrite orb_false_r.
  - eexists _, (hashCache w), ∅. split; [unfold touched, w1, logged; simpl; reflexivity|].
    split; [done|]. intros name. simpl. apply lookup_empty.
  - rewrite Hrun. exists l, c, t. split; [done|]. by split.
Qed.

Lemma refresh_sync_run w :
  ∃ l c t,
    (clearHashCache;;; updateInstalledSkillHashes;;; fire) w
    = (Normal tt, with_fired (S (fired w)) (touched l c t (skillCache w) w))
    ∧ cache_coherent (host w) c
    ∧ ∀ name, t !! name = installed_on_disk (host w) name.
Proof.
  destruct (updateInstalledSkillHashes_reads_disk (with_hashCache ∅ w))
    as (l & c & t & Hrun & Hc & Ht); [apply cache_coherent_empty|].
  exists l, c, t. unfold bind, clearHashCache, fire, modify. rewrite Hrun.
  done.
Qed.

(** X10. After [refresh()] the installed table is the one the disk holds:
    whatever the cache held before and whatever the disk does, the
    synchronous part of [refresh] returns, fires the change event once, and
    leaves under each name the digest of the marker file of the counted
    skill of that name in the active skills directory, and nothing under any
    other name. *)
Theorem refresh_table_reads_disk (w : World) (s : Indexing.State) :
  let w' := fst (Indexing.refresh (w, s)) in
  host w' = host w
  ∧ fired w' = S (fired w)
  ∧ (∀ name, installedSkillHashes w' !! name = installed_on_disk (host w) name)
  ∧ checkedSkills w' = checkedSkills w
  ∧ repoSkillsIndex w' = repoSkillsIndex w.
Proof.
  destruct (refresh_sync_run w) as (l & c & t & Hrun & _ & Ht).
  unfold Indexing.refresh. cbn [fst snd]. rewrite Hrun. cbn [fst snd].
  repeat split; try done.
Qed.
(** ** Match status and the disk *)

Lemma getSkillMatchStatus_coherent skill w :
  cache_coherent (host w) (hashCache w) →
  ∃ l c,
    getSkillMatchStatus skill w
    = (Normal (status_of (installedSkillHashes w !! Skill.name skill) (host w) skill),
       with_fsLog l (with_hashCache c w))
    ∧ cache_coherent (host w) c.
Proof.
  intros Hco.
  unfold getSkillMatchStatus, status_of, bind at 1, get at 1. simpl.
  destruct (installedSkillHashes w !! Skill.name skill) as [h|] eqn:Hh; simpl.
  2:{ exists (fsLog w), (hashCache w). by rewrite <- with_cache_log_id. }
  destruct (is_empty h) eqn:Heh; simpl.
  { exists (fsLog w), (hashCache w). rewrite <- with_cache_log_id.
    by destruct (Skill.localPath skill). }
  destruct (Skill.localPath skill) as [lp|] eqn:Hlp.
  2:{ exists (fsLog w), (hashCache w). by rewrite <- with_cache_log_id. }
  destruct (is_empty lp) eqn:Hel; simpl.
  { exists (fsLog w), (hashCache w). by rewrite <- with_cache_log_id. }
  unfold bind at 1, existsSync at 1. simpl.
  destruct (fs_exists (host w) lp) eqn:Hex; simpl.
  2:{ exists (fsLog w ++ [ExistsSync lp]), (hashCache w).
      unfold ret. split; [reflexivity|done]. }
  destruct (getCachedSkillHash_coherent lp (logged (ExistsSync lp) w))
    as (l & c & Hrun & Hc); [done|].
  unfold bind, ret. rewrite Hrun.
  exists l, c. split; [|done]. simpl.
  destruct (decide (h = disk_fingerprint (host w) lp)) as [->|Hne].
  - by rewrite decide_True.
  - rewrite decide_False; [done|]. congruence.
Qed.

Lemma annotate_run s w :
  cache_coherent (host w) (hashCache w) →
  let s' := with_matchStatus
              (status_of (installedSkillHashes w !! Skill.name s) (host w) s) s in
  ∃ l c,
    annotate s w
    = (Normal s',
       touched l c (installedSkillHashes w)
               (<[getSkillKey s := s']> (skillCache w)) w)
    ∧ cache_coherent (host w) c.
Proof.
  intros Hco s'. destruct (getSkillMatchStatus_coherent s w Hco) as (l & c & Hrun & Hc).
  exists l, c. split; [|done].
  unfold annotate, bind, modify, ret. rewrite Hrun. done.
Qed.

Lemma mapM_inv {A B} (I : World → Prop) (f : A → M B) (g : A → B) l :
  (∀ x w, I w → ∃ w', f x w = (Normal (g x), w') ∧ I w') →
  ∀ w, I w → ∃ w', mapM f l w = (Normal (map g l), w') ∧ I w'.
Proof.
  intros Hf. induction l as [|x l IH]; intros w Hw; simpl.
  - by exists w.
  - destruct (Hf x w Hw) as (w1 & Hx & H1).
    destruct (IH w1 H1) as (w2 & Hl & H2).
    exists w2. unfold bind, ret. by rewrite Hx, Hl.
Qed.

(** The worlds the annotation of skills can reach from [w]: the cache stays
    coherent, the installed table and the index stay as they are, and the
    skill records satisfy [Q]. *)
Lemma annotate_inv (Q : gmap string Skill.t → Prop) w :
  (∀ k s st, Q k → Q (<[getSkillKey s := with_matchStatus st s]> k)) →
  let I := λ w', ∃ l c k, w' = touched l c (installedSkillHashes w) k w
                          ∧ cache_coherent (host w) c ∧ Q k in
  ∀ s w', I w' →
    ∃ w'', annotate s w'
           = (Normal (with_matchStatus
                        (status_of (installedSkillHashes w !! Skill.name s) (host w) s) s),
              w'')
           ∧ I w''.
Proof.
  intros HQ I s w' (l & c & k & -> & Hc & Hk).
  destruct (annotate_run s (touched l c (installedSkillHashes w) k w))
    as (l' & c' & Hrun & Hc'); [done|].
  eexists. split; [exact Hrun|].
  exists l', c', (<[getSkillKey s := with_matchStatus
                      (status_of (installedSkillHashes w !! Skill.name s) (host w) s) s]> k).
  split; [reflexivity|].
  split; [done|]. by apply HQ.
Qed.

Lemma normalizeRepoSkills_run (Q : gmap string Skill.t → Prop) skills w :
  (∀ k s st, Q k → Q (<[getSkillKey s := with_matchStatus st s]> k)) →
  cache_coherent (host w) (hashCache w) → Q (skillCache w) →
  ∃ l c k,
    normalizeRepoSkills skills w
    = (Normal (map (λ s, with_matchStatus
                           (status_of (installedSkillHashes w !! Skill.name s)
                                      (host w) s) s) skills),
       touched l c (installedSkillHashes w) k w)
    ∧ cache_coherent (host w) c ∧ Q k.
Proof.
  intros HQ Hco Hq.
  destruct (mapM_inv _ annotate _ skills (annotate_inv Q w HQ) w)
    as (w' & Hrun & l & c & k & -> & Hc & Hk).
  { exists (fsLog w), (hashCache w), (skillCache w). split; [apply touched_id|done]. }
  exists l, c, k. by split.
Qed.

Lemma recomputeRepoSkillStates_run (Q : gmap string Skill.t → Prop) w :
  (∀ k s st, Q k → Q (<[getSkillKey s := with_matchStatus st s]> k)) →
  cache_coherent (host w) (hashCache w) → Q (skillCache w) →
  ∃ l c k,
    recomputeRepoSkillStates w
    = (Normal tt,
       with_repoSkillsIndex
         (map (λ kv, (fst kv,
                      map (λ s, with_matchStatus
                                  (status_of (installedSkillHashes w !! Skill.name s)
                                             (host w) s) s) (snd kv)))
              (repoSkillsIndex w))
         (touched l c (installedSkillHashes w) k w))
    ∧ cache_coherent (host w) c ∧ Q k.
Proof.
  intros HQ Hco Hq. unfold recomputeRepoSkillStates.
  unfold bind at 1, get at 1.
  set (I := λ w', ∃ l c k, w' = touched l c (installedSkillHashes w) k w
                           ∧ cache_coherent (host w) c ∧ Q k).
  set (g := λ s, with_matchStatus
                   (status_of (installedSkillHashes w !! Skill.name s) (host w) s) s).
  destruct (mapM_inv I
              (λ kv : string * list Skill.t,
                 do skills <- mapM annotate (snd kv); ret (fst kv, skills))
              (λ kv, (fst kv, map g (snd kv)))
              (repoSkillsIndex w)) with (w := w)
    as (w' & Hrun & l & c & k & -> & Hc & Hk).
  - intros kv w1 H1.
    destruct (mapM_inv I annotate g (snd kv) (annotate_inv Q w HQ) w1 H1)
      as (w2 & Hrun2 & H2).
    exists w2. unfold bind, ret. by rewrite Hrun2.
  - exists (fsLog w), (hashCache w), (skillCache w). split; [apply touched_id|done].
  - exists l, c, k. split; [|done]. unfold bind at 1.
    change (mapM _ (repoSkillsIndex w) w)
      with (mapM (λ kv : string * list Skill.t,
                    do skills <- mapM annotate (snd kv); ret (fst kv, skills))
                 (repoSkillsIndex w) w).
    rewrite Hrun. done.
Qed.

(** X11. Reconciliation on a snapshot of the disk: clearing the hash cache,
    rebuilding the installed table and recomputing the states (the first
    three statements of [refreshInstalledAndLocal()]) always returns, and
    leaves every
    indexed skill with the match status the disk shows: NotInstalled unless
    the active skills directory holds a counted skill of that name with a
    readable marker and the skill has an existing clone, Matched when the
    digests of the two marker files are equal, Conflict when they differ;
    [installed] is set exactly for Matched; the order of the index and all
    other fields of the skills are kept, and the selection is untouched. *)
Theorem recompute_after_refresh_reads_disk (w : World) :
  ∃ w',
    (clearHashCache;;; updateInstalledSkillHashes;;; recomputeRepoSkillStates) w
    = (Normal tt, w')
    ∧ host w' = host w
    ∧ (∀ name, installedSkillHashes w' !! name = installed_on_disk (host w) name)
    ∧ repoSkillsIndex w' = index_on_disk (host w) (repoSkillsIndex w)
    ∧ checkedSkills w' = checkedSkills w.
Proof.
  destruct (updateInstalledSkillHashes_reads_disk (with_hashCache ∅ w))
    as (l & c & t & Hrun & Hc & Ht); [apply cache_coherent_empty|].
  set (w1 := touched l c t (skillCache (with_hashCache ∅ w)) (with_hashCache ∅ w)) in *.
  destruct (recomputeRepoSkillStates_run (λ _, True) w1)
    as (l' & c' & k & Hrun' & _ & _); [done|done|done|].
  eexists. unfold bind, clearHashCache, modify. rewrite Hrun. split; [exact Hrun'|].
  split; [done|]. split; [intros name; apply Ht|]. split; [|done].
  simpl. unfold index_on_disk, disk_status.
  apply map_ext. intros [url skills]. simpl. f_equal.
  apply map_ext. intros s. by rewrite Ht.
Qed.
(** ** The selection *)

Lemma setChecked_run skill checked w :
  setChecked skill checked w
  = (Normal tt,
     if checked
     then with_skillCache (<[getSkillKey skill := skill]> (skillCache w))
            (with_checkedSkills ({[getSkillKey skill]} ∪ checkedSkills w) w)
     else with_checkedSkills (checkedSkills w ∖ {[getSkillKey skill]}) w).
Proof. unfold setChecked. by destruct checked. Qed.

(** What [clearCheckedSkillsInRepo] does. *)
Lemma clearCheckedSkillsInRepo_run repo w :
  ∃ checked,
    clearCheckedSkillsInRepo repo w
    = (Normal tt, with_fired (S (fired w)) (with_checkedSkills checked w))
    ∧ ∀ k, k ∈ checked
           ↔ k ∈ checkedSkills w
             ∧ k ∉ map getSkillKey
                     (default [] (index_get (SkillRepo.url repo) (repoSkillsIndex w))).
Proof.
  unfold clearCheckedSkillsInRepo. unfold bind at 1, get at 1.
  set (skills := default [] _).
  set (body := λ skill : Skill.t, _).
  pose (P := λ (pre : list Skill.t) (w' : World),
    ∃ checked, w' = with_checkedSkills checked w
      ∧ ∀ k, k ∈ checked ↔ k ∈ checkedSkills w ∧ k ∉ map getSkillKey pre).
  destruct (forEach_inv P body skills) with (pre := @nil Skill.t) (w := w)
    as (w' & Hrun & checked & -> & Hchecked).
  - intros pre x w1 (checked & -> & Hc). eexists. split; [reflexivity|].
    eexists. split; [reflexivity|]. intros k. simpl.
    rewrite elem_of_difference, elem_of_singleton, Hc, map_app, elem_of_app.
    simpl. rewrite list_elem_of_singleton. unfold not. tauto.
  - exists (checkedSkills w). split; [by destruct w|]. intros k. simpl.
    split; [|tauto]. intros Hk. split; [done|]. apply not_elem_of_nil.
  - exists checked. unfold bind, fire, modify. rewrite Hrun. done.
Qed.

(** X12. [clearCheckedSkillsInRepo] unchecks every skill the index lists
    for the repository, whether the search filter shows it or not, and
    nothing else; the skill records, the index and the installed table stay
    as they are, and the change event fires once. *)
Theorem clearCheckedSkillsInRepo_unchecks_repo (repo : SkillRepo.t) (w : World) :
  ∃ w',
    clearCheckedSkillsInRepo repo w = (Normal tt, w')
    ∧ (∀ k, k ∈ checkedSkills w'
            ↔ k ∈ checkedSkills w
              ∧ ¬ ∃ s, index_get (SkillRepo.url repo) (repoSkillsIndex w) = Some s
                       ∧ k ∈ map getSkillKey s)
    ∧ skillCache w' = skillCache w
    ∧ repoSkillsIndex w' = repoSkillsIndex w
    ∧ installedSkillHashes w' = installedSkillHashes w
    ∧ fired w' = S (fired w).
Proof.
  destruct (clearCheckedSkillsInRepo_run repo w) as (checked & Hrun & Hc).
  eexists. split; [exact Hrun|]. simpl. split; [|done].
  intros key. rewrite Hc. split; intros [Hk Hn]; (split; [done|]).
  - intros (s & Hs & Hin). rewrite Hs in Hn. done.
  - intros Hin. destruct (index_get _ _) as [s|] eqn:Hs; simpl in Hin.
    + apply Hn. by exists s.
    + by apply elem_of_nil in Hin.
Qed.

(** What [checkAllSkillsInRepo] does to the selection. *)
Lemma checkAllSkillsInRepo_run repo w :
  ∃ l c k checked,
    checkAllSkillsInRepo repo w
    = (Normal tt,
       with_fired (S (fired w))
         (with_checkedSkills checked
            (touched l c (installedSkillHashes w) k w)))
    ∧ checkedSkills w ⊆ checked
    ∧ (∀ key, key ∈ checked →
              key ∈ checkedSkills w
              ∨ key ∈ map getSkillKey
                        (default [] (index_get (SkillRepo.url repo)
                                               (repoSkillsIndex w))))
    ∧ (selection_ok (checkedSkills w) (skillCache w) → selection_ok checked k).
Proof.
  unfold checkAllSkillsInRepo. unfold bind at 1 2, get. simpl.
  set (skills := default [] _).
  set (visited := if negb (is_empty (searchQuery w)) then _ else _).
  assert (Hvis : ∀ x, x ∈ visited → x ∈ skills).
  { intros x Hx. unfold visited in Hx.
    destruct (negb _); [by apply filterSkills_elem in Hx|done]. }
  set (body := λ skill : Skill.t, _).
  pose (P := λ (pre : list Skill.t) (w' : World),
    ∃ l c k checked,
      w' = with_checkedSkills checked (touched l c (installedSkillHashes w) k w)
      ∧ checkedSkills w ⊆ checked
      ∧ (∀ key, key ∈ checked →
                key ∈ checkedSkills w ∨ key ∈ map getSkillKey pre)
      ∧ (selection_ok (checkedSkills w) (skillCache w) → selection_ok checked k)).
  assert (Hskip : ∀ pre x l c k checked,
    P pre (with_checkedSkills checked (touched l c (installedSkillHashes w) k w)) →
    P (pre ++ [x])
      (with_checkedSkills checked (touched l c (installedSkillHashes w) k w))).
  { intros pre x l c k checked (l0 & c0 & k0 & ch0 & Heq & Hsub & Hadd & Hok).
    exists l0, c0, k0, ch0. split; [done|]. split; [done|]. split; [|done].
    intros key Hkey. destruct (Hadd key Hkey) as [?|?]; [by left|].
    right. rewrite map_app. apply elem_of_app. by left. }
  assert (Hcheck : ∀ pre x l c k checked,
    P pre (with_checkedSkills checked (touched l c (installedSkillHashes w) k w)) →
    ∃ w'', setChecked x true
             (with_checkedSkills checked (touched l c (installedSkillHashes w) k w))
           = (Normal tt, w'')
           ∧ P (pre ++ [x]) w'').
  { intros pre x l c k checked (l0 & c0 & k0 & ch0 & Heq & Hsub & Hadd & Hok).
    rewrite setChecked_run. eexists. split; [reflexivity|].
    exists l, c, (<[getSkillKey x := x]> k), ({[getSkillKey x]} ∪ checked).
    assert (checked = ch0 ∧ k = k0) as [<- <-].
    { split.
      - by apply (f_equal checkedSkills) in Heq.
      - by apply (f_equal skillCache) in Heq. }
    split; [reflexivity|]. split; [set_solver|]. split.
    - intros key [->%elem_of_singleton|Hkey]%elem_of_union.
      + right. rewrite map_app. apply elem_of_app. right. by left.
      + destruct (Hadd key Hkey) as [?|?]; [by left|].
        right. rewrite map_app. apply elem_of_app. by left.
    - intros H0. destruct (Hok H0) as [H1 H2]. split.
      + intros key [->%elem_of_singleton|Hkey]%elem_of_union.
        * rewrite lookup_insert_eq. by eexists.
        * destruct (decide (key = getSkillKey x)) as [->|Hne].
          -- rewrite lookup_insert_eq. by eexists.
          -- rewrite lookup_insert_ne by done. by apply H1.
      + intros key s. destruct (decide (key = getSkillKey x)) as [->|Hne].
        * rewrite lookup_insert_eq. by intros [= <-].
        * rewrite lookup_insert_ne by done. apply H2. }
  destruct (forEach_inv P body visited) with (pre := @nil Skill.t) (w := w)
    as (w1 & Hrun & l & c & k & checked & -> & Hsub & Hadd & Hok).
  - intros pre x w1 HP. pose proof HP as (l & c & k & checked & -> & _).
    unfold body. destruct (Skill.matchStatus x) as [st|] eqn:Hst.
    + unfold bind at 1, ret at 1. case_decide as Hc.
      * eexists. split; [reflexivity|]. by apply Hskip.
      * by apply Hcheck.
    + set (w2 := with_checkedSkills _ _) in *.
      destruct (getSkillMatchStatus_run x w2) as (st & l' & c' & Hst' & _).
      unfold bind at 1. rewrite Hst'.
      assert (HP' : P pre (with_checkedSkills checked
                             (touched l' c' (installedSkillHashes w) k w))).
      { destruct HP as (l0 & c0 & k0 & ch0 & Heq & Hsub & Hadd & Hok).
        assert (checked = ch0 ∧ k = k0) as [<- <-].
        { split.
          - by apply (f_equal checkedSkills) in Heq.
          - by apply (f_equal skillCache) in Heq. }
        by exists l', c', k, checked. }
      case_decide as Hc.
      * eexists. split; [reflexivity|]. by apply (Hskip pre x l' c' k checked).
      * by apply (Hcheck pre x l' c' k checked).
  - exists (fsLog w), (hashCache w), (skillCache w), (checkedSkills w).
    split; [by destruct w|]. split; [done|]. split; [by left|done].
  - exists l, c, k, checked. unfold bind, fire, modify. rewrite Hrun.
    split; [done|]. split; [done|]. split; [|done].
    intros key Hkey. destruct (Hadd key Hkey) as [?|Hin]; [by left|]. right.
    rewrite app_nil_l in Hin.
    apply list_elem_of_In, in_map_iff in Hin as (x & <- & Hx).
    apply list_elem_of_In, in_map_iff. exists x. split; [done|].
    by apply list_elem_of_In, Hvis, list_elem_of_In.
Qed.

(** X13. Clearing undoes selecting: when none of the skills the index lists
    for a repository is checked, [checkAllSkillsInRepo] followed by
    [clearCheckedSkillsInRepo] for that repository leaves the selection
    exactly as it was. *)
Theorem clear_undoes_checkAllSkillsInRepo (repo : SkillRepo.t) (w : World) :
  (∀ s, s ∈ default [] (index_get (SkillRepo.url repo) (repoSkillsIndex w)) →
        getSkillKey s ∉ checkedSkills w) →
  ∃ w1 w2,
    checkAllSkillsInRepo repo w = (Normal tt, w1)
    ∧ clearCheckedSkillsInRepo repo w1 = (Normal tt, w2)
    ∧ checkedSkills w2 = checkedSkills w.
Proof.
  intros Hfree.
  destruct (checkAllSkillsInRepo_run repo w)
    as (l & c & k & checked & Hrun & Hsub & Hadd & _).
  set (w1 := with_fired _ _) in Hrun.
  destruct (clearCheckedSkillsInRepo_run repo w1) as (checked' & Hrun' & Hc).
  exists w1. eexists. split; [done|]. split; [exact Hrun'|]. simpl.
  apply set_eq. intros key. rewrite Hc. simpl. split.
  - intros [Hk Hn]. destruct (Hadd key Hk) as [?|?]; done.
  - intros Hk. split; [by apply Hsub|]. intros Hin.
    apply list_elem_of_In, in_map_iff in Hin as (x & <- & Hx).
    apply list_elem_of_In in Hx. by apply (Hfree x).
Qed.
(** ** The selection keeps its records *)

Lemma selection_ok_insert checked cache s :
  selection_ok checked cache →
  selection_ok ({[getSkillKey s]} ∪ checked) (<[getSkillKey s := s]> cache).
Proof.
  intros [H1 H2]. split.
  - intros key Hkey. destruct (decide (key = getSkillKey s)) as [->|Hne].
    + rewrite lookup_insert_eq. by eexists.
    + rewrite lookup_insert_ne by done. apply H1.
      apply elem_of_union in Hkey as [Hk%elem_of_singleton|Hk]; done.
  - intros key s'. destruct (decide (key = getSkillKey s)) as [->|Hne].
    + rewrite lookup_insert_eq. by intros [= <-].
    + rewrite lookup_insert_ne by done. apply H2.
Qed.

Lemma selection_ok_record checked cache s st :
  selection_ok checked cache →
  selection_ok checked (<[getSkillKey s := with_matchStatus st s]> cache).
Proof.
  intros [H1 H2]. split.
  - intros key Hkey. destruct (decide (key = getSkillKey s)) as [->|Hne].
    + rewrite lookup_insert_eq. by eexists.
    + rewrite lookup_insert_ne by done. by apply H1.
  - intros key s'. destruct (decide (key = getSkillKey s)) as [->|Hne].
    + rewrite lookup_insert_eq. by intros [= <-].
    + rewrite lookup_insert_ne by done. apply H2.
Qed.

Lemma selection_ok_subseteq checked checked' cache :
  checked' ⊆ checked → selection_ok checked cache → selection_ok checked' cache.
Proof. intros Hsub [H1 H2]. split; [|done]. intros k Hk. apply H1. by apply Hsub. Qed.

Lemma annotate_effect s w :
  ∃ st l c,
    annotate s w
    = (Normal (with_matchStatus st s),
       touched l c (installedSkillHashes w)
               (<[getSkillKey s := with_matchStatus st s]> (skillCache w)) w).
Proof.
  destruct (getSkillMatchStatus_run s w) as (st & l & c & Hrun & _).
  exists st, l, c. unfold annotate, bind, modify, ret. by rewrite Hrun.
Qed.

Lemma mapM_preserves {A B} (J : World → Prop) (f : A → M B) l :
  (∀ x w, J w → ∃ y w', f x w = (Normal y, w') ∧ J w') →
  ∀ w, J w → ∃ ys w', mapM f l w = (Normal ys, w') ∧ J w'.
Proof.
  intros Hf. induction l as [|x l IH]; intros w Hw; simpl.
  - by exists [], w.
  - destruct (Hf x w Hw) as (y & w1 & Hx & H1).
    destruct (IH w1 H1) as (ys & w2 & Hl & H2).
    exists (y :: ys), w2. unfold bind, ret. by rewrite Hx, Hl.
Qed.

Lemma forEach_preserves {A} (J : World → Prop) (body : A → M unit) l :
  (∀ x w, J w → ∃ w', body x w = (Normal tt, w') ∧ J w') →
  ∀ w, J w → ∃ w', forEach l body w = (Normal tt, w') ∧ J w'.
Proof.
  intros Hf. induction l as [|x l IH]; intros w Hw; simpl.
  - by exists w.
  - destruct (Hf x w Hw) as (w1 & Hx & H1).
    destruct (IH w1 H1) as (w2 & Hl & H2).
    exists w2. unfold bind. by rewrite Hx.
Qed.

Lemma annotate_selection s w :
  selection_ok (checkedSkills w) (skillCache w) →
  ∃ y w', annotate s w = (Normal y, w')
          ∧ selection_ok (checkedSkills w') (skillCache w').
Proof.
  intros Hok. destruct (annotate_effect s w) as (st & l & c & Hrun).
  eexists _, _. split; [exact Hrun|]. simpl. by apply selection_ok_record.
Qed.

(** The scan of the installed skills directory returns and touches nothing
    but the call log, the hash cache and the installed table. *)
Lemma updateInstalledSkillHashes_frame w :
  ∃ l c t, updateInstalledSkillHashes w
           = (Normal tt, touched l c t (skillCache w) w).
Proof.
  unfold updateInstalledSkillHashes.
  unfold bind at 1, modify at 1.
  set (w0 := with_installedSkillHashes ∅ w).
  unfold bind at 1. rewrite getInstalledSkillsDir_active.
  change (host w0) with (host w).
  destruct (active_dir (host w)) as [dir|] eqn:Hdir.
  2:{ exists (fsLog w), (hashCache w), ∅. by destruct w. }
  rewrite (active_dir_nonempty _ _ Hdir).
  unfold bind at 1, existsSync at 1. change (host w0) with (host w).
  destruct (fs_exists (host w) dir) eqn:Hex; simpl.
  2:{ exists (fsLog w ++ [ExistsSync dir]), (hashCache w), ∅. by destruct w. }
  unfold try_catch, bind at 1, readdirSync at 1, of_option. simpl.
  destruct (fs_readdir (host w) dir) as [entries|] eqn:Hrd.
  2:{ eexists _, (hashCache w), ∅. unfold ret, touched, logged. simpl. reflexivity. }
  set (w1 := logged (ReaddirSync dir) (logged (ExistsSync dir) w0)).
  set (body := λ entry : Dirent.t, _).
  pose (J := λ w' : World, ∃ l c t, w' = touched l c t (skillCache w) w).
  destruct (forEach_preserves J body entries) with (w := w1)
    as (w' & Hrun & l & c & t & ->).
  - intros x w2 (l & c & t & ->). unfold body.
    destruct (Dirent.isDirectory x && negb (startsWith (Dirent.name x) ".")).
    2:{ eexists. split; [reflexivity|]. by exists l, c, t. }
    unfold bind at 1, existsSync at 1.
    change (host (touched l c t (skillCache w) w)) with (host w).
    destruct (fs_exists (host w) (join (join dir (Dirent.name x)) "SKILL.md")).
    2:{ eexists. split; [reflexivity|]. by eexists _, c, t. }
    set (w3 := logged _ _).
    destruct (getCachedSkillHash_frame (join dir (Dirent.name x)) w3) as (h & c' & Hf).
    destruct (Hf w3 eq_refl eq_refl) as (l' & Hgc).
    unfold bind, modify. rewrite Hgc.
    eexists. split; [reflexivity|].
    by exists l', c', (<[Dirent.name x := h]> t).
  - by eexists _, (hashCache w), ∅.
  - rewrite Hrun. by exists l, c, t.
Qed.

Lemma checkAllMatchingRepoSkills_selection w :
  selection_ok (checkedSkills w) (skillCache w) →
  ∃ w', checkAllMatchingRepoSkills w = (Normal tt, w')
        ∧ selection_ok (checkedSkills w') (skillCache w').
Proof.
  intros Hok. unfold checkAllMatchingRepoSkills, getAllMatchingRepoSkills.
  unfold bind at 1 2 3, get, ret. simpl.
  set (visited := concat _).
  set (body := λ skill : Skill.t, _).
  destruct (forEach_preserves
              (λ w', selection_ok (checkedSkills w') (skillCache w'))
              body visited) with (w := w) as (w1 & Hrun & H1); [|done|].
  - intros x w1 H1. unfold body. case_decide.
    + by exists w1.
    + eexists. split; [reflexivity|]. simpl.
      by apply selection_ok_insert.
  - exists (with_fired (S (fired w1)) w1). unfold bind. by rewrite Hrun.
Qed.

Lemma exec_selection c w :
  selection_ok (checkedSkills w) (skillCache w) →
  ∃ w', exec c w = (Normal tt, w')
        ∧ selection_ok (checkedSkills w') (skillCache w').
Proof.
  intros Hok. destruct c as [skill [|]| | |repo|repo| | | | |url skills|q|pf]; cbn [exec].
  - rewrite setChecked_run. eexists. split; [reflexivity|]. simpl.
    by apply selection_ok_insert.
  - rewrite setChecked_run. eexists. split; [reflexivity|]. simpl.
    apply (selection_ok_subseteq (checkedSkills w)); [|done].
    intros k Hk. by apply elem_of_difference in Hk as [? _].
  - eexists. split; [reflexivity|]. simpl.
    apply (selection_ok_subseteq (checkedSkills w)); [|done].
    intros k Hk. by apply elem_of_empty in Hk.
  - by apply checkAllMatchingRepoSkills_selection.
  - destruct (checkAllSkillsInRepo_run repo w)
      as (l & c & k & checked & Hrun & _ & _ & Hk).
    eexists. split; [exact Hrun|]. simpl. by apply Hk.
  - destruct (clearCheckedSkillsInRepo_run repo w) as (checked & Hrun & Hc).
    eexists. split; [exact Hrun|]. simpl.
    apply (selection_ok_subseteq (checkedSkills w)); [|done].
    intros k Hk. by apply Hc in Hk as [? _].
  - eexists. split; [reflexivity|]. simpl.
    apply (selection_ok_subseteq (checkedSkills w)); [|done].
    intros k Hk. by apply elem_of_empty in Hk.
  - destruct (updateInstalledSkillHashes_frame w) as (l & c & t & Hrun).
    eexists. split; [exact Hrun|]. done.
  - eexists. split; [reflexivity|]. done.
  - unfold recomputeRepoSkillStates. unfold bind at 1, get at 1.
    destruct (mapM_preserves
                (λ w', selection_ok (checkedSkills w') (skillCache w'))
                (λ kv : string * list Skill.t,
                   do skills <- mapM annotate (snd kv); ret (fst kv, skills))
                (repoSkillsIndex w)) with (w := w)
      as (index' & w' & Hrun & H'); [|done|].
    + intros kv w1 H1.
      destruct (mapM_preserves _ annotate (snd kv) annotate_selection w1 H1)
        as (ys & w2 & Hrun2 & H2).
      eexists _, w2. unfold bind, ret. by rewrite Hrun2.
    + eexists. unfold bind at 1.
      change (mapM _ (repoSkillsIndex w) w)
        with (mapM (λ kv : string * list Skill.t,
                      do skills <- mapM annotate (snd kv); ret (fst kv, skills))
                   (repoSkillsIndex w) w).
      rewrite Hrun. split; [reflexivity|]. done.
  - destruct (mapM_preserves _ annotate skills annotate_selection w Hok)
      as (ys & w' & Hrun & H').
    eexists. unfold bind at 1.
    change (normalizeRepoSkills skills w) with (mapM annotate skills w).
    rewrite Hrun. split; [reflexivity|]. done.
  - eexists. split; [reflexivity|]. done.
  - eexists. split; [reflexivity|]. done.
Qed.

Lemma omap_records (cache : gmap string Skill.t) keys :
  (∀ k, k ∈ keys → is_Some (cache !! k)) →
  (∀ k s, cache !! k = Some s → getSkillKey s = k) →
  map getSkillKey (omap (λ key, cache !! key) keys) = keys.
Proof.
  intros H1 H2. induction keys as [|k keys IH]; [done|].
  destruct (H1 k) as (s & Hs); [by left|].
  cbn [omap list_omap]. rewrite Hs. simpl. rewrite (H2 _ _ Hs). f_equal.
  apply IH. intros k' Hk'. apply H1. by right.
Qed.

(** X14. The selection never loses a record: whatever methods of the
    provider are called after its construction, in whatever order, with the
    disk changing in between, every call returns, every checked identifier
    has a skill record stored under it, and [getCheckedSkills] returns one
    skill for each checked identifier, the skill itself carrying that
    identifier. *)
Theorem selection_keeps_records (pf : Platform) (calls : list Call) :
  ∃ w',
    forEach calls exec (new_provider pf) = (Normal tt, w')
    ∧ (∀ k, k ∈ checkedSkills w' →
            ∃ s, skillCache w' !! k = Some s ∧ getSkillKey s = k)
    ∧ ∃ skills,
        getCheckedSkills w' = (Normal skills, w')
        ∧ map getSkillKey skills ≡ₚ elements (checkedSkills w').
Proof.
  destruct (forEach_preserves
              (λ w', selection_ok (checkedSkills w') (skillCache w'))
              exec calls exec_selection (new_provider pf))
    as (w' & Hrun & H1 & H2).
  { split; [intros k Hk; by apply elem_of_empty in Hk|].
    intros k s Hs. cbn [new_provider skillCache] in Hs.
    by rewrite lookup_empty in Hs. }
  exists w'. split; [done|]. split.
  - intros k Hk. destruct (H1 k Hk) as (s & Hs). exists s. split; [done|].
    by apply H2.
  - eexists. split; [reflexivity|]. rewrite omap_records; [done| |done].
    intros k Hk. apply H1. by apply elem_of_elements.
Qed.
(** ** The configured repositories, continued *)

Lemma presets_are_preset r :
  r ∈ PRESET_REPOS → is_preset_url (SkillRepo.url r) = true.
Proof.
  intros Hr. apply is_preset_url_elem. change (map SkillRepo.url PRESET_REPOS)
    with (SkillRepo.url <$> PRESET_REPOS). by apply list_elem_of_fmap_2.
Qed.

(** A list made of the presets followed by repositories with other URLs is
    what [getRepos] returns when it is stored. *)
Lemma getRepos_stored users :
  (∀ r, r ∈ users → is_preset_url (SkillRepo.url r) = false) →
  getRepos (Some (PRESET_REPOS ++ users)) = PRESET_REPOS ++ users.
Proof.
  intros Hu. unfold getRepos. f_equal.
  change (default [] (Some (PRESET_REPOS ++ users))) with (PRESET_REPOS ++ users).
  rewrite List.filter_app, List_filter_none, List_filter_all; [done| |].
  - intros r Hr. by rewrite Hu.
  - intros r Hr. by rewrite presets_are_preset.
Qed.

Lemma getRepos_users config :
  ∃ users, getRepos config = PRESET_REPOS ++ users
           ∧ ∀ r, r ∈ users → is_preset_url (SkillRepo.url r) = false.
Proof.
  eexists. split; [reflexivity|]. intros r Hr.
  apply elem_of_List_filter in Hr as [_ Hr]. by apply negb_true_iff.
Qed.

Lemma existsb_url_false url (repos : list SkillRepo.t) :
  existsb (λ r, bool_decide (SkillRepo.url r = url)) repos = false
  ↔ url ∉ map SkillRepo.url repos.
Proof.
  induction repos as [|r repos IH]; simpl.
  - split; [intros _; apply not_elem_of_nil|done].
  - rewrite orb_false_iff, bool_decide_eq_false, IH, not_elem_of_cons.
    split; intros [? ?]; split; congruence.
Qed.

Lemma addRepo_new url config :
  url ∉ map SkillRepo.url (getRepos config) →
  ∃ name, addRepo url config
          = Some (getRepos config ++ [SkillRepo.mk url name None None]).
Proof.
  intros Hn. unfold addRepo.
  rewrite (proj2 (existsb_url_false url (getRepos config)) Hn).
  destruct (pop (split "/" (remove_first ".git" url))) as [p1 parts1].
  destruct (pop parts1) as [p2 parts2]. by eexists.
Qed.

Lemma not_preset_of_new url config :
  url ∉ map SkillRepo.url (getRepos config) → is_preset_url url = false.
Proof.
  intros Hn. apply not_true_iff_false. intros Hp%is_preset_url_elem.
  apply Hn. unfold getRepos. rewrite map_app. apply elem_of_app. by left.
Qed.

(** X15. Adding a repository: when the URL is already configured, as a
    preset or by the user, [addRepo] leaves the setting as it is; otherwise
    [getRepos] afterwards returns what it returned before followed by one
    new entry with that URL, no branch and no preset mark.  In both cases
    the URL is configured afterwards, and adding it again changes nothing. *)
Theorem addRepo_appends_once (url : string) (config : Config) :
  (url ∈ map SkillRepo.url (getRepos config) → addRepo url config = config)
  ∧ (url ∉ map SkillRepo.url (getRepos config) →
     ∃ name, getRepos (addRepo url config)
             = getRepos config ++ [SkillRepo.mk url name None None])
  ∧ url ∈ map SkillRepo.url (getRepos (addRepo url config))
  ∧ addRepo url (addRepo url config) = addRepo url config.
Proof.
  assert (Hold : url ∈ map SkillRepo.url (getRepos config) →
                 addRepo url config = config).
  { intros Hin. unfold addRepo.
    destruct (existsb _ (getRepos config)) eqn:He; [done|].
    by apply existsb_url_false in He. }
  assert (Hnew : url ∉ map SkillRepo.url (getRepos config) →
     ∃ name, getRepos (addRepo url config)
             = getRepos config ++ [SkillRepo.mk url name None None]).
  { intros Hn. destruct (addRepo_new url config Hn) as (name & ->).
    exists name. destruct (getRepos_users config) as (users & Hg & Hu).
    rewrite Hg, <- app_assoc. apply getRepos_stored.
    intros r [Hr|Hr%list_elem_of_singleton]%elem_of_app; [by apply Hu|].
    subst r. simpl. by apply (not_preset_of_new url config). }
  assert (Hin : url ∈ map SkillRepo.url (getRepos (addRepo url config))).
  { destruct (decide (url ∈ map SkillRepo.url (getRepos config))) as [H|H].
    - by rewrite Hold.
    - destruct (Hnew H) as (name & ->). rewrite map_app. apply elem_of_app.
      right. by left. }
  split; [done|]. split; [done|]. split; [done|].
  unfold addRepo at 1.
  destruct (existsb _ (getRepos (addRepo url config))) eqn:He; [done|].
  by apply existsb_url_false in He.
Qed.

Lemma filter_url_ne_new url name (repos : list SkillRepo.t) :
  url ∉ map SkillRepo.url repos →
  List.filter (λ r, negb (bool_decide (SkillRepo.url r = url)))
              (repos ++ [SkillRepo.mk url name None None])
  = repos.
Proof.
  intros Hn. rewrite List.filter_app. simpl. rewrite bool_decide_true by done.
  simpl. rewrite app_nil_r. apply List_filter_all. intros r Hr.
  apply negb_true_iff, bool_decide_eq_false. intros <-. apply Hn.
  change (map SkillRepo.url repos) with (SkillRepo.url <$> repos).
  by apply list_elem_of_fmap_2.
Qed.

(** X16. Removing undoes adding: for a URL that is not configured,
    [addRepo] followed by [removeRepo] leaves [getRepos] returning what it
    returned before; and removing a URL twice stores the same setting as
    removing it once. *)
Theorem removeRepo_undoes_addRepo (url : string) (config : Config) :
  (url ∉ map SkillRepo.url (getRepos config) →
   getRepos (removeRepo url (addRepo url config)) = getRepos config)
  ∧ removeRepo url (removeRepo url config) = removeRepo url config.
Proof.
  split.
  - intros Hn. destruct (addRepo_new url config Hn) as (name & Ha).
    unfold removeRepo.
    assert (getRepos (addRepo url config)
            = getRepos config ++ [SkillRepo.mk url name None None]) as ->.
    { rewrite Ha. destruct (getRepos_users config) as (users & Hg & Hu).
      rewrite Hg, <- app_assoc. apply getRepos_stored.
      intros r [Hr|Hr%list_elem_of_singleton]%elem_of_app; [by apply Hu|].
      subst r. simpl. by apply (not_preset_of_new url config). }
    rewrite filter_url_ne_new by done.
    destruct (getRepos_users config) as (users & Hg & Hu).
    rewrite Hg. by apply getRepos_stored.
  - unfold removeRepo. f_equal.
    destruct (getRepos_users config) as (users & Hg & Hu). rewrite Hg.
    set (keep := λ r : SkillRepo.t, negb (bool_decide (SkillRepo.url r = url))).
    rewrite List.filter_app.
    unfold getRepos at 1.
    change (default [] (Some ?l)) with l.
    rewrite !List.filter_app.
    rewrite (List_filter_none _ (List.filter keep PRESET_REPOS)).
    2:{ intros r [Hr _]%elem_of_List_filter. by rewrite presets_are_preset. }
    rewrite (List_filter_all _ (List.filter keep users)).
    2:{ intros r [Hr _]%elem_of_List_filter. by rewrite Hu. }
    simpl. by rewrite List_filter_idemp.
Qed.

Lemma findIndex_Some {A} (p : A → bool) (l : list A) i :
  findIndex p l = Some i → ∃ x, l !! i = Some x ∧ p x = true.
Proof.
  revert i. induction l as [|y l IH]; simpl; intros i Hi; [done|].
  destruct (p y) eqn:Hy.
  - injection Hi as <-. by exists y.
  - destruct (findIndex p l) as [j|]; [|done]. injection Hi as <-.
    by apply IH.
Qed.

Lemma findIndex_None {A} (p : A → bool) (l : list A) :
  findIndex p l = None → existsb p l = false.
Proof.
  induction l as [|y l IH]; simpl; [done|].
  destruct (p y); [done|]. destruct (findIndex p l); [done|]. auto.
Qed.

(** X17. Updating a repository that keeps its URL: an update of a preset
    repository never shows, [getRepos] returns afterwards what it returned
    before, the presets exactly as the program lists them; an update of a
    repository the user added replaces the first entry with that URL by the
    merged record and leaves every other entry and the order as they are;
    an update of a URL that is not configured leaves the setting as it is. *)
Theorem updateRepo_never_changes_presets (url : string)
    (updates : RepoUpdates.t) (config : Config) :
  RepoUpdates.url updates = None →
  (is_preset_url url = true →
   getRepos (updateRepo url updates config) = getRepos config)
  ∧ (is_preset_url url = false →
     ∀ index repo,
       findIndex (λ r, bool_decide (SkillRepo.url r = url)) (getRepos config)
       = Some index →
       getRepos config !! index = Some repo →
       getRepos (updateRepo url updates config)
       = <[index := spread repo updates]> (getRepos config))
  ∧ (url ∉ map SkillRepo.url (getRepos config) →
     updateRepo url updates config = config).
Proof.
  intros Hkeep.
  destruct (getRepos_users config) as (users & Hg & Hu).
  assert (Hcases : ∀ index repo,
    findIndex (λ r, bool_decide (SkillRepo.url r = url)) (getRepos config)
    = Some index →
    getRepos config !! index = Some repo →
    SkillRepo.url (spread repo updates) = url
    ∧ updateRepo url updates config
      = Some (<[index := spread repo updates]> (getRepos config))).
  { intros index repo Hi Hr. split.
    - destruct (findIndex_Some _ _ _ Hi) as (x & Hx & Hp).
      assert (x = repo) as -> by congruence.
      apply bool_decide_eq_true in Hp. unfold spread. simpl. by rewrite Hkeep.
    - unfold updateRepo. by rewrite Hi, Hr. }
  split; [|split].
  - intros Hp. unfold updateRepo.
    destruct (findIndex _ (getRepos config)) as [index|] eqn:Hi; [|done].
    destruct (findIndex_Some _ _ _ Hi) as (repo & Hr & Hrepo).
    apply bool_decide_eq_true in Hrepo. rewrite Hr.
    destruct (Hcases index repo eq_refl Hr) as [Hurl _].
    rewrite Hg in Hr |- *.
    destruct (decide (index < length PRESET_REPOS)%nat) as [Hlt|Hge].
    + rewrite insert_app_l by done. unfold getRepos.
      change (default [] (Some ?l)) with l. f_equal.
      rewrite List.filter_app, List_filter_none, List_filter_all; [done| |].
      * intros r Hr'. by rewrite Hu.
      * intros r Hr'. apply negb_false_iff.
        apply list_elem_of_lookup in Hr' as (j & Hj).
        destruct (decide (j = index)) as [->|Hne].
        -- rewrite list_lookup_insert_eq in Hj by done. injection Hj as <-.
           by rewrite Hurl.
        -- rewrite list_lookup_insert_ne in Hj by done.
           apply presets_are_preset. by apply list_elem_of_lookup_2 in Hj.
    + rewrite lookup_app_r in Hr by lia.
      apply list_elem_of_lookup_2, Hu in Hr. congruence.
  - intros Hp index repo Hi Hr.
    destruct (Hcases index repo Hi Hr) as [Hurl ->].
    rewrite Hg in Hr |- *.
    destruct (decide (index < length PRESET_REPOS)%nat) as [Hlt|Hge].
    + destruct (findIndex_Some _ _ _ Hi) as (x & Hx & Hpx).
      rewrite Hg in Hx. assert (x = repo) as -> by congruence.
      apply bool_decide_eq_true in Hpx.
      rewrite lookup_app_l in Hr by done.
      apply list_elem_of_lookup_2, presets_are_preset in Hr. congruence.
    + rewrite insert_app_r_alt by lia. apply getRepos_stored.
      intros r Hr'. apply list_elem_of_lookup in Hr' as (j & Hj).
      destruct (decide (j = (index - length PRESET_REPOS)%nat)) as [->|Hne].
      * rewrite list_lookup_insert_eq in Hj.
        -- injection Hj as <-. by rewrite Hurl.
        -- rewrite lookup_app_r in Hr by lia. by apply lookup_lt_Some in Hr.
      * rewrite list_lookup_insert_ne in Hj by done.
        apply Hu. by apply list_elem_of_lookup_2 in Hj.
  - intros Hn. unfold updateRepo.
    destruct (findIndex _ (getRepos config)) as [index|] eqn:Hi; [|done].
    destruct (findIndex_Some _ _ _ Hi) as (x & Hx & Hpx).
    apply bool_decide_eq_true in Hpx. exfalso. apply Hn.
    change (map SkillRepo.url (getRepos config))
      with (SkillRepo.url <$> getRepos config).
    rewrite <- Hpx. apply list_elem_of_fmap_2. by apply list_elem_of_lookup_2 in Hx.
Qed.
(** ** The target environment *)

Lemma IdeType_of_value_value ide : IdeType_of_value (IdeType_value ide) = Some ide.
Proof. by destruct ide. Qed.

Lemma resolveIdeType_not_SKILLS appName : resolveIdeType appName ≠ SKILLS.
Proof.
  unfold resolveIdeType.
  repeat (match goal with |- context [if ?b then _ else _] => destruct b end);
    done.
Qed.

Lemma is_empty_toLowerCase s : is_empty (toLowerCase s) = is_empty s.
Proof. by destruct s. Qed.

Lemma lower_ascii_range c :
  (N_of_ascii (lower_ascii c) <? 128)%N = (N_of_ascii c <? 128)%N.
Proof.
  assert (H : forallb (λ n, Bool.eqb
                (N_of_ascii (lower_ascii (ascii_of_N n)) <? 128)%N
                (N_of_ascii (ascii_of_N n) <? 128)%N)
              (below 256) = true) by (by vm_compute).
  pose proof (forall_below _ 256 H (N_of_ascii c) (byte_bound c)) as Hc.
  cbv beta in Hc. rewrite ascii_N_embedding in Hc. by apply Bool.eqb_prop.
Qed.

Lemma ascii_only_toLowerCase s : ascii_only (toLowerCase s) = ascii_only s.
Proof.
  induction s as [|c s IH]; simpl; [done|]. by rewrite lower_ascii_range, IH.
Qed.

Lemma ascii_only_IdeType_value ide : ascii_only (IdeType_value ide) = true.
Proof. by destruct ide. Qed.

(** X18. The override decides: when [AGENTSKILLS_IDE] holds the name of a
    target environment written in ASCII letters, in any mix of upper and
    lower case, [detectIde] returns that environment whatever the other
    variables and the application name say; and when the override is absent
    or is ASCII text, the environment [skills] is detected only if the
    override is the word [skills] in some mix of cases.  (Of a letter that
    is not ASCII only the bytes are modelled, not its lower case.) *)
Theorem detectIde_override_decides (env : Env.t) (appNameHint : option string) :
  (∀ v ide, Env.AGENTSKILLS_IDE env = Some v →
            toLowerCase v = IdeType_value ide →
            ascii_only v = true ∧ detectIde env appNameHint = ide)
  ∧ ((∀ v, Env.AGENTSKILLS_IDE env = Some v → ascii_only v = true) →
     detectIde env appNameHint = SKILLS →
     ∃ v, Env.AGENTSKILLS_IDE env = Some v
          ∧ ascii_only v = true ∧ toLowerCase v = "skills").
Proof.
  split.
  - intros v ide Hv Hl. split.
    { by rewrite <- ascii_only_toLowerCase, Hl, ascii_only_IdeType_value. }
    unfold detectIde. rewrite Hv. simpl.
    assert (is_empty v = false) as ->.
    { rewrite <- is_empty_toLowerCase, Hl. by destruct ide. }
    simpl. by rewrite Hl, IdeType_of_value_value.
  - intros Hascii. unfold detectIde.
    destruct (Env.AGENTSKILLS_IDE env) as [v|] eqn:Hv; simpl.
    + destruct (is_empty v) eqn:He; simpl.
      * repeat (match goal with
                | |- context [if ?b then _ else _] => destruct b
                end); intros H; try done; by apply resolveIdeType_not_SKILLS in H.
      * destruct (IdeType_of_value (toLowerCase v)) as [ide|] eqn:Hi.
        -- intros ->. exists v. split; [done|]. split; [by apply Hascii|].
           unfold IdeType_of_value in Hi. apply find_some in Hi as [_ Hi].
           apply bool_decide_eq_true in Hi. by rewrite <- Hi.
        -- repeat (match goal with
                   | |- context [if ?b then _ else _] => destruct b
                   end); intros H; try done; by apply resolveIdeType_not_SKILLS in H.
    + repeat (match goal with
              | |- context [if ?b then _ else _] => destruct b
              end); intros H; try done; by apply resolveIdeType_not_SKILLS in H.
Qed.

Lemma string_app_cons x (a b : string) : String x a +:+ b = String x (a +:+ b).
Proof. reflexivity. Qed.

Lemma string_app_nil_l (s : string) : "" +:+ s = s.
Proof. reflexivity. Qed.

Lemma string_app_assoc (a b c : string) : (a +:+ b) +:+ c = a +:+ (b +:+ c).
Proof.
  induction a as [|x a IH]; [done|]. rewrite !string_app_cons. by rewrite IH.
Qed.

Lemma drop_chars_app (u t : string) : drop_chars (String.length u) (u +:+ t) = t.
Proof.
  induction u as [|x u IH]; [by destruct t|]. rewrite string_app_cons. exact IH.
Qed.

(** Two ways of splitting one string: one of the two ends is the end of the
    other. *)
Lemma suffix_clash (a s b t : string) :
  a +:+ s = b +:+ t →
  drop_chars (String.length s - String.length t) s = t
  ∨ drop_chars (String.length t - String.length s) t = s.
Proof.
  revert b. induction a as [|x a IH]; intros b H.
  - rewrite (string_app_nil_l s) in H. subst s. left. rewrite append_length.
    replace (String.length b + String.length t - String.length t)%nat
      with (String.length b) by lia.
    apply drop_chars_app.
  - destruct b as [|y b].
    + rewrite (string_app_nil_l t) in H. subst t. right.
      rewrite (append_length (String x a)).
      replace (String.length (String x a) + String.length s - String.length s)%nat
        with (String.length (String x a)) by lia.
      apply (drop_chars_app (String x a)).
    + rewrite (string_app_cons x a s), (string_app_cons y b t) in H.
      injection H as _ H. by apply (IH b).
Qed.

Lemma project_skill_dirs :
  dedupe (map (λ kv, IdeConfig.skillsDir (snd kv)) IDE_CONFIGS)
  = [".agents/skills"; ".agent/skills"; ".codebuddy/skills"; ".cursor/skills";
     ".qoder/skills"; ".trae/skills"; ".github/skills"; ".windsurf/skills"].
Proof. by vm_compute. Qed.

Lemma getIdeConfig_skillsDir ide :
  IdeConfig.skillsDir (getIdeConfig ide)
  = match ide with
    | VSCODE => ".github/skills" | CURSOR => ".cursor/skills"
    | TRAE => ".trae/skills" | ANTIGRAVITY => ".agent/skills"
    | QODER => ".qoder/skills" | WINDSURF => ".windsurf/skills"
    | CODEBUDDY => ".codebuddy/skills" | SKILLS => ".agents/skills"
    end.
Proof. by destruct ide. Qed.

Lemma join_nonempty (a b : string) :
  a ≠ "" → b ≠ "" → join a b = a +:+ ("/" +:+ b).
Proof. intros Ha Hb. unfold join. destruct a; [done|]. by destruct b. Qed.

(** A directory below the home directory, as [getSkillDirectories] builds
    it. *)
Lemma global_dir_shape (home x : string) :
  x ≠ "" →
  ∃ pre, join (join home x) "skills" = pre +:+ (x +:+ "/skills").
Proof.
  intros Hx. destruct home as [|c h].
  - exists "". unfold join at 2. by rewrite join_nonempty.
  - exists (String c h +:+ "/"). rewrite (join_nonempty (String c h)) by done.
    rewrite join_nonempty; [|done|done].
    by rewrite !string_app_assoc.
Qed.

Lemma global_dir_not_project (home x root rel : string) :
  x ≠ "" → root ≠ "" → rel ≠ "" →
  drop_chars (String.length (x +:+ "/skills") - String.length ("/" +:+ rel))
             (x +:+ "/skills") ≠ "/" +:+ rel →
  drop_chars (String.length ("/" +:+ rel) - String.length (x +:+ "/skills"))
             ("/" +:+ rel) ≠ x +:+ "/skills" →
  join (join home x) "skills" ≠ join root rel.
Proof.
  intros Hx Hroot Hrel H1 H2 Heq.
  destruct (global_dir_shape home x Hx) as (pre & Hg).
  rewrite Hg, (join_nonempty root rel) in Heq by done.
  by destruct (suffix_clash _ _ _ _ Heq).
Qed.

(** Exactly one of the candidate directories is the active one. *)
Lemma one_active_directory pf root ide :
  root ≠ "" →
  length (List.filter
            (λ dir, bool_decide (SkillDirectory.path dir
                                 = getProjectSkillsDir root ide))
            (getSkillDirectories pf root)) = 1%nat.
Proof.
  intros Hroot. unfold getSkillDirectories, getProjectSkillsDir.
  rewrite project_skill_dirs, getIdeConfig_skillsDir.
  assert (Hproj : ∀ r1 r2, r1 ≠ r2 →
            bool_decide (join root r1 = join root r2) = false).
  { intros r1 r2 Hne. apply bool_decide_eq_false. by intros ?%join_inj. }
  assert (Hglob : ∀ x rel,
    x ≠ "" → rel ≠ "" →
    drop_chars (String.length (x +:+ "/skills") - String.length ("/" +:+ rel))
               (x +:+ "/skills") ≠ "/" +:+ rel →
    drop_chars (String.length ("/" +:+ rel) - String.length (x +:+ "/skills"))
               ("/" +:+ rel) ≠ x +:+ "/skills" →
    bool_decide (join (join (homedir pf) x) "skills" = join root rel) = false).
  { intros x rel ? ? ? ?. apply bool_decide_eq_false.
    by apply global_dir_not_project. }
  destruct ide; cbn [map app List.filter SkillDirectory.path toDisplayPath];
    repeat first [ rewrite bool_decide_true by done
                 | rewrite Hproj by done
                 | rewrite Hglob by done ];
    done.
Qed.

Lemma filter_active_surfaced pf groups :
  List.filter LocalSkillsGroup.isActive (List.filter (surfaced pf) groups)
  = List.filter LocalSkillsGroup.isActive groups.
Proof.
  induction groups as [|g groups IH]; [done|]. simpl. unfold surfaced at 1.
  destruct (LocalSkillsGroup.isActive g) eqn:Ha; simpl.
  - by rewrite Ha, IH.
  - destruct (_ && _); simpl; by rewrite ?Ha, IH.
Qed.

Lemma filter_active_group_of pf active dirs :
  length (List.filter LocalSkillsGroup.isActive (map (group_of pf active) dirs))
  = length (List.filter (λ dir, bool_decide (SkillDirectory.path dir = active)) dirs).
Proof.
  induction dirs as [|d dirs IH]; [done|]. simpl.
  destruct (bool_decide _); simpl; by rewrite IH.
Qed.

(** X19. With a workspace open, [getLocalSkillsGroups] returns exactly one
    active group, whatever the disk holds: the group of the directory the
    skills of the detected environment are installed into; no other
    candidate directory, project or personal, is ever taken for it. *)
Theorem exactly_one_active_group (w : World) (root : string) :
  workspaceRoot (host w) = Some root → root ≠ "" →
  ∃ groups w',
    getLocalSkillsGroups w = (Normal groups, w')
    ∧ length (List.filter LocalSkillsGroup.isActive groups) = 1%nat
    ∧ ∀ g, g ∈ groups →
           (LocalSkillsGroup.isActive g = true
            ↔ Some (LocalSkillsGroup.path g) = active_dir (host w)).
Proof.
  intros Hroot Hne.
  destruct (getLocalSkillsGroups_returns (host w) root Hroot Hne w eq_refl)
    as (w' & Hrun & _).
  eexists _, w'. split; [exact Hrun|]. split.
  - rewrite filter_active_surfaced, filter_active_group_of.
    by apply one_active_directory.
  - intros g Hg. apply elem_of_List_filter in Hg as [Hg _].
    apply list_elem_of_In, in_map_iff in Hg as (dir & <- & _).
    unfold active_dir. rewrite Hroot.
    apply is_empty_false in Hne. rewrite Hne. simpl.
    rewrite bool_decide_eq_true. split; [by intros ->|by intros [= ->]].
Qed.
(** ** The search filter *)

Lemma sublist_List_filter {A} (p : A → bool) (l : list A) :
  sublist (List.filter p l) l.
Proof.
  induction l as [|x l IH]; simpl; [constructor|].
  destruct (p x); by constructor.
Qed.

Lemma lower_ascii_idemp c : lower_ascii (lower_ascii c) = lower_ascii c.
Proof.
  assert (H : forallb (λ n, bool_decide
                (lower_ascii (lower_ascii (ascii_of_N n)) = lower_ascii (ascii_of_N n)))
              (below 256) = true) by (by vm_compute).
  pose proof (forall_below _ 256 H (N_of_ascii c) (byte_bound c)) as Hc.
  cbv beta in Hc. rewrite ascii_N_embedding in Hc.
  by apply bool_decide_eq_true in Hc.
Qed.

Lemma toLowerCase_idemp s : toLowerCase (toLowerCase s) = toLowerCase s.
Proof.
  induction s as [|c s IH]; simpl; [done|]. by rewrite lower_ascii_idemp, IH.
Qed.

Lemma toLowerCase_app a b :
  toLowerCase (a +:+ b) = toLowerCase a +:+ toLowerCase b.
Proof.
  induction a as [|c a IH]; [reflexivity|].
  rewrite string_app_cons. simpl. rewrite IH. by rewrite string_app_cons.
Qed.

Lemma prefix_app_l a b s :
  String.prefix (a +:+ b) s = true → String.prefix a s = true.
Proof.
  revert s. induction a as [|c a IH]; intros s H; [by destruct s|].
  rewrite string_app_cons in H. destruct s as [|d s]; [done|]. simpl in *.
  destruct (ascii_dec c d); [by apply IH|done].
Qed.

Lemma includes_unfold s q :
  includes s q
  = if String.prefix q s then true
    else match s with
         | "" => false
         | String _ s' => includes s' q
         end.
Proof. by destruct s. Qed.

Lemma includes_app_l s a b :
  includes s (a +:+ b) = true → includes s a = true.
Proof.
  induction s as [|c s IH]; rewrite (includes_unfold _ (a +:+ b)), (includes_unfold _ a).
  - destruct (String.prefix (a +:+ b) "") eqn:Hp; [|done].
    intros _. by rewrite (prefix_app_l a b "" Hp).
  - destruct (String.prefix (a +:+ b) (String c s)) eqn:Hp.
    + intros _. by rewrite (prefix_app_l a b _ Hp).
    + intros H. destruct (String.prefix a (String c s)); [done|]. by apply IH.
Qed.

(** X20. The search filter only narrows: an empty query shows every skill;
    any query shows some of the skills, in their order; filtering what is
    shown by the same query changes nothing; for a query of ASCII
    characters the case of its letters does not matter; and a query of
    ASCII characters, made longer by ASCII characters, never shows a skill
    that the query it extends did not show.  (Of a letter that is not ASCII
    only the bytes are modelled, not its lower case.) *)
Theorem filterSkills_narrows (query more : string) (skills : list Skill.t) :
  filterSkills "" skills = skills
  ∧ sublist (filterSkills query skills) skills
  ∧ filterSkills query (filterSkills query skills) = filterSkills query skills
  ∧ (ascii_only query = true →
     filterSkills (toLowerCase query) skills = filterSkills query skills)
  ∧ (ascii_only query = true → ascii_only more = true →
     ∀ s, s ∈ filterSkills (query +:+ more) skills →
          s ∈ filterSkills query skills).
Proof.
  split; [done|]. split; [|split; [|split]].
  - unfold filterSkills. destruct (is_empty query); [done|].
    apply sublist_List_filter.
  - unfold filterSkills. destruct (is_empty query); [done|].
    apply List_filter_idemp.
  - intros _. unfold filterSkills. rewrite is_empty_toLowerCase.
    destruct (is_empty query); [done|]. by rewrite toLowerCase_idemp.
  - intros _ _ s. unfold filterSkills.
    destruct (is_empty query) eqn:Hq.
    { intros Hs. destruct (is_empty (query +:+ more)); [done|].
      by apply elem_of_List_filter in Hs as [? _]. }
    assert (is_empty (query +:+ more) = false) as ->.
    { destruct query; [done|]. by rewrite string_app_cons. }
    rewrite !elem_of_List_filter, toLowerCase_app.
    intros [Hs Hm]. split; [done|].
    apply orb_true_iff in Hm as [Hm|Hm]; apply orb_true_iff; [left|right];
      by apply (includes_app_l _ _ (toLowerCase more)).
Qed.
(** ** The worker pool is bounded *)

Section PoolBound.
Context {T R : Type} (items : list T) (mapper : T → R).





End PoolBound.

(** ** Comparing two skill directories *)

Lemma computeSkillHash_value dirPath w :
  ∃ l, computeSkillHash dirPath w
       = (match marker_digest (host w) dirPath with
          | Some h => Normal h
          | None => Throw
          end, with_fsLog l w).
Proof.
  rewrite computeSkillHash_run. unfold marker_digest.
  destruct (fs_exists (host w) (join dirPath "SKILL.md")).
  - destruct (fs_read (host w) (join dirPath "SKILL.md")); by eexists.
  - by eexists.
Qed.

Lemma compareSkillDirectories_run dir1 dir2 w :
  ∃ l, compareSkillDirectories dir1 dir2 w
       = (if fs_exists (host w) dir1 && fs_exists (host w) dir2 then
            match marker_digest (host w) dir1, marker_digest (host w) dir2 with
            | Some h1, Some h2 => Normal (bool_decide (h1 = h2))
            | _, _ => Throw
            end
          else Normal false,
          with_fsLog l w).
Proof.
  unfold compareSkillDirectories. unfold bind at 1, existsSync at 1.
  destruct (fs_exists (host w) dir1); simpl.
  2:{ by eexists. }
  unfold bind at 1 2, existsSync at 1. simpl.
  destruct (fs_exists (host w) dir2); simpl.
  2:{ by eexists. }
  unfold bind at 1.
  destruct (computeSkillHash_value dir1
              (logged (ExistsSync dir2) (logged (ExistsSync dir1) w))) as (l1 & ->).
  simpl. destruct (marker_digest (host w) dir1) as [h1|]; [|by eexists].
  unfold bind at 1.
  destruct (computeSkillHash_value dir2
              (with_fsLog l1 (logged (ExistsSync dir2) (logged (ExistsSync dir1) w))))
    as (l2 & ->).
  simpl. destruct (marker_digest (host w) dir2) as [h2|]; by eexists.
Qed.

(** X22. [compareSkillDirectories] answers [false] as soon as one of the
    two directories is missing; for two existing directories it compares
    the digests of the marker files, so that two directories without a
    marker file compare equal and a directory compares equal to itself; it
    raises when a marker file that exists cannot be read; its answer does
    not depend on the order of its arguments; and it neither uses nor fills
    the hash cache. *)
Theorem compareSkillDirectories_cases (dir1 dir2 : string) (w : World) :
  let pf := host w in
  (fs_exists pf dir1 = false ∨ fs_exists pf dir2 = false →
   fst (compareSkillDirectories dir1 dir2 w) = Normal false)
  ∧ (fs_exists pf dir1 = true → fs_exists pf dir2 = true →
     fs_exists pf (join dir1 "SKILL.md") = false →
     fs_exists pf (join dir2 "SKILL.md") = false →
     fst (compareSkillDirectories dir1 dir2 w) = Normal true)
  ∧ (fs_exists pf dir1 = true → is_Some (marker_digest pf dir1) →
     fst (compareSkillDirectories dir1 dir1 w) = Normal true)
  ∧ (fs_exists pf dir1 = true → fs_exists pf dir2 = true →
     (marker_digest pf dir1 = None ∨ marker_digest pf dir2 = None) →
     fst (compareSkillDirectories dir1 dir2 w) = Throw)
  ∧ fst (compareSkillDirectories dir1 dir2 w)
    = fst (compareSkillDirectories dir2 dir1 w)
  ∧ hashCache (snd (compareSkillDirectories dir1 dir2 w)) = hashCache w.
Proof.
  intros pf.
  destruct (compareSkillDirectories_run dir1 dir2 w) as (l & Hrun).
  destruct (compareSkillDirectories_run dir2 dir1 w) as (l' & Hrun').
  destruct (compareSkillDirectories_run dir1 dir1 w) as (l'' & Hrun'').
  rewrite Hrun, Hrun', Hrun''. fold pf. cbn [fst snd].
  split; [|split; [|split; [|split; [|split]]]].
  - intros [-> | ->]; [done|]. by rewrite andb_false_r.
  - intros -> -> H1 H2. unfold marker_digest. by rewrite H1, H2.
  - intros -> [h Hh]. rewrite Hh. simpl. by rewrite bool_decide_true.
  - intros -> -> [-> | ->]; [done|]. by destruct (marker_digest pf dir1).
  - rewrite (andb_comm (fs_exists pf dir2)).
    destruct (_ && _); [|done].
    destruct (marker_digest pf dir1) as [h1|], (marker_digest pf dir2) as [h2|];
      try done.
    f_equal. apply bool_decide_ext. split; congruence.
  - done.
Qed.
(** ** Two views of what is installed *)

Lemma installed_names w :
  ∃ w1,
    updateInstalledSkillHashes w = (Normal tt, w1)
    ∧ host w1 = host w
    ∧ ∀ name, is_Some (installedSkillHashes w1 !! name) →
        ∃ dir entries e,
          active_dir (host w) = Some dir
          ∧ fs_readdir (host w) dir = Some entries
          ∧ e ∈ entries ∧ Dirent.name e = name
          ∧ counted_skill (host w) dir e = true.
Proof.
  destruct (active_dir (host w)) as [dir|] eqn:Hdir.
  2:{ unfold updateInstalledSkillHashes. unfold bind at 1, modify at 1.
      unfold bind at 1. rewrite getInstalledSkillsDir_active. simpl. rewrite Hdir.
      eexists. split; [reflexivity|]. split; [done|]. simpl.
      intros name [h Hh]. by rewrite lookup_empty in Hh. }
  destruct (fs_exists (host w) dir) eqn:Hex.
  2:{ unfold updateInstalledSkillHashes. unfold bind at 1, modify at 1.
      unfold bind at 1. rewrite getInstalledSkillsDir_active. simpl. rewrite Hdir.
      rewrite (active_dir_nonempty _ _ Hdir).
      unfold bind at 1, existsSync at 1. simpl. rewrite Hex. simpl.
      eexists. split; [reflexivity|]. split; [done|]. simpl.
      intros name [h Hh]. by rewrite lookup_empty in Hh. }
  destruct (fs_readdir (host w) dir) as [entries|] eqn:Hrd.
  2:{ unfold updateInstalledSkillHashes. unfold bind at 1, modify at 1.
      unfold bind at 1. rewrite getInstalledSkillsDir_active. simpl. rewrite Hdir.
      rewrite (active_dir_nonempty _ _ Hdir).
      unfold bind at 1, existsSync at 1. simpl. rewrite Hex. simpl.
      unfold try_catch, bind at 1, readdirSync at 1, of_option. simpl. rewrite Hrd.
      eexists. split; [reflexivity|]. split; [done|]. simpl.
      intros name [h Hh]. by rewrite lookup_empty in Hh. }
  destruct (installed_table_after_scan w dir entries) as (w1 & Hrun & Hhost & Ht);
    [rewrite getInstalledSkillsDir_active; cbn [fst]; by rewrite Hdir|done|done|].
  exists w1. split; [done|]. split; [done|].
  intros name Hn. apply Ht in Hn as (e & He & Hname & Hc).
  by exists dir, entries, e.
Qed.

(** X23. The two views of what is installed agree in one direction: every
    name that [updateInstalledSkillHashes] records in the installed table
    is a name for which [isSkillInstalled] answers [true]. *)
Theorem table_entry_implies_isSkillInstalled (w : World) (name : string) :
  ∃ w1,
    updateInstalledSkillHashes w = (Normal tt, w1)
    ∧ (is_Some (installedSkillHashes w1 !! name) →
       ∃ w2, isSkillInstalled name w1 = (Normal true, w2)).
Proof.
  destruct (installed_names w) as (w1 & Hrun & Hhost & Hnames).
  exists w1. split; [done|]. intros Hn.
  destruct (Hnames name Hn) as (dir & entries & e & Hdir & _ & _ & <- & Hc).
  unfold isSkillInstalled. unfold bind. rewrite getInstalledSkillsDir_active.
  rewrite Hhost, Hdir, (active_dir_nonempty _ _ Hdir).
  unfold existsSync. rewrite Hhost.
  unfold counted_skill in Hc. apply andb_true_iff in Hc as [_ ->]. by eexists.
Qed.
(** ** What the bulk selection checks *)

(** X24. [checkAllMatchingRepoSkills] checks every indexed skill that the
    search filter shows and whose stored status is not Conflict, keeps what
    was checked before, stores a record for each skill it checks, fires the
    change event once and leaves the index as it is. *)
Theorem checkAllMatchingRepoSkills_checks_shown (w : World) :
  ∃ w',
    checkAllMatchingRepoSkills w = (Normal tt, w')
    ∧ checkedSkills w ⊆ checkedSkills w'
    ∧ (∀ url skills s,
         (url, skills) ∈ repoSkillsIndex w →
         s ∈ filterSkills (searchQuery w) skills →
         Skill.matchStatus s ≠ Some Conflict →
         getSkillKey s ∈ checkedSkills w'
         ∧ is_Some (skillCache w' !! getSkillKey s))
    ∧ fired w' = S (fired w)
    ∧ repoSkillsIndex w' = repoSkillsIndex w.
Proof.
  unfold checkAllMatchingRepoSkills, getAllMatchingRepoSkills.
  unfold bind at 1 2 3, get, ret. cbn beta iota.
  set (visited := concat _).
  set (body := λ skill : Skill.t, _).
  pose (P := λ (pre : list Skill.t) (w' : World),
    ∃ checked k, w' = with_skillCache k (with_checkedSkills checked w)
      ∧ checkedSkills w ⊆ checked
      ∧ ∀ x, x ∈ pre → Skill.matchStatus x ≠ Some Conflict →
             getSkillKey x ∈ checked ∧ is_Some (k !! getSkillKey x)).
  destruct (forEach_inv P body visited) with (pre := @nil Skill.t) (w := w)
    as (w1 & Hrun & checked & k & -> & Hsub & Hall).
  - intros pre x w1 (checked & k & -> & Hsub & Hall). unfold body.
    case_decide as Hc.
    + eexists. split; [reflexivity|]. exists checked, k. split; [done|].
      split; [done|]. intros y [Hy|Hy%list_elem_of_singleton]%elem_of_app Hn.
      * by apply Hall.
      * by subst y.
    + rewrite setChecked_run. eexists. split; [reflexivity|].
      exists ({[getSkillKey x]} ∪ checked), (<[getSkillKey x := x]> k).
      split; [done|].
      split; [intros z Hz; apply elem_of_union; right; by apply Hsub|].
      intros y [Hy|Hy%list_elem_of_singleton]%elem_of_app Hn.
      * destruct (Hall y Hy Hn) as [H1 H2].
        split; [apply elem_of_union; by right|].
        destruct (decide (getSkillKey y = getSkillKey x)) as [->|Hne].
        -- rewrite lookup_insert_eq. by eexists.
        -- by rewrite lookup_insert_ne.
      * subst y. split; [apply elem_of_union; left; by apply elem_of_singleton|].
        rewrite lookup_insert_eq. by eexists.
  - exists (checkedSkills w), (skillCache w). split; [by destruct w|].
    split; [done|]. intros x Hx. by apply elem_of_nil in Hx.
  - eexists. unfold bind, fire, modify. rewrite Hrun. split; [reflexivity|].
    cbn [fst snd]. split; [done|]. split; [|done].
    intros url skills s Hkv Hs Hn. apply Hall; [|done].
    rewrite app_nil_l. unfold visited.
    apply list_elem_of_In, in_concat.
    exists (filterSkills (searchQuery w) skills). split; [|by apply list_elem_of_In].
    apply in_map_iff. exists (url, skills). split; [done|by apply list_elem_of_In].
Qed.
(** ** The order of the tree *)

Lemma NoDup_remove_one (l : list string) x :
  NoDup l → x ∈ l →
  l ≡ₚ x :: List.filter (λ k, negb (bool_decide (k = x))) l.
Proof.
  induction 1 as [|y l Hy Hl IH]; intros Hx; [by apply elem_of_nil in Hx|].
  simpl. destruct (decide (y = x)) as [->|Hne].
  - rewrite bool_decide_true by done. simpl.
    rewrite List_filter_all; [done|]. intros z Hz.
    apply negb_true_iff, bool_decide_eq_false. by intros ->.
  - rewrite bool_decide_false by done. simpl.
    apply elem_of_cons in Hx as [?|Hx]; [congruence|].
    rewrite (IH Hx) at 1. apply perm_swap.
Qed.

Lemma reorderKey_permutation order X t :
  NoDup order → X ∈ order → reorderKey order X t ≡ₚ order.
Proof.
  intros Hnd Hx. destruct (decide (Some X = t)) as [Heq|Hne].
  { unfold reorderKey. by rewrite decide_True. }
  destruct (reorderKey_decompose order X t Hne) as (before & after & -> & Hba & _).
  rewrite <- Permutation_middle, Hba. symmetry. by apply NoDup_remove_one.
Qed.

(** X25. Reordering never loses a repository: when neither the configured
    URLs nor the stored order repeat a URL, dropping a configured
    repository anywhere, or moving it up or down, leaves a repository order
    that lists every configured URL exactly once, saves that order in the
    memento, fires the change event once and leaves the order of the local
    groups as it is; and moving the active local group does nothing. *)
Theorem reorder_keeps_every_repository (config : Config) (o : Orders) (w : World)
    (key : string) (targetKey : option string) (delta : Delta) :
  let urls := map SkillRepo.url (getRepos config) in
  NoDup urls → NoDup (repoOrder o) → key ∈ urls →
  (∃ o' w',
     reorderAfterDrop config KindRepo key targetKey o w = (Normal o', w')
     ∧ repoOrder o' ≡ₚ urls ∧ NoDup (repoOrder o')
     ∧ (memento o' ≫= Memento.repoOrder) = (λ _, repoOrder o') <$> memento o
     ∧ localGroupOrder o' = localGroupOrder o
     ∧ fired w' = S (fired w))
  ∧ (∀ repo, SkillRepo.url repo = key →
     ∃ o' w',
       moveNode config (RepoNode repo) delta o w = (Normal o', w')
       ∧ repoOrder o' ≡ₚ urls ∧ NoDup (repoOrder o')
       ∧ (memento o' ≫= Memento.repoOrder) = (λ _, repoOrder o') <$> memento o
       ∧ localGroupOrder o' = localGroupOrder o
       ∧ fired w' = S (fired w))
  ∧ (∀ group, LocalSkillsGroup.isActive group = true →
     moveNode config (GroupNode group) delta o w = (Normal o, w)).
Proof.
  intros urls Hurls Ho Hkey.
  pose proof (ensureOrder_NoDup (repoOrder o) urls Ho Hurls) as Hnd.
  assert (Hperm : ensureOrder (repoOrder o) urls ≡ₚ urls).
  { apply NoDup_Permutation; [done|done|]. intros k. apply ensureOrder_elem. }
  assert (Hin : key ∈ ensureOrder (repoOrder o) urls) by (by apply ensureOrder_elem).
  split; [|split].
  - eexists _, _. split; [reflexivity|]. cbn [repoOrder set_repoOrder]. fold urls.
    assert (Hp : reorderKey (ensureOrder (repoOrder o) urls) key targetKey ≡ₚ urls).
    { rewrite reorderKey_permutation by done. exact Hperm. }
    split; [done|]. split; [by rewrite Hp|].
    split; [cbn [memento set_repoOrder]; by destruct (memento o)|].
    split; reflexivity.
  - intros repo <-. eexists _, _. split; [reflexivity|].
    cbn [repoOrder set_repoOrder]. fold urls.
    assert (Hp : moveKey (ensureOrder (repoOrder o) urls) (SkillRepo.url repo) delta
                 ≡ₚ urls).
    { destruct (indexOf_elem _ _ Hin) as (i & Hi).
      rewrite (moveKey_found_permutation _ _ _ i Hi). exact Hperm. }
    split; [done|]. split; [by rewrite Hp|].
    split; [cbn [memento set_repoOrder]; by destruct (memento o)|].
    split; reflexivity.
  - intros group Ha. unfold moveNode. by rewrite Ha.
Qed.

(** ** Sorting the root nodes *)

Lemma sort_insert_perm {A} (cmp : A → A → Z) x l : sort_insert cmp x l ≡ₚ x :: l.
Proof.
  induction l as [|y l IH]; simpl; [done|].
  destruct (cmp x y <=? 0)%Z; [done|]. rewrite IH. apply perm_swap.
Qed.

Lemma sort_perm {A} (cmp : A → A → Z) l : sort cmp l ≡ₚ l.
Proof.
  induction l as [|x l IH]; simpl; [done|]. by rewrite sort_insert_perm, IH.
Qed.

Lemma sort_insert_sorted {A} (key : A → Z) (cmp : A → A → Z) x l :
  (∀ y, y ∈ l → ((cmp x y ≤ 0)%Z → (key x ≤ key y)%Z)
                ∧ ((0 < cmp x y)%Z → (key y ≤ key x)%Z)) →
  sorted_by key l → sorted_by key (sort_insert cmp x l).
Proof.
  induction l as [|y l IH]; simpl; intros Hc Hs.
  - split; [|done]. intros z Hz. by apply elem_of_nil in Hz.
  - destruct Hs as [Hy Hs]. destruct (Hc y) as [H1 H2]; [by left|].
    destruct (Z.leb_spec (cmp x y) 0) as [Hle|Hgt].
    + simpl. split; [|by split].
      intros z [->|Hz]%elem_of_cons; [by apply H1|].
      etransitivity; [by apply H1|]. by apply Hy.
    + simpl. split.
      * intros z Hz. rewrite sort_insert_perm in Hz.
        apply elem_of_cons in Hz as [->|Hz]; [by apply H2|by apply Hy].
      * apply IH; [|done]. intros z Hz. apply Hc. by right.
Qed.

Lemma sort_sorted {A} (key : A → Z) (cmp : A → A → Z) l :
  (∀ x y, x ∈ l → y ∈ l →
          ((cmp x y ≤ 0)%Z → (key x ≤ key y)%Z)
          ∧ ((0 < cmp x y)%Z → (key y ≤ key x)%Z)) →
  sorted_by key (sort cmp l).
Proof.
  induction l as [|x l IH]; simpl; intros Hc; [done|].
  apply sort_insert_sorted.
  - intros y Hy. rewrite sort_perm in Hy. apply Hc; [by left|by right].
  - apply IH. intros y z Hy Hz. apply Hc; by right.
Qed.

(** A list that is in the order of the comparator is left as it is. *)
Lemma sort_in_order {A} (cmp : A → A → Z) l :
  (∀ pre x post y, l = pre ++ x :: post → y ∈ post → (cmp x y ≤ 0)%Z) →
  sort cmp l = l.
Proof.
  induction l as [|x l IH]; simpl; intros Hc; [done|].
  rewrite IH.
  2:{ intros pre y post z -> Hz. by apply (Hc (x :: pre) y post z). }
  destruct l as [|y l]; simpl; [done|].
  destruct (Z.leb_spec (cmp x y) 0) as [Hle|Hgt]; [done|].
  assert (cmp x y ≤ 0)%Z; [|lia].
  apply (Hc [] x (y :: l) y); [done|by left].
Qed.

Lemma lastIndexOf_last k pre post :
  k ∉ post → lastIndexOf k (pre ++ k :: post) = Some (length pre).
Proof.
  intros Hn.
  assert (Hpost : lastIndexOf k post = None).
  { induction post as [|y post IH]; simpl; [done|].
    apply not_elem_of_cons in Hn as [Hne Hn]. rewrite IH by done.
    by rewrite decide_False. }
  induction pre as [|y pre IH]; simpl.
  - rewrite Hpost. by rewrite decide_True.
  - by rewrite IH.
Qed.

Lemma lastIndexOf_None k l : k ∉ l → lastIndexOf k l = None.
Proof.
  induction l as [|y l IH]; simpl; intros Hn; [done|].
  apply not_elem_of_cons in Hn as [Hne Hn]. rewrite IH by done.
  by rewrite decide_False.
Qed.

Lemma lastIndexOf_elem k l : k ∈ l → is_Some (lastIndexOf k l).
Proof.
  induction l as [|y l IH]; simpl; intros Hk; [by apply elem_of_nil in Hk|].
  destruct (lastIndexOf k l) as [i|] eqn:Hi; [by eexists|].
  apply elem_of_cons in Hk as [->|Hk].
  - rewrite decide_True by done. by eexists.
  - destruct (IH Hk) as [? ?]. done.
Qed.

Lemma place_head o os : o ∉ os → place (o :: os) o = 0%Z.
Proof.
  intros Hn. unfold place.
  change (o :: os) with ([] ++ o :: os). by rewrite (lastIndexOf_last o [] os Hn).
Qed.

Lemma place_tail o os u :
  u ∈ os → place (o :: os) u = (place os u + 1)%Z.
Proof.
  intros Hu. unfold place. simpl.
  destruct (lastIndexOf_elem u os Hu) as (i & ->). simpl. lia.
Qed.

Lemma place_nonneg order u : (0 ≤ place order u)%Z.
Proof.
  unfold place, MAX_SAFE_INTEGER. destruct (lastIndexOf u order); simpl; lia.
Qed.

Lemma sorted_by_tail o os L :
  (∀ x, x ∈ L → x ∈ os) →
  sorted_by (place (o :: os)) L → sorted_by (place os) L.
Proof.
  induction L as [|x L IH]; simpl; intros Hin Hs; [done|].
  destruct Hs as [Hx Hs]. split.
  - intros y Hy. pose proof (Hx y Hy) as Hle.
    rewrite !place_tail in Hle; [lia| |].
    + apply Hin. by right.
    + apply Hin. by left.
  - apply IH; [|done]. intros y Hy. apply Hin. by right.
Qed.

(** A duplicate-free order list is the only arrangement of its keys that is
    in the order of their places. *)
Lemma sorted_perm_eq order L :
  NoDup order → L ≡ₚ order → sorted_by (place order) L → L = order.
Proof.
  revert L. induction order as [|o os IH]; intros L Hnd Hp Hs.
  - by apply Permutation_nil_r in Hp.
  - apply NoDup_cons in Hnd as [Ho Hnd].
    destruct L as [|h L]; [by apply Permutation_nil_cons in Hp|].
    destruct Hs as [Hh Hs].
    assert (HndL : NoDup (h :: L)) by (rewrite Hp; by constructor).
    apply NoDup_cons in HndL as [HhL HndL].
    assert (h = o) as ->.
    { assert (o ∈ h :: L) as [->|HoL]%elem_of_cons by (rewrite Hp; by left); [done|].
      pose proof (Hh o HoL) as Hle. rewrite (place_head o os Ho) in Hle.
      assert (h ∈ o :: os) as [->|Hhos]%elem_of_cons by (rewrite <- Hp; by left);
        [done|].
      rewrite (place_tail o os h Hhos) in Hle.
      pose proof (place_nonneg os h). lia. }
    f_equal. apply Permutation_cons_inv in Hp. apply IH; [done|done|].
    apply (sorted_by_tail o); [|done]. intros x Hx. by rewrite <- Hp.
Qed.

Lemma sorted_by_map {A B} (f : A → B) (key : B → Z) l :
  sorted_by (λ x, key (f x)) l → sorted_by key (map f l).
Proof.
  induction l as [|x l IH]; simpl; [done|]. intros [Hx Hs]. split; [|by apply IH].
  intros y Hy. apply list_elem_of_In, in_map_iff in Hy as (z & <- & Hz).
  by apply Hx, list_elem_of_In.
Qed.

Lemma sorted_by_before {A} (key : A → Z) pre g post :
  sorted_by key (pre ++ g :: post) → ∀ h, h ∈ pre → (key h ≤ key g)%Z.
Proof.
  induction pre as [|x pre IH]; simpl; intros Hs h Hh; [by apply elem_of_nil in Hh|].
  destruct Hs as [Hx Hs]. apply elem_of_cons in Hh as [->|Hh]; [|by apply IH].
  apply Hx. apply elem_of_app. right. by left.
Qed.

(** X26. [sortRepos] shows every repository once, in the stored order: its
    result is a rearrangement of the repositories it is given; when the
    stored order lists their URLs, each once, the repositories come out in
    exactly that order; and with no stored order, repositories with
    pairwise different URLs come out in the order in which they are
    configured. *)
Theorem sortRepos_follows_order (order : list string) (repos : list SkillRepo.t) :
  sortRepos order repos ≡ₚ repos
  ∧ (NoDup order → map SkillRepo.url repos ≡ₚ order →
     map SkillRepo.url (sortRepos order repos) = order)
  ∧ (NoDup (map SkillRepo.url repos) → sortRepos [] repos = repos).
Proof.
  split; [apply sort_perm|]. split.
  - intros Hnd Hp. apply sorted_perm_eq; [done| |].
    + unfold sortRepos. by rewrite sort_perm.
    + apply sorted_by_map, sort_sorted. intros x y Hx Hy.
      assert (Hdef : ∀ z, z ∈ repos → is_Some (lastIndexOf (SkillRepo.url z) order)).
      { intros z Hz. apply lastIndexOf_elem. rewrite <- Hp.
        apply list_elem_of_In, in_map, list_elem_of_In, Hz. }
      cbv beta zeta. rewrite bool_decide_true by (by apply Hdef).
      cbn [orb]. unfold place. lia.
  - intros Hnd. apply sort_in_order. intros pre x post y Hrepos Hy.
    simpl. rewrite Hrepos in Hnd |- *. rewrite map_app in Hnd |- *. simpl in *.
    apply list_elem_of_In, in_split in Hy as (a & b & ->).
    assert (SkillRepo.url x ∉ map SkillRepo.url (a ++ y :: b)) as Hx.
    { apply NoDup_app in Hnd as (_ & _ & Hnd). by apply NoDup_cons in Hnd as [? _]. }
    rewrite (lastIndexOf_last _ _ _ Hx).
    rewrite map_app in Hnd |- *. simpl in *.
    assert (SkillRepo.url y ∉ map SkillRepo.url b) as Hyb.
    { apply NoDup_app in Hnd as (_ & _ & Hnd). apply NoDup_cons in Hnd as [_ Hnd].
      apply NoDup_app in Hnd as (_ & _ & Hnd). by apply NoDup_cons in Hnd as [? _]. }
    replace (map SkillRepo.url pre ++ SkillRepo.url x
               :: map SkillRepo.url a ++ SkillRepo.url y :: map SkillRepo.url b)
      with ((map SkillRepo.url pre ++ SkillRepo.url x :: map SkillRepo.url a)
              ++ SkillRepo.url y :: map SkillRepo.url b)
      by (by rewrite <- app_assoc).
    rewrite (lastIndexOf_last _ _ _ Hyb). simpl. rewrite length_app. simpl. lia.
Qed.

(** X27. [sortLocalGroups] puts the active group first: its result is a
    rearrangement of the groups it is given in which no inactive group
    stands before an active one, whatever the stored order says. *)
Theorem sortLocalGroups_active_first (order : list string)
    (groups : list LocalSkillsGroup.t) :
  sortLocalGroups order groups ≡ₚ groups
  ∧ ∀ pre g post,
      sortLocalGroups order groups = pre ++ g :: post →
      LocalSkillsGroup.isActive g = true →
      ∀ h, h ∈ pre → LocalSkillsGroup.isActive h = true.
Proof.
  split; [apply sort_perm|]. intros pre g post Hs Hg h Hh.
  pose (key := λ x, if LocalSkillsGroup.isActive x then 0%Z else 1%Z).
  assert (Hsorted : sorted_by key (sortLocalGroups order groups)).
  { apply sort_sorted. intros x y _ _. unfold key.
    destruct (LocalSkillsGroup.isActive x), (LocalSkillsGroup.isActive y);
      simpl; lia. }
  rewrite Hs in Hsorted.
  pose proof (sorted_by_before key pre g post Hsorted h Hh) as Hle.
  unfold key in Hle. rewrite Hg in Hle.
  destruct (LocalSkillsGroup.isActive h); [done|lia].
Qed.


(** ** Concrete instances *)

(** C2, on the example platform: a first lookup computes the digest from the
    file's bytes and stores it with the modification time; a second lookup,
    the modification time being the same, returns the cached digest and
    reads nothing. *)
Lemma getCachedSkillHash_cases_witness :
  let dir := "/ws/.github/skills/pdf" in
  let p := join dir "SKILL.md" in
  let w1 := snd (getCachedSkillHash dir example_world) in
  getCachedSkillHash "/nowhere" example_world
  = (Normal "", logged (ExistsSync "/nowhere/SKILL.md") example_world)
  ∧ fst (getCachedSkillHash dir example_world) = Normal "md5:pdf v1"
  ∧ hashCache w1 !! dir = Some (CacheEntry.mk "md5:pdf v1" 1000)
  ∧ getCachedSkillHash dir w1
    = (Normal "md5:pdf v1", logged (StatSync p) (logged (ExistsSync p) w1)).
Proof.
  intros dir p w1. split; [|split; [|split]].
  - by apply (proj1 (getCachedSkillHash_cases "/nowhere" example_world)).
  - destruct (proj2 (proj2 (getCachedSkillHash_cases dir example_world))
                1000%Z "pdf v1" eq_refl eq_refl) as (w' & Hrun & _).
    + intros c Hc. unfold example_world in Hc. simpl in Hc.
      by rewrite lookup_empty in Hc.
    + reflexivity.
    + by rewrite Hrun.
  - by vm_compute.
  - apply (proj1 (proj2 (getCachedSkillHash_cases dir w1))
             1000%Z (CacheEntry.mk "md5:pdf v1" 1000)); by vm_compute.
Defined.

(** C1, as stated, fails: the table has an entry under the name [pdf] and the
    fingerprints differ (the clone is gone, its fingerprint is empty), yet the
    status is NotInstalled, not Conflict; and the table has an entry under
    [broken] (an empty fingerprint: the installed marker cannot be read) and
    the clone exists, yet the status is NotInstalled. *)
Lemma getSkillMatchStatus_entry_yet_not_installed :
  installedSkillHashes example_installed !! Skill.name example_pdf_gone
  = Some "md5:pdf v1"
  ∧ fingerprint "/cache/gone/pdf" example_installed = ""
  ∧ fst (getSkillMatchStatus example_pdf_gone example_installed)
    = Normal NotInstalled
  ∧ installedSkillHashes example_installed !! Skill.name example_broken
    = Some ""
  ∧ fingerprint "/cache/repo/pdf" example_installed = "md5:pdf v1"
  ∧ fst (getSkillMatchStatus example_broken example_installed)
    = Normal NotInstalled.
Proof. by vm_compute. Qed.

(** The statuses recorded in the example index are the computed ones. *)
Example example_statuses :
  map (λ s, fst (getSkillMatchStatus s example_installed))
      [example_pdf; example_csv; example_img; example_pdf_copy]
  = [Normal Matched; Normal Conflict; Normal NotInstalled; Normal Conflict].
Proof. by vm_compute. Qed.

(** C3, as stated, fails between the settling of a rebuild and the run of
    its [.finally] callback: the rebuild 0 is finished and still in the
    slot, two calls of [refresh()] join it, and no rebuild is started or
    executing; once the callback has run, a call of [refresh()] starts the
    rebuild 1. *)
Lemma refresh_joins_finished_rebuild :
  let ws := Indexing.run [Indexing.Refresh; Indexing.Settle 0]
              (example_world, Indexing.initial) in
  let twice := snd (Indexing.refresh (Indexing.refresh ws)) in
  snd ws = finished 0 1
  ∧ twice = finished 0 1
  ∧ Indexing.executing twice = []
  ∧ Indexing.started twice = 1%nat
  ∧ snd (Indexing.run [Indexing.Finally 0; Indexing.Refresh]
           (Indexing.refresh (Indexing.refresh ws)))
    = rebuilding 1 2.
Proof. by vm_compute. Qed.

(** Two calls of [refresh()] on a fresh provider start the one rebuild 0;
    a third call while it executes starts nothing. *)
Example refresh_twice_starts_one :
  snd (Indexing.run [Indexing.Refresh; Indexing.Refresh]
         (example_world, Indexing.initial)) = rebuilding 0 1
  ∧ snd (Indexing.run [Indexing.Refresh; Indexing.Refresh; Indexing.Refresh]
           (example_world, Indexing.initial)) = rebuilding 0 1.
Proof. by vm_compute. Qed.



(** Ten repositories, six workers, the promises fulfilled in a scrambled
    order: the results are in the order of the input.  The same with a
    bound of 10.5, and with no bound. *)
Example mapWithConcurrency_ten_by_six :
  Pool.mapWithConcurrency (seq 0 10) (Integer 6) (λ n, n * n)%nat
    [5; 5; 0; 3; 1; 4; 2; 5; 0; 3]%nat
  = Pool.Fulfilled (map (λ n, Some (n * n)%nat) (seq 0 10))
  ∧ Pool.mapWithConcurrency (seq 0 10) (Fraction 10) (λ n, n * n)%nat
      [9; 8; 7; 6; 5; 4; 3; 2; 1; 0]%nat
    = Pool.Fulfilled (map (λ n, Some (n * n)%nat) (seq 0 10))
  ∧ Pool.mapWithConcurrency (seq 0 10) PlusInfinity (λ n, n * n)%nat
      [0; 2; 4; 6; 8; 1; 3; 5; 7; 9]%nat
    = Pool.Fulfilled (map (λ n, Some (n * n)%nat) (seq 0 10)).
Proof. by vm_compute. Qed.

(** C5, as stated, fails when the drop target is the empty string, a key
    like any other in the order list: the dragged key goes to the end, not
    before the target.  And a key that stands last but also earlier is moved
    by moving it down. *)
Lemma reorderKey_empty_target :
  reorderKey ["a"; ""] "a" (Some "") = [""; "a"]
  ∧ moveKey ["a"; "b"; "a"] "a" PlusOne = ["b"; "a"; "a"].
Proof. by vm_compute. Qed.

Lemma reorder_placement_witness :
  reorderKey ["a"; "b"; "c"] "c" (Some "c") = ["a"; "b"; "c"]
  ∧ (∃ before after,
       reorderKey ["a"; "b"; "c"] "c" (Some "a") = before ++ "c" :: "a" :: after)
  ∧ moveKey ["c"; "a"; "b"] "c" MinusOne = ["c"; "a"; "b"]
  ∧ moveKey ["a"; "b"; "c"] "c" PlusOne = ["a"; "b"; "c"].
Proof.
  split; [|split; [|split]].
  - apply (proj1 (reorder_placement ["a"; "b"; "c"] "c" "c")).
  - apply (proj1 (proj2 (reorder_placement ["a"; "b"; "c"] "c" "a")));
      [done|done|by left].
  - by apply (proj1 (proj2 (proj2 (reorder_placement ["c"; "a"; "b"] "c" "c")))
                ["a"; "b"]).
  - apply (proj2 (proj2 (proj2 (reorder_placement ["a"; "b"; "c"] "c" "c")))
             ["a"; "b"]); [done|]. apply (bool_decide_unpack _). by vm_compute.
Defined.

(** C6, as stated, fails: a URL stored twice by the user appears twice. *)
Lemma getRepos_repeated_user_url :
  map SkillRepo.url
    (getRepos (Some [ SkillRepo.mk "https://example.org/x.git" "x" None None;
                      SkillRepo.mk "https://example.org/x.git" "x" None None ]))
  = map SkillRepo.url PRESET_REPOS
    ++ ["https://example.org/x.git"; "https://example.org/x.git"].
Proof. by vm_compute. Qed.

(** Removing a preset leaves it in place; removing a user entry removes it. *)
Example removeRepo_preset :
  let config :=
    Some [SkillRepo.mk "https://example.org/x.git" "x" None None] in
  map SkillRepo.url
    (getRepos (removeRepo "https://github.com/openai/skills.git" config))
  = map SkillRepo.url PRESET_REPOS ++ ["https://example.org/x.git"]
  ∧ getRepos (removeRepo "https://example.org/x.git" config) = PRESET_REPOS.
Proof. by vm_compute. Qed.

(** C7. The encoding is not injective on the code: the base64 text of the
    first URL ends in [/], that of the second in the padding [=], both
    characters are deleted, and the two different URLs get the same cache
    path. *)
Lemma getRepoCachePath_collision :
  getRepoCachePath example_platform "https://github.com/a/bc?"
  = "/tmp/agentskills-git-cache/aHR0cHM6Ly9naXRodWIuY29tL2EvYmM"
  ∧ getRepoCachePath example_platform "https://github.com/a/bc"
    = "/tmp/agentskills-git-cache/aHR0cHM6Ly9naXRodWIuY29tL2EvYmM"
  ∧ "https://github.com/a/bc?" ≠ "https://github.com/a/bc".
Proof. by vm_compute. Qed.

(** The presets [anthropics/skills] and [openai/skills] have encodings
    without [+] and [/], hence different cache paths. *)
Lemma getRepoCachePath_witness :
  no_plus_slash (base64 "https://github.com/anthropics/skills.git") = true
  ∧ no_plus_slash (base64 "https://github.com/openai/skills.git") = true
  ∧ getRepoCachePath example_platform "https://github.com/anthropics/skills.git"
    ≠ getRepoCachePath example_platform "https://github.com/openai/skills.git".
Proof.
  split; [done|]. split; [done|]. intros Heq.
  by pose proof (proj2 (proj2 (getRepoCachePath_injective_when_clean
    example_platform "https://github.com/anthropics/skills.git"
    "https://github.com/openai/skills.git")) eq_refl eq_refl Heq).
Defined.

(** The cache path of the preset [anthropics/skills], and of the empty
    URL. *)
Example getRepoCachePath_preset :
  getRepoCachePath example_platform "https://github.com/anthropics/skills.git"
  = "/tmp/agentskills-git-cache/aHR0cHM6Ly9naXRodWIuY29tL2FudGhyb3BpY3Mvc2tpbGxzLmdpdA"
  ∧ getRepoCachePath example_platform "" = "/tmp/agentskills-git-cache".
Proof. by vm_compute. Qed.

(** C8, as stated, fails: the inactive group [.cursor/skills] exists and
    has a subdirectory holding a marker file, but the name of that
    subdirectory starts with a dot, and the group is not in the result. *)
Lemma getLocalSkillsGroups_dot_directory :
  fs_exists example_platform "/ws/.cursor/skills" = true
  ∧ fs_readdir example_platform "/ws/.cursor/skills"
    = Some [Dirent.mk ".curated" true]
  ∧ fs_exists example_platform "/ws/.cursor/skills/.curated/SKILL.md" = true
  ∧ "/ws/.cursor/skills"
    ∈ map SkillDirectory.path (getSkillDirectories example_platform "/ws")
  ∧ fst (getLocalSkillsGroups example_world)
    = Normal [ LocalSkillsGroup.mk ".trae/skills" "/ws/.trae/skills"
                 "folder-library" true false;
               LocalSkillsGroup.mk ".github/skills" "/ws/.github/skills"
                 "folder-library" true true ].
Proof.
  repeat split; try by vm_compute.
  apply list_elem_of_In. vm_compute. tauto.
Qed.

Lemma getLocalSkillsGroups_iff_witness :
  workspaceRoot (host example_world) = Some "/ws"
  ∧ "/ws" ≠ ""
  ∧ ∃ groups w',
      getLocalSkillsGroups example_world = (Normal groups, w')
      ∧ LocalSkillsGroup.mk ".trae/skills" "/ws/.trae/skills"
          "folder-library" true false ∈ groups
      ∧ LocalSkillsGroup.mk ".cursor/skills" "/ws/.cursor/skills"
          "folder-library" true false ∉ groups.
Proof.
  split; [done|]. split; [done|].
  destruct (getLocalSkillsGroups_iff example_world "/ws" eq_refl)
    as (groups & w' & Hrun & _ & Hiff); [done|].
  exists groups, w'. split; [done|]. split.
  - apply (Hiff (SkillDirectory.mk "/ws/.trae/skills" ".trae/skills" true
                   "folder-library")).
    + apply list_elem_of_In. vm_compute. tauto.
    + right. split; [done|].
      exists [Dirent.mk "lint" true], (Dirent.mk "lint" true).
      repeat split; try done. by apply list_elem_of_singleton.
  - intros Hin.
    apply (Hiff (SkillDirectory.mk "/ws/.cursor/skills" ".cursor/skills" true
                   "folder-library")) in Hin.
    + destruct Hin as [Hact|(_ & entries & e & Hrd & He & _ & Hdot & _)].
      * by vm_compute in Hact.
      * vm_compute in Hrd. injection Hrd as <-.
        apply list_elem_of_singleton in He as ->. by vm_compute in Hdot.
    + apply list_elem_of_In. vm_compute. tauto.
Defined.

(** C10, as stated, fails: two skills of one repository declare the name
    [pdf]; one matches the installed copy, the other conflicts with it.
    Nothing is checked before; after the bulk selection the identifier of
    the conflicting skill is in the checked set. *)
Lemma checkAllMatchingRepoSkills_shared_identifier :
  elements (checkedSkills example_shared_name) = []
  ∧ Skill.matchStatus example_pdf_copy = Some Conflict
  ∧ fst (getSkillMatchStatus example_pdf_copy example_shared_name)
    = Normal Conflict
  ∧ index_get "https://example.org/r.git" (repoSkillsIndex example_shared_name)
    = Some [example_pdf; example_pdf_copy]
  ∧ elements (checkedSkills (snd (checkAllMatchingRepoSkills example_shared_name)))
    = [getSkillKey example_pdf_copy]
  ∧ elements (checkedSkills (snd (checkAllSkillsInRepo example_repo
                                    example_shared_name)))
    = [getSkillKey example_pdf_copy].
Proof. by vm_compute. Qed.

Lemma example_indexed_unique : identifiers_unique example_indexed.
Proof.
  assert (Hall : ∀ s, indexed example_indexed s →
                      s = example_pdf ∨ s = example_csv ∨ s = example_img).
  { intros s (url & skills & Hkv & Hs). simpl in Hkv.
    apply list_elem_of_singleton in Hkv. injection Hkv as Hurl Hskills. subst.
    repeat (apply elem_of_cons in Hs as [-> | Hs]; [tauto|]).
    by apply elem_of_nil in Hs. }
  intros s1 s2 H1 H2 Hk.
  destruct (Hall s1 H1) as [-> | [-> | ->]];
    destruct (Hall s2 H2) as [-> | [-> | ->]];
    try done; by vm_compute in Hk.
Qed.

Lemma bulk_selection_skips_conflicts_witness :
  identifiers_unique example_indexed
  ∧ indexed example_indexed example_csv
  ∧ Skill.matchStatus example_csv = Some Conflict
  ∧ (getSkillKey example_csv ∉ checkedSkills example_indexed)
  ∧ (∃ w', checkAllMatchingRepoSkills example_indexed = (Normal tt, w')
           ∧ getSkillKey example_csv ∉ checkedSkills w')
  ∧ (∀ repo, ∃ w', checkAllSkillsInRepo repo example_indexed = (Normal tt, w')
                   ∧ getSkillKey example_csv ∉ checkedSkills w').
Proof.
  assert (Hidx : indexed example_indexed example_csv).
  { exists "https://example.org/r.git", [example_pdf; example_csv; example_img].
    split; [by apply list_elem_of_singleton|]. right. by left. }
  assert (Hbefore : getSkillKey example_csv ∉ checkedSkills example_indexed).
  { intros Hin. by vm_compute in Hin. }
  split; [apply example_indexed_unique|]. split; [done|]. split; [done|].
  split; [done|].
  exact (bulk_selection_skips_conflicts example_indexed example_csv
           example_indexed_unique Hidx eq_refl Hbefore).
Defined.

Lemma updateInstalledSkillHashes_table_witness :
  ∃ w',
    updateInstalledSkillHashes example_world = (Normal tt, w')
    ∧ host w' = host example_world
    ∧ ∀ name,
        is_Some (installedSkillHashes w' !! name)
        ↔ ∃ e, e ∈ [ Dirent.mk "pdf" true; Dirent.mk "csv" true;
                     Dirent.mk "broken" true; Dirent.mk ".hidden" true;
                     Dirent.mk "notes.txt" false ]
               ∧ Dirent.name e = name
               ∧ counted_skill (host example_world) "/ws/.github/skills" e = true.
Proof.
  apply (updateInstalledSkillHashes_table example_world "/ws/.github/skills");
    by vm_compute.
Defined.

(** ** Further concrete instances *)

Lemma ensureOrder_permutation_witness :
  NoDup (ensureOrder ["c"; "gone"; "a"] ["a"; "b"; "c"])
  ∧ ensureOrder ["c"; "gone"; "a"] ["a"; "b"; "c"] ≡ₚ ["a"; "b"; "c"].
Proof.
  apply ensureOrder_permutation; apply (bool_decide_unpack _); by vm_compute.
Defined.

Lemma reorderKey_moves_only_dragged_witness :
  ∃ before after,
    reorderKey ["a"; "b"; "c"] "c" (Some "a") = before ++ "c" :: after
    ∧ before ++ after
      = List.filter (λ k, negb (bool_decide (k = "c"))) ["a"; "b"; "c"]
    ∧ ("c" ∉ before) ∧ ("c" ∉ after)
    ∧ ((Some "a" = None ∨ Some "a" = Some ""
        ∨ ∃ target, Some "a" = Some target ∧ target ∉ ["a"; "b"; "c"]) →
       after = []).
Proof. apply reorderKey_moves_only_dragged. done. Defined.


Lemma clear_undoes_checkAllSkillsInRepo_witness :
  ∃ w1 w2,
    checkAllSkillsInRepo example_repo example_indexed = (Normal tt, w1)
    ∧ clearCheckedSkillsInRepo example_repo w1 = (Normal tt, w2)
    ∧ checkedSkills w2 = checkedSkills example_indexed.
Proof.
  apply clear_undoes_checkAllSkillsInRepo. intros s _ Hin.
  assert (Hnone : checkedSkills example_indexed = ∅) by (by vm_compute).
  rewrite Hnone in Hin. by apply elem_of_empty in Hin.
Defined.

Lemma updateRepo_never_changes_presets_witness :
  let url := "https://github.com/anthropics/skills.git" in
  (is_preset_url url = true →
   getRepos (updateRepo url example_updates None) = getRepos None)
  ∧ (is_preset_url url = false →
     ∀ index repo,
       findIndex (λ r, bool_decide (SkillRepo.url r = url)) (getRepos None)
       = Some index →
       getRepos None !! index = Some repo →
       getRepos (updateRepo url example_updates None)
       = <[index := spread repo example_updates]> (getRepos None))
  ∧ (url ∉ map SkillRepo.url (getRepos None) →
     updateRepo url example_updates None = None).
Proof. by apply updateRepo_never_changes_presets. Defined.

Lemma exactly_one_active_group_witness :
  ∃ groups w',
    getLocalSkillsGroups example_world = (Normal groups, w')
    ∧ length (List.filter LocalSkillsGroup.isActive groups) = 1%nat
    ∧ ∀ g, g ∈ groups →
           (LocalSkillsGroup.isActive g = true
            ↔ Some (LocalSkillsGroup.path g) = active_dir (host example_world)).
Proof. by apply (exactly_one_active_group example_world "/ws"). Defined.


Lemma reorder_keeps_every_repository_witness :
  let key := "https://github.com/openai/skills.git" in
  let o := new_orders None in
  let urls := map SkillRepo.url (getRepos None) in
  (∃ o' w',
     reorderAfterDrop None KindRepo key None o example_world = (Normal o', w')
     ∧ repoOrder o' ≡ₚ urls ∧ NoDup (repoOrder o')
     ∧ (memento o' ≫= Memento.repoOrder) = (λ _, repoOrder o') <$> memento o
     ∧ localGroupOrder o' = localGroupOrder o
     ∧ fired w' = S (fired example_world))
  ∧ (∀ repo, SkillRepo.url repo = key →
     ∃ o' w',
       moveNode None (RepoNode repo) MinusOne o example_world = (Normal o', w')
       ∧ repoOrder o' ≡ₚ urls ∧ NoDup (repoOrder o')
       ∧ (memento o' ≫= Memento.repoOrder) = (λ _, repoOrder o') <$> memento o
       ∧ localGroupOrder o' = localGroupOrder o
       ∧ fired w' = S (fired example_world))
  ∧ (∀ group, LocalSkillsGroup.isActive group = true →
     moveNode None (GroupNode group) MinusOne o example_world = (Normal o, example_world)).
Proof.
  apply (reorder_keeps_every_repository None (new_orders None) example_world
           "https://github.com/openai/skills.git" None MinusOne).
  - apply (bool_decide_unpack _). by vm_compute.
  - constructor.
  - apply (bool_decide_unpack _). by vm_compute.
Defined.

